(** * LensOCR: the page-extraction pipeline of [App.tsx]

    A shallow embedding of the orchestration code of the application:
    [stopExtraction], [handleFileUpload] with its inner [processPage],
    [handleSendMessage] (src/App.tsx), [performOCR] and
    [chatWithDocument] (the Gemini service module) and [downloadAsText]
    (the export module).

    The asynchronous handler is modelled as a state machine whose steps are
    the synchronous segments that run between two [await]s.  One step is
    what the JavaScript event loop runs without interruption: the code that
    follows the resolution of a promise, up to the next suspension,
    together with the continuations (micro-tasks) it wakes up.  The
    environment (the PDF library, the canvas, the remote model, the clock
    and the user) chooses the order of the events and their payloads.

    Scope: a run is one invocation of [handleFileUpload], from any state
    of the component, with the user's clicks on "Terminate Processing".
    The termination flag is a single ref shared by all uploads: a run
    does not cover an upload that starts while calls of an earlier,
    cancelled one are still in flight; that situation has a model of its
    own ([Shared]), as have the DISMISS button of the banner ([Action])
    and the chat ([Chat]), which do not touch the extraction state.  The
    elapsed-time ticker and the HTML exporters are left out.
    JavaScript numbers: page numbers and lengths are [nat], timestamps
    and percentages are [Z]; the one computation that leaves the integers,
    the percentage [Math.round((n / total) * 100)], is carried out in
    double precision ([to_double]). *)

From Stdlib Require Import ZArith Lia QArith Qround Qpower Lqa.
From stdpp Require Import list sorting strings.

(** ** Data model (types.ts) *)

Inductive Status := idle | processing | completed | error.

#[global] Instance Status_eq_dec : EqDecision Status.
Proof. solve_decision. Defined.

Record OCRPage := mkPage {
  pageNumber : nat;
  extractedText : string;
  imagePreview : string;
  durationMs : Z
}.

Record DocumentState := mkDoc {
  fileName : string;
  pages : list OCRPage;
  fullText : string;
  status : Status;
  progress : Z;
  totalDurationMs : option Z;
  startTime : option Z
}.

(** A thrown value, seen through its [message] property ([None] when the
    property is absent). *)
Definition JsError := option string.

(** [m || d] on an optional string: the empty string is falsy too. *)
Definition or_else (m : option string) (d : string) : string :=
  match m with
  | Some s => if String.eqb s "" then d else s
  | None => d
  end.

(** ** The JavaScript runtime pieces the code relies on *)

(** [Array.prototype.sort] with a comparator: a stable sort that puts [a]
    before [b] when [cmp a b] is negative. *)
Fixpoint sort_insert {A} (cmp : A → A → Z) (x : A) (l : list A) : list A :=
  match l with
  | [] => [x]
  | y :: l' => if (cmp x y <=? 0)%Z then x :: y :: l' else y :: sort_insert cmp x l'
  end.

Definition array_sort {A} (cmp : A → A → Z) (l : list A) : list A :=
  foldr (sort_insert cmp) [] l.

(** [l.slice(from, to)] for [from <= to]: out-of-range ends are clamped. *)
Definition slice {A} (l : list A) (from to : nat) : list A :=
  take (to - from) (drop from l).

(** [haystack.includes(needle)]. *)
Fixpoint includes (needle haystack : string) : bool :=
  String.prefix needle haystack ||
  match haystack with
  | EmptyString => false
  | String _ rest => includes needle rest
  end.

Definition newline : string := String (Ascii.ascii_of_nat 10) EmptyString.

(** The separator of the joined text, ['\n\n---\n\n']. *)
Definition SEP : string :=
  (newline +:+ newline +:+ "---" +:+ newline +:+ newline)%string.

(** *** Double precision

    The numbers of JavaScript are IEEE 754 doubles.  Integers below 2^53
    are doubles; a quotient or a product is the double nearest to the
    exact result, a tie going to the even significand.  The results are
    kept as rationals.  The exponent range is not bounded here: the
    quotients of page counts are far from underflow and overflow. *)

(** [floor (log2 x)], for [x > 0]. *)
Definition Qlog2 (x : Q) : Z :=
  let e := (Z.log2 (Qnum x) - Z.log2 (Zpos (Qden x)))%Z in
  if Qle_bool (2 ^ e) x then e else (e - 1)%Z.

(** The integer nearest to [x], a tie going to the even one. *)
Definition round_half_even (x : Q) : Z :=
  let f := Qfloor x in
  match (x - inject_Z f ?= 1 # 2)%Q with
  | Lt => f
  | Gt => (f + 1)%Z
  | Eq => if Z.even f then f else (f + 1)%Z
  end.

(** The double nearest to [x >= 0]: between [2^e] and [2^(e+1)] the
    doubles are the multiples of [2^(e-52)]. *)
Definition to_double (x : Q) : Q :=
  if Qle_bool x 0 then 0%Q
  else
    let ulp := (2 ^ (Qlog2 x - 52))%Q in
    (inject_Z (round_half_even (x / ulp)) * ulp)%Q.

(** [Math.round(x)]: the nearest integer, a tie going upwards. *)
Definition Math_round (x : Q) : Z := Qfloor (x + (1 # 2)).

(** [Math.round((n / total) * 100)]: the quotient is rounded to a double,
    then the product.  [total] is positive wherever the code evaluates
    this (a page has been extracted); the quotient by 0 is taken to be 0
    here. *)
Definition round_percent (n total : nat) : Z :=
  let ratio :=
    to_double (inject_Z (Z.of_nat n) / inject_Z (Z.of_nat total)) in
  Math_round (to_double (ratio * 100)).

(** ** [performOCR] (geminiService) *)

Inductive Outcome (A : Type) :=
| Returns (a : A)
| Throws (err : JsError).
Arguments Returns {A} a.
Arguments Throws {A} err.

(** What [ai.models.generateContent] does when it is called: it answers
    with a response whose [text] may be absent, or it throws. *)
Inductive ServiceReply :=
| ReplyText (text : option string)
| ReplyThrow (err : JsError).

Definition classify (message : string) : string :=
  if includes "403" message || includes "API_KEY_INVALID" message
  then "Invalid API Key. Authentication failed."
  else if includes "429" message
  then "Rate limit exceeded. Please wait a moment."
  else if includes "fetch" message
  then "Network error: Could not connect to Google Gemini API."
  else ("OCR Processing Failed: " +:+ message)%string.

(** The result of the call and the number of requests sent to the service.
    [reply] is only looked at when the request is sent.  The content of
    the request (image part and prompt) has no influence on the control
    flow and is left out. *)
Definition performOCR (API_KEY : string) (reply : ServiceReply)
  : Outcome string * nat :=
  if String.eqb API_KEY "" then
    (Throws (Some "API Key is missing. Please ensure process.env.API_KEY is configured."), 0)
  else
    let attempt :=
      match reply with
      | ReplyText text =>
          if String.eqb (or_else text "") ""
          then Throws (Some "Empty response from AI model.")
          else Returns (or_else text "")
      | ReplyThrow err => Throws err
      end in
    match attempt with
    | Returns text => (Returns text, 1)
    | Throws err => (Throws (Some (classify (or_else err "Unknown API error"))), 1)
    end.

(** ** The component state and the closure of one upload *)

(** [docState], [apiError] and [isTerminatedRef.current]. *)
Record App := mkApp {
  docState : DocumentState;
  apiError : option string;
  isTerminated : bool
}.

(** A [processPage] call, by the [await] it is suspended at, or settled. *)
Inductive Task :=
| AwaitGetPage
| AwaitRender
| AwaitOCR (imageData : string) (pStart : Z)
| Resolved (r : option OCRPage)
| Rejected (err : JsError).

(** Where [handleFileUpload] itself is suspended. *)
Inductive Phase := AwaitArrayBuffer | AwaitDocument | AwaitBatch | Returned.

(** The local variables of a [handleFileUpload] call.  [tasks] holds the
    [processPage] calls made so far, in call order: pages are dispatched
    in increasing order from page 1, so the call for page [k+1] is at
    index [k]. *)
Record Run := mkRun {
  totalPages : nat;
  fileStartTime : Z;
  results : list OCRPage;
  loop_i : nat;
  phase : Phase;
  tasks : list Task
}.

Record Sys := mkSys { app : App; run : Run }.

Definition setDocState (f : DocumentState → DocumentState) (a : App) : App :=
  mkApp (f (docState a)) (apiError a) (isTerminated a).

Definition setApiError (e : option string) (a : App) : App :=
  mkApp (docState a) e (isTerminated a).

Definition with_phase (p : Phase) (r : Run) : Run :=
  mkRun (totalPages r) (fileStartTime r) (results r) (loop_i r) p (tasks r).

Definition with_tasks (ts : list Task) (r : Run) : Run :=
  mkRun (totalPages r) (fileStartTime r) (results r) (loop_i r) (phase r) ts.

Definition with_results (rs : list OCRPage) (r : Run) : Run :=
  mkRun (totalPages r) (fileStartTime r) rs (loop_i r) (phase r) (tasks r).

Definition with_loop_i (i : nat) (r : Run) : Run :=
  mkRun (totalPages r) (fileStartTime r) (results r) i (phase r) (tasks r).

Definition with_totalPages (n : nat) (r : Run) : Run :=
  mkRun n (fileStartTime r) (results r) (loop_i r) (phase r) (tasks r).

(** ** [stopExtraction] *)

Definition stopExtraction (a : App) : App :=
  let d := docState a in
  mkApp (mkDoc (fileName d) (pages d) (fullText d) idle 0%Z
               (totalDurationMs d) (startTime d))
        (Some "Processing terminated by user.")
        true.

(** ** [handleFileUpload] *)

(** The synchronous prefix, up to the first [await]. *)
Definition handleFileUpload_begin (file : option string) (now : Z) (a : App)
  : App :=
  match file with
  | None => a
  | Some name =>
      mkApp (mkDoc name [] "" processing 0%Z None (Some now)) None false
  end.

Definition start (a : App) (name : string) (now : Z) : Sys :=
  mkSys (handleFileUpload_begin (Some name) now a)
        (mkRun 0 now [] 0 AwaitArrayBuffer []).

Definition concurrencyLimit : nat := 12.

Definition pageNumbers (total : nat) : list nat :=
  map (λ i, i + 1) (seq 0 total).

Definition compare_pages (a b : OCRPage) : Z :=
  (Z.of_nat (pageNumber a) - Z.of_nat (pageNumber b))%Z.

(** The [catch] of the handler. *)
Definition handle_catch (err : JsError) (s : Sys) : Sys :=
  let a := setApiError
             (Some (or_else err "A critical error occurred during processing."))
             (app s) in
  let a := setDocState (λ prev,
             mkDoc (fileName prev) (pages prev) (fullText prev) error
                   (progress prev) (totalDurationMs prev) (startTime prev)) a in
  mkSys a (with_phase Returned (run s)).

(** The code after the loop. *)
Definition after_loop (now : Z) (s : Sys) : Sys :=
  if isTerminated (app s) then mkSys (app s) (with_phase Returned (run s))
  else
    let sorted := array_sort compare_pages (results (run s)) in
    let text := String.concat SEP (map extractedText sorted) in
    let a := setDocState (λ prev,
               mkDoc (fileName prev) sorted text completed 100%Z
                     (Some (now - fileStartTime (run s))%Z) (startTime prev))
               (app s) in
    mkSys a (with_phase Returned (with_results sorted (run s))).

(** The first synchronous segment of [processPage]: the termination check,
    then the suspension on [pdf.getPage]. *)
Definition processPage_begin (terminated : bool) (pageNum : nat) : Task :=
  if terminated then Resolved None else AwaitGetPage.

(** The loop test and one loop body, with the loop variable at [i]: the
    test [i < pageNumbers.length], the termination check, then the calls
    of [processPage] on the slice and the suspension on [Promise.all].
    Every call made here suspends on [pdf.getPage] (the flag was just seen
    unset), so the handler does suspend. *)
Definition loop_at (now : Z) (i : nat) (s : Sys) : Sys :=
  let s := mkSys (app s) (with_loop_i i (run s)) in
  if i <? length (pageNumbers (totalPages (run s))) then
    if isTerminated (app s) then after_loop now s
    else
      let batch := slice (pageNumbers (totalPages (run s))) i (i + concurrencyLimit) in
      let calls := map (processPage_begin (isTerminated (app s))) batch in
      mkSys (app s) (with_phase AwaitBatch (with_tasks (tasks (run s) ++ calls) (run s)))
  else after_loop now s.

(** What the environment reports to a suspended [processPage]. *)
Inductive TaskEvent :=
| GetPageDone (context : bool)   (* [context]: did [getContext('2d')] give one *)
| GetPageFail (err : JsError)
| RenderDone (imageData : string)
| RenderFail (err : JsError)
| OCRDone (reply : ServiceReply).

(** The updater passed to [setDocState] when a page is ready. *)
Definition add_page (total : nat) (newPage : OCRPage) (prev : DocumentState)
  : DocumentState :=
  let updatedPages := array_sort compare_pages (pages prev ++ [newPage]) in
  mkDoc (fileName prev) updatedPages (fullText prev) (status prev)
        (round_percent (length updatedPages) total)
        (totalDurationMs prev) (startTime prev).

(** The segment of [processPage] that an event wakes up: the new state of
    the call and the page it hands to [setDocState], if any.  [None] when
    the call is not waiting for this event. *)
Definition processPage_resume (API_KEY : string) (terminated : bool)
    (pageNum : nat) (now : Z) (t : Task) (ev : TaskEvent)
  : option (Task * option OCRPage) :=
  match t, ev with
  | AwaitGetPage, GetPageDone context =>
      if context then Some (AwaitRender, None) else Some (Resolved None, None)
  | AwaitGetPage, GetPageFail err => Some (Rejected err, None)
  | AwaitRender, RenderDone imageData =>
      if terminated then Some (Resolved None, None)
      else Some (AwaitOCR imageData now, None)
  | AwaitRender, RenderFail err => Some (Rejected err, None)
  | AwaitOCR imageData pStart, OCRDone reply =>
      match fst (performOCR API_KEY reply) with
      | Throws err => Some (Rejected err, None)
      | Returns text =>
          let duration := (now - pStart)%Z in
          let newPage := mkPage pageNum text imageData duration in
          Some (Resolved (Some newPage),
                if terminated then None else Some newPage)
      end
  | _, _ => None
  end.

Definition is_resolved (t : Task) : bool :=
  match t with Resolved _ => true | _ => false end.

Definition page_of (t : Task) : option OCRPage :=
  match t with Resolved r => r | _ => None end.

(** The continuation of [await Promise.all(...)] once the call [t'] has
    moved: the rejection of any call is thrown into the [catch]; when all
    the calls of the slice are resolved their non-null results are pushed
    and the loop goes on.  The calls of the awaited slice are those from
    index [loop_i] on: the earlier ones belong to the earlier slices. *)
Definition promise_all (now : Z) (t' : Task) (s : Sys) : Sys :=
  match phase (run s) with
  | AwaitBatch =>
      match t' with
      | Rejected err => handle_catch err s
      | _ =>
          let batch := drop (loop_i (run s)) (tasks (run s)) in
          if forallb is_resolved batch then
            let pushed := results (run s) ++ omap page_of batch in
            loop_at now (loop_i (run s) + concurrencyLimit)
                    (mkSys (app s) (with_results pushed (run s)))
          else s
      end
  | _ => s
  end.

(** A [processPage] call moves to [t'], handing [published] (if any) to
    [setDocState] on the way. *)
Definition advance_task (k : nat) (t' : Task) (published : option OCRPage)
    (s : Sys) : Sys :=
  let a := match published with
           | Some newPage =>
               setDocState (add_page (totalPages (run s)) newPage) (app s)
           | None => app s
           end in
  mkSys a (with_tasks (<[k := t']> (tasks (run s))) (run s)).

Inductive Event :=
| Stop                              (* a click on "Terminate Processing" *)
| ArrayBufferDone
| ArrayBufferFail (err : JsError)
| DocumentDone (numPages : nat)
| DocumentFail (err : JsError)
| TaskEv (pageNum : nat) (ev : TaskEvent).

Section Machine.

Variable API_KEY : string.

(** One step: the event [snd ne] is delivered while the clock reads
    [fst ne].  An event nobody is waiting for changes nothing. *)
Definition step (s : Sys) (ne : Z * Event) : Sys :=
  let now := fst ne in
  match snd ne with
  | Stop =>
      (* the button exists only in the 'processing' view *)
      match status (docState (app s)) with
      | processing => mkSys (stopExtraction (app s)) (run s)
      | _ => s
      end
  | ArrayBufferDone =>
      match phase (run s) with
      | AwaitArrayBuffer => mkSys (app s) (with_phase AwaitDocument (run s))
      | _ => s
      end
  | ArrayBufferFail err =>
      match phase (run s) with
      | AwaitArrayBuffer => handle_catch err s
      | _ => s
      end
  | DocumentDone numPages =>
      match phase (run s) with
      | AwaitDocument =>
          loop_at now 0 (mkSys (app s) (with_totalPages numPages (run s)))
      | _ => s
      end
  | DocumentFail err =>
      match phase (run s) with
      | AwaitDocument => handle_catch err s
      | _ => s
      end
  | TaskEv pageNum ev =>
      match pageNum with
      | O => s
      | S k =>
          match tasks (run s) !! k with
          | None => s
          | Some t =>
              match processPage_resume API_KEY (isTerminated (app s))
                                       pageNum now t ev with
              | None => s
              | Some (t', published) =>
                  promise_all now t' (advance_task k t' published s)
              end
          end
      end
  end.

Definition exec (s : Sys) (evs : list (Z * Event)) : Sys := foldl step s evs.

(** A run: an upload from any component state, then events. *)
Definition run_from (a : App) (name : string) (now : Z) (evs : list (Z * Event)) : Sys :=
  exec (start a name now) evs.

End Machine.

Definition initialApp : App :=
  mkApp (mkDoc "" [] "" idle 0%Z None None) None false.

(** A page that goes through without incident. *)
Definition page_ok (n : nat) (t : Z) (text : string) : list (Z * Event) :=
  [ (t, TaskEv n (GetPageDone true));
    (t, TaskEv n (RenderDone "img"));
    ((t + 5)%Z, TaskEv n (OCRDone (ReplyText (Some text)))) ].

(** ** Vocabulary of the statements *)

Abbreviation doc s := (docState (app s)).

Definition keys (l : list OCRPage) : list nat := map pageNumber l.

Definition by_number (a b : OCRPage) : Prop := pageNumber a ≤ pageNumber b.

Definition live (st : Status) : Prop := st = processing ∨ st = idle.

Definition resolved (t : Task) : Prop := is_resolved t = true.

Definition rejected (t : Task) : Prop := ∃ err, t = Rejected err.

Definition cancels (e : Event) : bool :=
  match e with Stop => true | _ => false end.

(** The page got no 2D context from its canvas: [processPage] returns
    [null] without any extraction. *)
Definition lacks_context (e : Event) : bool :=
  match e with TaskEv _ (GetPageDone false) => true | _ => false end.

Definition fails (API_KEY : string) (e : Event) : bool :=
  match e with
  | ArrayBufferFail _ | DocumentFail _ => true
  | TaskEv _ (GetPageFail _) | TaskEv _ (RenderFail _) => true
  | TaskEv _ (OCRDone reply) =>
      match fst (performOCR API_KEY reply) with
      | Throws _ => true
      | Returns _ => false
      end
  | _ => false
  end.

Definition awaited_extraction (k : nat) (e : Event) : bool :=
  match e with
  | TaskEv n (OCRDone _) => bool_decide (n = S k)
  | _ => false
  end.

(** A call that has neither resolved nor rejected. *)
Definition is_outstanding (t : Task) : bool :=
  match t with
  | Resolved _ | Rejected _ => false
  | _ => true
  end.

Definition count_outstanding (ts : list Task) : nat :=
  length (List.filter is_outstanding ts).

(** The values the loop variable takes when the loop runs to its end:
    [for (let i = 0; i < total; i += concurrencyLimit)].  [fuel] bounds
    the number of iterations; [total] iterations are always enough. *)
Fixpoint loop_indices (fuel i total : nat) : list nat :=
  match fuel with
  | 0 => []
  | S fuel' =>
      if i <? total then i :: loop_indices fuel' (i + concurrencyLimit) total
      else []
  end.

Definition batch_starts (total : nat) : list nat := loop_indices total 0 total.

(** The slices the loop takes, in order. *)
Definition batches (total : nat) : list (list nat) :=
  map (λ i, slice (pageNumbers total) i (i + concurrencyLimit))
      (batch_starts total).

Definition msg_empty_response : string :=
  "OCR Processing Failed: Empty response from AI model.".

Definition msg_missing_key : string :=
  "API Key is missing. Please ensure process.env.API_KEY is configured.".

(** ** The invariants of a run *)

(** The part of the invariant that concerns the exposed state. *)
Record DocInv (s : Sys) : Prop := mkDocInv {
  inv_sorted : StronglySorted lt (keys (pages (doc s)));
  inv_pages : ∀ p, p ∈ pages (doc s) →
      ∃ k, tasks (run s) !! k = Some (Resolved (Some p));
  inv_tasks : ∀ k p, tasks (run s) !! k = Some (Resolved (Some p)) →
      pageNumber p = S k;
  inv_total : length (tasks (run s)) ≤ totalPages (run s);
  inv_flag : if isTerminated (app s)
             then status (doc s) = idle ∨ status (doc s) = error
             else status (doc s) ≠ idle;
  inv_text : status (doc s) ≠ completed → fullText (doc s) = "";
  inv_progress : progress (doc s) =
      if isTerminated (app s) then 0%Z
      else match status (doc s) with
           | completed => 100%Z
           | _ => round_percent (length (pages (doc s))) (totalPages (run s))
           end
}.

Record Inv (s : Sys) : Prop := mkInv {
  inv_doc : DocInv s;
  inv_prefix : Forall resolved (take (loop_i (run s)) (tasks (run s)));
  inv_window : length (tasks (run s)) ≤ loop_i (run s) + concurrencyLimit;
  inv_phase :
    match phase (run s) with
    | AwaitArrayBuffer | AwaitDocument =>
        tasks (run s) = [] ∧ results (run s) = [] ∧
        totalPages (run s) = 0 ∧ loop_i (run s) = 0 ∧ live (status (doc s))
    | AwaitBatch =>
        loop_i (run s) < totalPages (run s) ∧
        length (tasks (run s)) =
          (loop_i (run s) + concurrencyLimit) `min` totalPages (run s) ∧
        loop_i (run s) `mod` concurrencyLimit = 0 ∧
        results (run s) = omap page_of (take (loop_i (run s)) (tasks (run s))) ∧
        live (status (doc s))
    | Returned =>
        match status (doc s) with
        | processing => False
        | idle => Forall resolved (tasks (run s))
        | completed =>
            Forall resolved (tasks (run s)) ∧
            length (tasks (run s)) = totalPages (run s) ∧
            results (run s) = omap page_of (tasks (run s)) ∧
            pages (doc s) = results (run s) ∧
            fullText (doc s) =
              String.concat SEP (map extractedText (pages (doc s)))
        | error => True
        end
    end;
  inv_failed : status (doc s) = error →
      tasks (run s) = [] ∨ Exists rejected (tasks (run s))
}.

(** What holds when the loop test is about to run with the loop variable
    at [i]: every call made so far has resolved and its result is pushed. *)
Record LoopPre (i : nat) (s : Sys) : Prop := mkLoopPre {
  lp_doc : DocInv s;
  lp_all : Forall resolved (tasks (run s));
  lp_results : results (run s) = omap page_of (tasks (run s));
  lp_len : length (tasks (run s)) = i `min` totalPages (run s);
  lp_mod : i `mod` concurrencyLimit = 0;
  lp_live : live (status (doc s))
}.

(** No cancellation so far and no call that returned [null]. *)
Record Clean (s : Sys) : Prop := mkClean {
  clean_flag : isTerminated (app s) = false;
  clean_tasks : Forall (λ t, t ≠ Resolved None) (tasks (run s))
}.

Definition Pending (s : Sys) : Prop :=
  phase (run s) = AwaitBatch →
  Exists (λ t, is_resolved t = false) (tasks (run s)).

(** ** Runs used as examples *)

(** The concrete runs used as examples below: a three-page document whose
    pages complete in the order 3, 1, 2. *)
Definition run_C_A_B : Sys :=
  run_from "key" initialApp "doc.pdf" 0
    ([(1%Z, ArrayBufferDone); (2%Z, DocumentDone 3)]
       ++ page_ok 3 10 "C" ++ page_ok 1 20 "A" ++ page_ok 2 30 "B").

(** A two-page document: page 1 is extracted, the extraction of page 2 is
    in flight. *)
Definition trace_one_of_two : list (Z * Event) :=
  [(1%Z, ArrayBufferDone); (2%Z, DocumentDone 2)] ++ page_ok 1 10 "A" ++
  [(20%Z, TaskEv 2 (GetPageDone true)); (20%Z, TaskEv 2 (RenderDone "img"))].

(** The same document, when the service then refuses page 2. *)
Definition page_2_refused : Z * Event :=
  (30%Z, TaskEv 2 (OCRDone (ReplyThrow (Some "429 Too Many Requests")))).


(** A 250-page document: every page but the last goes through, then the
    extraction of page 250 is refused by the service. *)
Definition pages_ok (first count : nat) : list (Z * Event) :=
  flat_map (λ n, page_ok n (Z.of_nat n) "text") (seq first count).

Definition trace_249_of_250 : list (Z * Event) :=
  [(1%Z, ArrayBufferDone); (2%Z, DocumentDone 250)] ++ pages_ok 1 249 ++
  [(300%Z, TaskEv 250 (GetPageDone true)); (300%Z, TaskEv 250 (RenderDone "img"))].

(** A 25-page document: the first eleven pages are extracted and page 12,
    the last call of the first batch, is waiting for its extraction. *)
Definition trace_25_first_batch : list (Z * Event) :=
  [(1%Z, ArrayBufferDone); (2%Z, DocumentDone 25)] ++ pages_ok 1 11 ++
  [(12%Z, TaskEv 12 (GetPageDone true)); (12%Z, TaskEv 12 (RenderDone "img"))].

Definition page_12_extracted : Z * Event :=
  (17%Z, TaskEv 12 (OCRDone (ReplyText (Some "text")))).

(** ** Vocabulary of the further properties *)

(** The component state as the handler's [catch] leaves it. *)
Definition catch_app (err : JsError) (a : App) : App :=
  setDocState (λ prev,
      mkDoc (fileName prev) (pages prev) (fullText prev) error
            (progress prev) (totalDurationMs prev) (startTime prev))
    (setApiError
       (Some (or_else err "A critical error occurred during processing.")) a).

(** The component state as the completion of the handler leaves it. *)
Definition complete_app (sorted : list OCRPage) (duration : Z) (a : App) : App :=
  setDocState (λ prev,
      mkDoc (fileName prev) sorted
            (String.concat SEP (map extractedText sorted)) completed 100%Z
            (Some duration) (startTime prev)) a.

(** How one step can change the component state. *)
Inductive AppStep (API_KEY : string) (total : nat) (e : Event) (a : App)
  : App → Prop :=
| as_same : AppStep API_KEY total e a a
| as_stop :
    e = Stop → status (docState a) = processing →
    AppStep API_KEY total e a (stopExtraction a)
| as_catch err :
    fails API_KEY e = true → live (status (docState a)) →
    AppStep API_KEY total e a (catch_app err a)
| as_page p :
    isTerminated a = false → status (docState a) ≠ completed →
    AppStep API_KEY total e a (setDocState (add_page total p) a)
| as_complete sorted duration :
    isTerminated a = false → status (docState a) = processing →
    AppStep API_KEY total e a (complete_app sorted duration a)
| as_page_complete p sorted duration :
    isTerminated a = false → status (docState a) = processing →
    AppStep API_KEY total e a
      (complete_app sorted duration (setDocState (add_page total p) a)).

(** The error banner goes with the status. *)
Definition Banner (a : App) : Prop :=
  match status (docState a) with
  | processing | completed => apiError a = None
  | idle => apiError a = Some "Processing terminated by user."
  | error => ∃ m, apiError a = Some m ∧ m ≠ ""
  end.

(** The fields of the document state that describe the upload. *)
Definition Meta (name : string) (t0 : Z) (d : DocumentState) : Prop :=
  fileName d = name ∧ startTime d = Some t0 ∧
  (status d = completed ↔ totalDurationMs d ≠ None).

(** Every page a call has produced has a text. *)
Definition Filled (s : Sys) : Prop :=
  Forall (λ t, ∀ p, t = Resolved (Some p) → extractedText p ≠ "")
         (tasks (run s)).

(** While a batch is awaited none of the calls has rejected. *)
Definition Unrejected (s : Sys) : Prop :=
  phase (run s) = AwaitBatch → Forall (λ t, ¬ rejected t) (tasks (run s)).

(** The clock readings of a trace never go back, starting from [c]. *)
Fixpoint clock_advances (c : Z) (evs : list (Z * Event)) : bool :=
  match evs with
  | [] => true
  | ne :: evs' => (c <=? ne.1)%Z && clock_advances ne.1 evs'
  end.

Definition timed_task (c : Z) (t : Task) : Prop :=
  match t with
  | AwaitOCR _ pStart => (pStart ≤ c)%Z
  | Resolved (Some p) => (0 ≤ durationMs p)%Z
  | _ => True
  end.

(** With the clock at [c]: no start stamp is in the future and no recorded
    duration is negative. *)
Record Timed (c : Z) (s : Sys) : Prop := mkTimed {
  timed_start : (fileStartTime (run s) ≤ c)%Z;
  timed_tasks : Forall (timed_task c) (tasks (run s));
  timed_total : ∀ d, totalDurationMs (doc s) = Some d → (0 ≤ d)%Z
}.

(** The results pushed so far are those of the calls of the finished
    slices, in call order. *)
Definition Pushed (s : Sys) : Prop :=
  results (run s) = omap page_of (take (loop_i (run s)) (tasks (run s))).

(** The page that the call on page [n] produces when nothing disturbs it,
    with [f n] for text, and the events of a run in which every page goes
    through, one page after the other. *)
Definition page_of_run (f : nat → string) (n : nat) : OCRPage :=
  mkPage n (f n) "img" 5.

Definition all_pages_ok (f : nat → string) (total : nat) : list (Z * Event) :=
  flat_map (λ n, page_ok n (Z.of_nat n) (f n)) (seq 1 total).

(** The first [k] pages are done, the calls behind page [k+1] have not
    moved, and nothing went wrong. *)
Record Served (f : nat → string) (k : nat) (s : Sys) : Prop := mkServed {
  sv_inv : Inv s;
  sv_pending : Pending s;
  sv_clean : Clean s;
  sv_ok : status (doc s) ≠ error;
  sv_done : ∀ j, j < k →
      tasks (run s) !! j = Some (Resolved (Some (page_of_run f (S j))));
  sv_rest : ∀ j t, k < j → tasks (run s) !! j = Some t → t = AwaitGetPage
}.

(** The DISMISS button of the banner ([setApiError(null)]) can be clicked
    at any moment of a run; it touches nothing but the banner. *)
Inductive Action :=
| Deliver (ne : Z * Event)
| Dismiss.

Definition dismiss (s : Sys) : Sys :=
  mkSys (setApiError None (app s)) (run s).

Definition act (API_KEY : string) (s : Sys) (x : Action) : Sys :=
  match x with
  | Deliver ne => step API_KEY s ne
  | Dismiss => dismiss s
  end.

(** A run with its dismissals. *)
Definition session (API_KEY : string) (a : App) (name : string) (now : Z)
    (xs : list Action) : Sys :=
  foldl (act API_KEY) (start a name now) xs.

Definition is_dismiss (x : Action) : bool :=
  match x with Dismiss => true | Deliver _ => false end.

(** The banner shows [m], unless it has been dismissed. *)
Definition shows (a : App) (m : string) : Prop :=
  apiError a = Some m ∨ apiError a = None.

(** The banner goes with the status, up to dismissal. *)
Definition BannerOrDismissed (a : App) : Prop :=
  match status (docState a) with
  | processing | completed => apiError a = None
  | idle => shows a "Processing terminated by user."
  | error => ∃ m, shows a m ∧ m ≠ ""
  end.



(** The messages that leave the [catch] of [performOCR]. *)
Definition classified (m : string) : Prop :=
  m = "Invalid API Key. Authentication failed." ∨
  m = "Rate limit exceeded. Please wait a moment." ∨
  m = "Network error: Could not connect to Google Gemini API." ∨
  ∃ cause, cause ≠ "" ∧ m = ("OCR Processing Failed: " +:+ cause)%string.

(** ** A second upload while calls of the first are in flight *)

(** The component state, [isTerminatedRef] included, is shared by the
    invocations of [handleFileUpload]; each invocation has its own
    variables and its own calls of [processPage]. *)
Record Shared := mkShared {
  component : App;
  first_run : Run;
  second_run : Run
}.

(** The upload control is back once the status is Idle: a new file is
    chosen in the state [s] of the first run. *)
Definition upload_again (name : string) (now : Z) (s : Sys) : Shared :=
  let new := start (app s) name now in
  mkShared (app new) (run s) (run new).

(** An event (other than a click) delivered to the first invocation and
    to the second one. *)
Definition step_first (API_KEY : string) (sh : Shared) (ne : Z * Event)
  : Shared :=
  let s' := step API_KEY (mkSys (component sh) (first_run sh)) ne in
  mkShared (app s') (run s') (second_run sh).

Definition step_second (API_KEY : string) (sh : Shared) (ne : Z * Event)
  : Shared :=
  let s' := step API_KEY (mkSys (component sh) (second_run sh)) ne in
  mkShared (app s') (first_run sh) (run s').

(** ** [downloadAsText] (exportService) *)

Fixpoint string_drop (n : nat) (s : string) : string :=
  match n, s with
  | O, _ => s
  | S _, EmptyString => EmptyString
  | S n', String _ rest => string_drop n' rest
  end.

(** [s.replace(needle, repl)] with a string for pattern: the first
    occurrence only. *)
Fixpoint replace_first (needle repl s : string) : string :=
  if String.prefix needle s
  then (repl +:+ string_drop (String.length needle) s)%string
  else match s with
       | EmptyString => EmptyString
       | String c rest => String c (replace_first needle repl rest)
       end.

(** What the browser is handed: the blob (type and content) and the
    [download] attribute of the link that is clicked. *)
Record Download := mkDownload {
  blob_type : string;
  blob_content : string;
  download : string
}.

Definition downloadAsText (filename content : string) : Download :=
  mkDownload "text/plain" content
             (replace_first ".pdf" "" filename +:+ "_OCR.txt")%string.

(** ** The chat ([handleSendMessage], [chatWithDocument]) *)

Module Chat.

Inductive Role := user | assistant.

Record ChatMessage := mkMessage {
  id : Z;               (* the clock reading whose decimal string is the id *)
  role : Role;
  content : string;
  timestamp : Z
}.

(** What [chatWithDocument] sends to the service: the [contents], each
    with its role and the text of its part, and the document that is put
    in the system instruction. *)
Record Request := mkRequest {
  contents : list (string * string);
  documentContext : string
}.

Definition chatWithDocument_request (history : list (string * string))
    (userPrompt documentContext : string) : Request :=
  mkRequest (history ++ [("user", userPrompt)]) documentContext.

(** What [chatWithDocument] returns once the service has replied. *)
Definition chatWithDocument_result (reply : ServiceReply) : Outcome string :=
  match reply with
  | ReplyText text =>
      Returns (or_else text "I'm sorry, I couldn't generate a response.")
  | ReplyThrow err => Throws err
  end.

(** The chat part of the component state, and the invocations of
    [handleSendMessage] that are suspended on [chatWithDocument], each
    with the request that its call builds. *)
Record State := mkState {
  chatMessages : list ChatMessage;
  userInput : string;
  isChatLoading : bool;
  awaited : list Request
}.

Definition initial : State := mkState [] "" false [].

Definition history_of (msg : ChatMessage) : string * string :=
  (match role msg with user => "user" | assistant => "model" end, content msg).

(** The events of the chat.  A handler runs in the closure of the render
    that is on screen: it reads the chat state as the previous event left
    it.  Each event comes with what else it reads: the document state of
    that render, and the readings of the clock ([Date.now()] is called
    twice per message). *)
Inductive ChatEvent :=
| Typed (d : DocumentState) (text : string)
| Submitted (d : DocumentState) (t_id t_stamp : Z)
| Replied (i : nat) (t_id t_stamp : Z) (reply : ServiceReply).

Section Handlers.

(** [blank s]: [s.trim()] is the empty string. *)
Variable blank : string → bool.

Definition handleSendMessage (d : DocumentState) (t_id t_stamp : Z)
    (c : State) : State :=
  if blank (userInput c) || isChatLoading c
     || negb (bool_decide (status d = completed))
  then c
  else
    let newMessage := mkMessage t_id user (userInput c) t_stamp in
    let history := map history_of (chatMessages c) in
    mkState (chatMessages c ++ [newMessage]) "" true
            (awaited c ++
               [chatWithDocument_request history (userInput c) (fullText d)]).

(** The rest of [handleSendMessage], once [chatWithDocument] has settled:
    the answer is appended, or the error is logged; [finally] the loading
    flag is cleared. *)
Definition handleSendMessage_resume (i : nat) (t_id t_stamp : Z)
    (reply : ServiceReply) (c : State) : State :=
  match awaited c !! i with
  | None => c
  | Some _ =>
      let messages :=
        match chatWithDocument_result reply with
        | Returns responseText =>
            chatMessages c ++ [mkMessage t_id assistant responseText t_stamp]
        | Throws _ => chatMessages c
        end in
      mkState messages (userInput c) false (delete i (awaited c))
  end.

Definition chat_step (c : State) (e : ChatEvent) : State :=
  match e with
  | Typed d text =>
      (* the text area is disabled unless the document is completed and
         no answer is awaited *)
      if bool_decide (status d = completed) && negb (isChatLoading c)
      then mkState (chatMessages c) text (isChatLoading c) (awaited c)
      else c
  | Submitted d t_id t_stamp => handleSendMessage d t_id t_stamp c
  | Replied i t_id t_stamp reply =>
      handleSendMessage_resume i t_id t_stamp reply c
  end.

Definition chat_exec (evs : list ChatEvent) : State :=
  foldl chat_step initial evs.

End Handlers.

(** White space, as far as the characters below 128 go. *)
Definition ascii_space (c : Ascii.ascii) : bool :=
  let n := Ascii.nat_of_ascii c in
  ((9 <=? n) && (n <=? 13)) || (n =? 32).

Fixpoint ascii_blank (s : string) : bool :=
  match s with
  | EmptyString => true
  | String c rest => ascii_space c && ascii_blank rest
  end.

(** What holds of the chat in every state. *)
Record ChatInv (c : State) : Prop := mkChatInv {
  chat_content : Forall (λ m, content m ≠ "") (chatMessages c);
  chat_awaited :
    if isChatLoading c
    then ∃ r, awaited c = [r] ∧ contents r = map history_of (chatMessages c)
    else awaited c = []
}.

End Chat.

(** ** Groups of calls, origins of the results, two uploads *)

(** The sizes of the groups of calls of [processPage] that are started
    along the events [evs], in order. *)
Fixpoint dispatches (API_KEY : string) (s : Sys) (evs : list (Z * Event))
  : list nat :=
  match evs with
  | [] => []
  | ne :: evs' =>
      let s' := step API_KEY s ne in
      let n := length (tasks (run s')) - length (tasks (run s)) in
      (if n =? 0 then [] else [n]) ++ dispatches API_KEY s' evs'
  end.

(** The service has answered [text] for page [n] somewhere in [evs], and
    page [n] got no 2D context somewhere in [evs]. *)
Definition answered (API_KEY : string) (evs : list (Z * Event))
    (n : nat) (text : string) : Prop :=
  ∃ t reply, (t, TaskEv n (OCRDone reply)) ∈ evs ∧
             fst (performOCR API_KEY reply) = Returns text.

Definition without_context (evs : list (Z * Event)) (n : nat) : Prop :=
  ∃ t, (t, TaskEv n (GetPageDone false)) ∈ evs.

(** Where the result of every resolved call comes from. *)
Definition Traced (API_KEY : string) (evs : list (Z * Event)) (s : Sys)
  : Prop :=
  ∀ k r, tasks (run s) !! k = Some (Resolved r) →
    match r with
    | Some p => answered API_KEY evs (S k) (extractedText p)
    | None => isTerminated (app s) = true ∨ without_context evs (S k)
    end.

(** A cancelled upload of two pages, the second one waiting for the
    service, then a new upload; the answer for the old page 2 arrives,
    and then the first page of the new document goes through. *)
Definition stale_then_new : Shared :=
  let old := run_from "key" initialApp "old.pdf" 0
               (trace_one_of_two ++ [(25%Z, Stop)]) in
  let sh := step_first "key" (upload_again "new.pdf" 26 old)
              (30%Z, TaskEv 2 (OCRDone (ReplyText (Some "B")))) in
  foldl (step_second "key") sh
        ([(31%Z, ArrayBufferDone); (32%Z, DocumentDone 2)]
           ++ page_ok 1 40 "N").

(** A cancelled upload of 25 pages whose first twelve calls are waiting
    for their page, then a new upload of 25 pages that starts its own
    first twelve calls. *)
Definition two_uploads_of_25 : Shared :=
  let old := run_from "key" initialApp "old.pdf" 0
               [(1%Z, ArrayBufferDone); (2%Z, DocumentDone 25); (3%Z, Stop)] in
  foldl (step_second "key") (upload_again "new.pdf" 4 old)
        [(5%Z, ArrayBufferDone); (6%Z, DocumentDone 25)].

(** * Properties *)

#[local] Arguments Nat.modulo : simpl never.
#[local] Arguments Nat.div : simpl never.
#[local] Arguments Z.div : simpl never.
#[local] Arguments Z.mul : simpl never.

(** ** Sorting by page number *)

Lemma sort_insert_perm {A} (cmp : A → A → Z) x l :
  sort_insert cmp x l ≡ₚ x :: l.
Proof.
  induction l as [|y l IH]; simpl; [done|].
  destruct (cmp x y <=? 0)%Z; [done|].
  rewrite IH. apply Permutation_swap.
Qed.

Lemma array_sort_perm {A} (cmp : A → A → Z) l : array_sort cmp l ≡ₚ l.
Proof.
  induction l as [|x l IH]; simpl; [done|].
  by rewrite sort_insert_perm, IH.
Qed.

Lemma array_sort_length {A} (cmp : A → A → Z) l :
  length (array_sort cmp l) = length l.
Proof. by rewrite array_sort_perm. Qed.

Lemma sort_insert_sorted x l :
  StronglySorted by_number l →
  StronglySorted by_number (sort_insert compare_pages x l).
Proof.
  induction 1 as [|y l Hl IH Hy]; simpl.
  - repeat constructor.
  - unfold compare_pages at 1.
    destruct (Z.leb_spec (Z.of_nat (pageNumber x) - Z.of_nat (pageNumber y)) 0).
    + constructor; [by constructor|].
      constructor; [unfold by_number; lia|].
      eapply Forall_impl; [exact Hy|]. unfold by_number. intros; lia.
    + constructor; [done|].
      rewrite sort_insert_perm. constructor; [unfold by_number; lia|done].
Qed.

Lemma array_sort_sorted l : StronglySorted by_number (array_sort compare_pages l).
Proof.
  induction l; simpl; [constructor|]. by apply sort_insert_sorted.
Qed.

Lemma array_sort_id l :
  StronglySorted lt (keys l) → array_sort compare_pages l = l.
Proof.
  induction l as [|x l IH]; simpl; [done|].
  intros [Hx Hl]%StronglySorted_cons. rewrite (IH Hl).
  destruct l as [|y l]; simpl; [done|].
  apply Forall_cons in Hx as [Hxy _]. unfold compare_pages.
  destruct (Z.leb_spec (Z.of_nat (pageNumber x) - Z.of_nat (pageNumber y)) 0);
    [done|lia].
Qed.

Lemma sorted_nodup_strict l :
  StronglySorted by_number l → NoDup (keys l) → StronglySorted lt (keys l).
Proof.
  induction 1 as [|x l Hl IH Hx]; simpl; [constructor|].
  intros [Hnin Hnd]%NoDup_cons. constructor; [by apply IH|].
  apply Forall_forall. intros k Hk.
  apply list_elem_of_fmap in Hk as Hk'. destruct Hk' as (y & -> & Hy).
  rewrite Forall_forall in Hx. specialize (Hx y Hy). unfold by_number in Hx.
  assert (pageNumber x ≠ pageNumber y) by (intros E; apply Hnin; by rewrite E).
  lia.
Qed.

Lemma strict_nodup (l : list nat) : StronglySorted lt l → NoDup l.
Proof.
  induction 1 as [|x l Hl IH Hx]; constructor; [|done].
  intros Hin. rewrite Forall_forall in Hx. specialize (Hx x Hin). lia.
Qed.

(** Appending a page with a fresh number and sorting keeps the sequence
    strictly ascending. *)
Lemma sort_snoc_strict l x :
  StronglySorted lt (keys l) → pageNumber x ∉ keys l →
  StronglySorted lt (keys (array_sort compare_pages (l ++ [x]))).
Proof.
  intros Hl Hx. apply sorted_nodup_strict; [apply array_sort_sorted|].
  unfold keys. rewrite array_sort_perm, fmap_app. simpl.
  apply NoDup_app. split; [by apply strict_nodup|].
  split; [|apply NoDup_singleton].
  intros k Hk ->%list_elem_of_singleton. done.
Qed.

(** A strictly ascending sequence of numbers of [1..m] has at most [m]
    entries. *)
Lemma strict_bounded_length (l : list nat) m :
  StronglySorted lt l → Forall (λ k, 1 ≤ k ≤ m) l → length l ≤ m.
Proof.
  intros Hs Hb.
  assert (∀ lo, lo ≤ m → Forall (λ k, lo < k ≤ m) l → lo + length l ≤ m) as G.
  { clear Hb. induction Hs as [|x l Hl IH Hx]; intros lo Hlo Hb; simpl.
    - lia.
    - apply Forall_cons in Hb as [Hxb Hb].
      assert (x + length l ≤ m); [|lia].
      apply IH; [lia|]. rewrite Forall_forall in *. intros k Hk.
      specialize (Hx k Hk). specialize (Hb k Hk). lia. }
  specialize (G 0). simpl in G. apply G; [lia|].
  eapply Forall_impl; [exact Hb|]. simpl. intros; lia.
Qed.

Lemma nodup_bounded_length (l : list nat) m :
  NoDup l → Forall (λ n, 1 ≤ n ≤ m) l → length l ≤ m.
Proof.
  intros Hnd Hb. transitivity (length (seq 1 m)); [|by rewrite length_seq].
  apply submseteq_length, NoDup_submseteq; [done|].
  intros n Hn. rewrite Forall_forall in Hb. specialize (Hb n Hn).
  apply elem_of_seq. lia.
Qed.

Lemma strict_lookup (l : list nat) i j x y :
  StronglySorted lt l → i < j → l !! i = Some x → l !! j = Some y → x < y.
Proof.
  intros Hs. revert i j. induction Hs as [|z l Hl IH Hz]; intros i j Hij Hi Hj.
  - done.
  - destruct j as [|j]; [lia|]. simpl in Hj. destruct i as [|i]; simpl in Hi.
    + simplify_eq. by eapply Forall_lookup_1.
    + eapply (IH i j); [lia|done..].
Qed.

(** ** Rounding *)

Section Doubles.

Local Open Scope Q_scope.

Lemma pow2_pos k : 0 < 2 ^ k.
Proof. by apply Qpower_0_lt. Qed.

Lemma pow2_succ k : 2 ^ (k + 1) == 2 * 2 ^ k.
Proof. rewrite Qpower_plus by done. rewrite Qmult_comm. reflexivity. Qed.

Lemma pow2_le j k : (j <= k)%Z -> 2 ^ j <= 2 ^ k.
Proof. intros H. apply Qpower_le_compat_l; [done|]. by compute. Qed.

Lemma pow2_inject k : (0 <= k)%Z -> inject_Z (2 ^ k) == 2 ^ k.
Proof. intros H. by rewrite Zpower_Qpower. Qed.

(** A quotient of two numbers known up to a factor 2. *)
Lemma ratio_bracket (x A B P L : Q) :
  x * B == A -> L <= B -> B < 2 * L -> P * L <= A -> A < 2 * (P * L) ->
  0 < L -> 0 < P -> P / 2 < x /\ x < 2 * P.
Proof.
  intros HxB HL1 HL2 HA1 HA2 HLp HPp.
  assert (0 < B) by lra.
  split.
  - apply (Qmult_lt_r _ _ B); [done|]. rewrite HxB.
    apply Qlt_le_trans with (P * L); [|done].
    assert (P / 2 * B == P * ((1 # 2) * B)) as -> by field.
    apply Qmult_lt_l; [done|]. lra.
  - apply (Qmult_lt_r _ _ B); [done|]. rewrite HxB.
    apply Qlt_le_trans with (2 * (P * L)); [done|].
    assert (2 * P * B == 2 * (P * B)) as -> by ring.
    apply Qmult_le_l; [lra|]. apply Qmult_le_l; done.
Qed.

Lemma Qlog2_spec x : 0 < x -> 2 ^ Qlog2 x <= x /\ x < 2 ^ (Qlog2 x + 1).
Proof.
  intros Hx. destruct x as [a b]. unfold Qlog2. cbn [Qnum Qden].
  assert (0 < a)%Z as Ha by (unfold Qlt in Hx; simpl in Hx; lia).
  set (la := Z.log2 a). set (lb := Z.log2 (Z.pos b)).
  destruct (Z.log2_spec a Ha) as [Ha1 Ha2]. fold la in Ha1, Ha2.
  destruct (Z.log2_spec (Z.pos b) ltac:(lia)) as [Hb1 Hb2]. fold lb in Hb1, Hb2.
  assert (0 <= la)%Z by apply Z.log2_nonneg.
  assert (0 <= lb)%Z by apply Z.log2_nonneg.
  rewrite Z.pow_succ_r in Ha2, Hb2 by done.
  destruct (ratio_bracket (a # b) (inject_Z a) (inject_Z (Z.pos b))
              (2 ^ (la - lb)) (2 ^ lb)) as [Hlo Hhi].
  - unfold Qeq. simpl. lia.
  - rewrite <-pow2_inject by done. by rewrite <-Zle_Qle.
  - rewrite <-pow2_inject by done.
    change 2 with (inject_Z 2) at 1. rewrite <-inject_Z_mult, <-Zlt_Qlt. done.
  - rewrite <-Qpower_plus by done. replace (la - lb + lb)%Z with la by lia.
    rewrite <-pow2_inject by done. by rewrite <-Zle_Qle.
  - rewrite <-Qpower_plus by done. replace (la - lb + lb)%Z with la by lia.
    rewrite <-pow2_inject by done.
    change 2 with (inject_Z 2) at 1. rewrite <-inject_Z_mult, <-Zlt_Qlt. done.
  - apply pow2_pos.
  - apply pow2_pos.
  - destruct (Qle_bool (2 ^ (la - lb)) (a # b)) eqn:Hle.
    + apply Qle_bool_iff in Hle. split; [done|]. by rewrite pow2_succ.
    + assert (a # b < 2 ^ (la - lb)) as Hlt.
      { apply Qnot_le_lt. intros Hc. apply Qle_bool_iff in Hc. congruence. }
      replace (la - lb - 1 + 1)%Z with (la - lb)%Z by lia. split; [|done].
      apply Qlt_le_weak.
      assert (2 ^ (la - lb) == 2 * 2 ^ (la - lb - 1)) as Heq.
      { rewrite <-pow2_succ. by replace (la - lb - 1 + 1)%Z with (la - lb)%Z by lia. }
      rewrite Heq in Hlo.
      assert (2 * 2 ^ (la - lb - 1) / 2 == 2 ^ (la - lb - 1)) as Hf by field.
      by rewrite Hf in Hlo.
Qed.

Lemma round_half_even_spec x :
  inject_Z (round_half_even x) - (1 # 2) <= x /\
  x <= inject_Z (round_half_even x) + (1 # 2) /\
  (x == inject_Z (round_half_even x) - (1 # 2) \/
   x == inject_Z (round_half_even x) + (1 # 2) ->
   Z.even (round_half_even x) = true).
Proof.
  unfold round_half_even.
  pose proof (Qfloor_le x) as Hlo. pose proof (Qlt_floor x) as Hhi.
  rewrite inject_Z_plus in Hhi. change (inject_Z 1) with 1 in Hhi.
  destruct (Qcompare_spec (x - inject_Z (Qfloor x)) (1 # 2)) as [He|Hl|Hg].
  - destruct (Z.even (Qfloor x)) eqn:Hev.
    + repeat split; try lra. done.
    + rewrite inject_Z_plus. change (inject_Z 1) with 1.
      repeat split; try lra. intros _.
      rewrite Z.even_add, Hev. done.
  - repeat split; lra.
  - rewrite inject_Z_plus. change (inject_Z 1) with 1.
    repeat split; lra.
Qed.

Lemma round_half_even_mono x y :
  x <= y -> (round_half_even x <= round_half_even y)%Z.
Proof.
  intros Hxy.
  destruct (round_half_even_spec x) as (Hx1 & _ & Hxe).
  destruct (round_half_even_spec y) as (_ & Hy2 & Hye).
  destruct (Z_le_gt_dec (round_half_even x) (round_half_even y)) as [|Hgt];
    [done|exfalso].
  assert (inject_Z (round_half_even y) + 1 <= inject_Z (round_half_even x)) as Hq.
  { change 1 with (inject_Z 1). rewrite <-inject_Z_plus, <-Zle_Qle. lia. }
  assert (round_half_even x = round_half_even y + 1)%Z as Heq.
  { apply Z.le_antisymm; [|lia]. rewrite Zle_Qle, inject_Z_plus.
    change (inject_Z 1) with 1. lra. }
  rewrite Heq in Hx1, Hxe. rewrite inject_Z_plus in Hx1, Hxe.
  change (inject_Z 1) with 1 in Hx1, Hxe.
  assert (Z.even (round_half_even y + 1) = true) as E1 by (apply Hxe; left; lra).
  assert (Z.even (round_half_even y) = true) as E2 by (apply Hye; right; lra).
  rewrite Z.even_add, E2 in E1. done.
Qed.

Lemma round_half_even_Z z : round_half_even (inject_Z z) = z.
Proof.
  destruct (round_half_even_spec (inject_Z z)) as (H1 & H2 & _).
  apply Z.le_antisymm.
  - apply Z.lt_succ_r. rewrite Zlt_Qlt. unfold Z.succ. rewrite inject_Z_plus.
    change (inject_Z 1) with 1. lra.
  - apply Z.lt_succ_r. rewrite Zlt_Qlt. unfold Z.succ. rewrite inject_Z_plus.
    change (inject_Z 1) with 1. lra.
Qed.

Lemma Qlog2_mono x y : 0 < x -> x <= y -> (Qlog2 x <= Qlog2 y)%Z.
Proof.
  intros Hx Hxy.
  destruct (Qlog2_spec x Hx) as [Hx1 _].
  destruct (Qlog2_spec y ltac:(lra)) as [_ Hy2].
  destruct (Z_le_gt_dec (Qlog2 x) (Qlog2 y)) as [|Hgt]; [done|exfalso].
  pose proof (pow2_le (Qlog2 y + 1) (Qlog2 x) ltac:(lia)). lra.
Qed.

Lemma to_double_pos x :
  0 < x ->
  to_double x ==
    inject_Z (round_half_even (x / 2 ^ (Qlog2 x - 52))) * 2 ^ (Qlog2 x - 52).
Proof.
  intros Hx. unfold to_double.
  destruct (Qle_bool x 0) eqn:Hle; [|reflexivity].
  apply Qle_bool_iff in Hle. lra.
Qed.

Lemma to_double_bounds x :
  0 < x -> 2 ^ Qlog2 x <= to_double x /\ to_double x <= 2 ^ (Qlog2 x + 1).
Proof.
  intros Hx. rewrite (to_double_pos x Hx).
  destruct (Qlog2_spec x Hx) as [H1 H2].
  set (e := Qlog2 x) in *. set (u := 2 ^ (e - 52)).
  assert (0 < u) as Hu by apply pow2_pos.
  assert (inject_Z (2 ^ 52) * u == 2 ^ e) as E52.
  { rewrite pow2_inject by done. unfold u. rewrite <-Qpower_plus by done.
    by replace (52 + (e - 52))%Z with e by lia. }
  assert (inject_Z (2 ^ 53) * u == 2 ^ (e + 1)) as E53.
  { rewrite pow2_inject by done. unfold u. rewrite <-Qpower_plus by done.
    by replace (53 + (e - 52))%Z with (e + 1)%Z by lia. }
  assert (2 ^ 52 <= round_half_even (x / u) <= 2 ^ 53)%Z as [Hm1 Hm2].
  { split.
    - rewrite <-(round_half_even_Z (2 ^ 52)) at 1.
      apply round_half_even_mono, Qle_shift_div_l; [done|]. by rewrite E52.
    - rewrite <-(round_half_even_Z (2 ^ 53)) at 1.
      apply round_half_even_mono, Qle_shift_div_r; [done|]. rewrite E53. lra. }
  rewrite Zle_Qle in Hm1, Hm2. split.
  - rewrite <-E52. by apply Qmult_le_compat_r; [|lra].
  - rewrite <-E53. by apply Qmult_le_compat_r; [|lra].
Qed.

(** [to_double x] is a double nearest to [x]: a multiple of the spacing
    [2^(e-52)], at most half a spacing away. *)
Lemma to_double_nearest x :
  0 < x ->
  to_double x - 2 ^ (Qlog2 x - 52) * (1 # 2) <= x /\
  x <= to_double x + 2 ^ (Qlog2 x - 52) * (1 # 2).
Proof.
  intros Hx. rewrite (to_double_pos x Hx).
  set (u := 2 ^ (Qlog2 x - 52)).
  assert (0 < u) as Hu by apply pow2_pos.
  destruct (round_half_even_spec (x / u)) as (H1 & H2 & _).
  assert (x == x / u * u) as Hxu by (field; lra).
  apply (Qmult_le_compat_r _ _ u) in H1, H2; lra.
Qed.

Lemma to_double_nonneg x : 0 <= to_double x.
Proof.
  destruct (Qlt_le_dec 0 x) as [Hx|Hx].
  - destruct (to_double_bounds x Hx) as [H _].
    pose proof (pow2_pos (Qlog2 x)). lra.
  - unfold to_double. apply Qle_bool_iff in Hx. rewrite Hx. lra.
Qed.

Lemma to_double_mono x y : x <= y -> to_double x <= to_double y.
Proof.
  intros Hxy. destruct (Qlt_le_dec 0 x) as [Hx|Hx].
  - assert (0 < y) as Hy by lra.
    pose proof (Qlog2_mono x y Hx Hxy) as He.
    destruct (Z.eq_dec (Qlog2 x) (Qlog2 y)) as [Heq|Hne].
    + rewrite (to_double_pos x Hx), (to_double_pos y Hy), Heq.
      assert (0 < 2 ^ (Qlog2 y - 52)) as Hu by apply pow2_pos.
      apply Qmult_le_compat_r; [|lra].
      rewrite <-Zle_Qle. apply round_half_even_mono.
      apply Qmult_le_compat_r; [done|]. apply Qlt_le_weak, Qinv_lt_0_compat, Hu.
    + destruct (to_double_bounds x Hx) as [_ H1].
      destruct (to_double_bounds y Hy) as [H2 _].
      pose proof (pow2_le (Qlog2 x + 1) (Qlog2 y) ltac:(lia)). lra.
  - unfold to_double at 1. apply Qle_bool_iff in Hx. rewrite Hx.
    apply to_double_nonneg.
Qed.

Lemma to_double_eq x y : x == y -> to_double x == to_double y.
Proof.
  intros H. apply Qle_antisym; apply to_double_mono; rewrite H; apply Qle_refl.
Qed.

Lemma Math_round_mono x y : x <= y -> (Math_round x <= Math_round y)%Z.
Proof. intros H. apply Qfloor_resp_le. lra. Qed.

Lemma round_percent_mono n m total :
  (n ≤ m)%nat → (round_percent n total ≤ round_percent m total)%Z.
Proof.
  intros H. unfold round_percent.
  apply Math_round_mono, to_double_mono.
  apply Qmult_le_compat_r; [|done]. apply to_double_mono.
  apply Qmult_le_compat_r.
  - rewrite <-Zle_Qle. lia.
  - destruct total as [|t]; [done|]. apply Qlt_le_weak, Qinv_lt_0_compat.
    by rewrite <-(Zlt_Qlt 0).
Qed.

Lemma round_percent_of_ratio n total x :
  inject_Z (Z.of_nat n) / inject_Z (Z.of_nat total) == x →
  round_percent n total = Math_round (to_double (to_double x * 100)).
Proof.
  intros H. unfold round_percent, Math_round.
  apply Qfloor_comp. apply Qplus_comp; [|reflexivity].
  apply to_double_eq. apply Qmult_comp; [|reflexivity]. by apply to_double_eq.
Qed.

Lemma round_percent_zero total : round_percent 0 total = 0%Z.
Proof.
  rewrite (round_percent_of_ratio 0 total 0); [by vm_compute|].
  unfold Qdiv. ring.
Qed.

Lemma round_percent_no_total n : round_percent n 0 = 0%Z.
Proof.
  rewrite (round_percent_of_ratio n 0 0); [by vm_compute|].
  unfold Qdiv. change (/ inject_Z (Z.of_nat 0)) with 0. ring.
Qed.

Lemma round_percent_full total :
  (0 < total)%nat → round_percent total total = 100%Z.
Proof.
  intros H. rewrite (round_percent_of_ratio total total 1); [by vm_compute|].
  apply Qmult_inv_r. intros Hc.
  unfold Qeq in Hc. simpl in Hc. lia.
Qed.

Lemma round_percent_le_100 n total :
  (n ≤ total)%nat → (0 ≤ round_percent n total ≤ 100)%Z.
Proof.
  intros H. split.
  - rewrite <-(round_percent_zero total). apply round_percent_mono. lia.
  - destruct total as [|t].
    + by rewrite round_percent_no_total.
    + rewrite <-(round_percent_full (S t)) by lia. by apply round_percent_mono.
Qed.

Lemma round_percent_lt_100 n total :
  (n < total)%nat → (total < 200)%nat → (round_percent n total < 100)%Z.
Proof.
  intros Hn Ht.
  apply Z.le_lt_trans
    with (Math_round (to_double (to_double (198 # 199) * 100)));
    [|by vm_compute].
  unfold round_percent.
  apply Math_round_mono, to_double_mono.
  apply Qmult_le_compat_r; [|done]. apply to_double_mono.
  apply Qle_shift_div_r; [rewrite <-(Zlt_Qlt 0); lia|].
  unfold Qle, Qmult. simpl. lia.
Qed.

End Doubles.

#[local] Arguments round_percent : simpl never.

(** ** The pages held by resolved calls *)

Lemma omap_page_of_lookup (ts : list Task) p :
  p ∈ omap page_of ts ↔ ∃ k, ts !! k = Some (Resolved (Some p)).
Proof.
  rewrite list_elem_of_omap. split.
  - intros (t & Ht & Hp). apply list_elem_of_lookup in Ht as [k Hk].
    exists k. destruct t; simpl in Hp; try done. by subst.
  - intros [k Hk]. exists (Resolved (Some p)). split; [|done].
    by eapply list_elem_of_lookup_2.
Qed.

Lemma omap_page_of_keys (ts : list Task) off :
  (∀ k p, ts !! k = Some (Resolved (Some p)) → pageNumber p = S (off + k)) →
  StronglySorted lt (keys (omap page_of ts)) ∧
  Forall (λ n, off < n ≤ off + length ts) (keys (omap page_of ts)).
Proof.
  revert off. induction ts as [|t ts IH]; intros off H; simpl.
  - split; constructor.
  - destruct (IH (S off)) as [IH1 IH2].
    { intros k p Hk. rewrite (H (S k) p Hk). lia. }
    assert (Forall (λ n, off < n ≤ off + S (length ts)) (keys (omap page_of ts))).
    { eapply Forall_impl; [exact IH2|]. simpl. intros; lia. }
    destruct (page_of t) as [p|] eqn:Hp; simpl; [|done].
    assert (pageNumber p = S off) as Hn.
    { destruct t; simpl in Hp; try done. subst.
      rewrite (H 0 p eq_refl). lia. }
    split.
    + constructor; [done|]. eapply Forall_impl; [exact IH2|]. simpl. intros; lia.
    + constructor; [lia|done].
Qed.


Lemma length_pageNumbers total : length (pageNumbers total) = total.
Proof. unfold pageNumbers. by rewrite length_map, length_seq. Qed.

Lemma length_slice {A} (l : list A) i j :
  length (slice l i j) = (j - i) `min` (length l - i).
Proof. unfold slice. by rewrite length_take, length_drop. Qed.

Lemma forallb_resolved (ts : list Task) :
  forallb is_resolved ts = true ↔ Forall resolved ts.
Proof.
  unfold resolved. induction ts as [|t ts IH]; simpl.
  - split; [constructor|done].
  - rewrite andb_true_iff, Forall_cons, IH. done.
Qed.

Lemma forallb_false_Exists {A} (f : A → bool) l :
  forallb f l = false → Exists (λ x, f x = false) l.
Proof.
  induction l as [|x l IH]; simpl; [done|].
  destruct (f x) eqn:Hx; simpl; [|by left]. intros H. right. by apply IH.
Qed.

(** ** What a resumed call can do *)

Lemma resume_facts key f n now t ev t' pub :
  processPage_resume key f n now t ev = Some (t', pub) →
  (is_resolved t = false ∧ ¬ rejected t) ∧
  (∀ p, t' = Resolved (Some p) → pageNumber p = n) ∧
  (∀ p, pub = Some p → t' = Resolved (Some p) ∧ f = false).
Proof.
  unfold processPage_resume. intros H.
  assert (∀ i z, ¬ rejected (AwaitOCR i z)) by (by intros ?? [? ?]).
  assert (¬ rejected AwaitGetPage) by (by intros [? ?]).
  assert (¬ rejected AwaitRender) by (by intros [? ?]).
  destruct t, ev; try done; simpl.
  - destruct context; simplify_eq; done.
  - simplify_eq; done.
  - destruct f; simplify_eq; done.
  - simplify_eq; done.
  - destruct (performOCR key reply).1; simplify_eq; [|done].
    split; [done|]. split.
    + by intros p [= <-].
    + intros p Hp. destruct f; simplify_eq. done.
Qed.

Lemma resume_clean key n now t ev t' pub :
  processPage_resume key false n now t ev = Some (t', pub) →
  ev ≠ GetPageDone false → t' ≠ Resolved None.
Proof.
  unfold processPage_resume. intros H Hev.
  destruct t, ev; try done; simplify_eq; try done.
  - destruct context; simplify_eq; done.
  - destruct (performOCR key reply).1; simplify_eq; done.
Qed.

Lemma resume_rejected_fails key f n now t ev err pub :
  processPage_resume key f n now t ev = Some (Rejected err, pub) →
  fails key (TaskEv n ev) = true ∧ pub = None.
Proof.
  unfold processPage_resume, fails. intros H.
  destruct t, ev; try done; simplify_eq; try done.
  - destruct context; simplify_eq.
  - destruct f; simplify_eq.
  - destruct (performOCR key reply).1; simplify_eq. done.
Qed.

(** ** The invariant holds initially and is kept by every step *)

(** Outside Processing and Idle the handler has returned. *)
Lemma inv_returned s :
  Inv s → ¬ live (status (doc s)) → phase (run s) = Returned.
Proof.
  intros [_ _ _ H _] Hnl.
  destruct (phase (run s)); try done; by destruct H as (_&_&_&_&?).
Qed.

Lemma inv_completed s :
  Inv s → status (doc s) = completed →
  Forall resolved (tasks (run s)) ∧
  length (tasks (run s)) = totalPages (run s) ∧
  results (run s) = omap page_of (tasks (run s)) ∧
  pages (doc s) = results (run s) ∧
  fullText (doc s) = String.concat SEP (map extractedText (pages (doc s))).
Proof.
  intros HI Hc.
  assert (phase (run s) = Returned) as Hph.
  { apply inv_returned; [done|]. rewrite Hc. intros [?|?]; done. }
  destruct HI as [_ _ _ H _]. by rewrite Hph, Hc in H.
Qed.

Lemma unresolved_not_completed s k t :
  Inv s → tasks (run s) !! k = Some t → is_resolved t = false →
  status (doc s) ≠ completed.
Proof.
  intros HI Hk Hun Hc. destruct (inv_completed s HI Hc) as [Hall _].
  rewrite Forall_lookup in Hall. specialize (Hall k t Hk).
  unfold resolved in Hall. congruence.
Qed.

Lemma inv_start a name now : Inv (start a name now).
Proof.
  split; [split|..]; simpl.
  - constructor.
  - intros p Hp. by apply elem_of_nil in Hp.
  - done.
  - done.
  - done.
  - done.
  - done.
  - constructor.
  - lia.
  - repeat split; try done. by left.
  - done.
Qed.

Lemma docinv_pages_bound s :
  DocInv s → length (pages (doc s)) ≤ length (tasks (run s)).
Proof.
  intros [Hs Hp Ht _ _ _ _].
  rewrite <-(length_map pageNumber). apply strict_bounded_length; [done|].
  apply Forall_forall. intros n Hn.
  apply list_elem_of_fmap in Hn as (p & -> & Hin).
  destruct (Hp p Hin) as [k Hk]. rewrite (Ht k p Hk).
  apply lookup_lt_Some in Hk. lia.
Qed.

Lemma inv_progress_range s :
  DocInv s → (0 ≤ progress (doc s) ≤ 100)%Z.
Proof.
  intros H. pose proof (docinv_pages_bound s H) as Hb.
  destruct H as [_ _ _ Ht _ _ Hp]. rewrite Hp.
  destruct (isTerminated (app s)); [lia|].
  destruct (status (doc s)); try lia; apply round_percent_le_100; lia.
Qed.

Lemma inv_handle_catch err s :
  Inv s → live (status (doc s)) →
  tasks (run s) = [] ∨ Exists rejected (tasks (run s)) →
  Inv (handle_catch err s).
Proof.
  intros [[H1 H2 H3 H4 H5 H6 H7] H8 H9 H10 H11] Hl Hrej.
  destruct s as [[d e f] [T t0 rs i ph ts]]. simpl in *.
  assert (status d ≠ completed) by (destruct Hl; congruence).
  split; [split|..]; simpl; try done.
  - destruct f; [by right|done].
  - intros _. by apply H6.
  - rewrite H7. destruct f; [done|]. by destruct (status d).
Qed.

Lemma inv_stop s :
  Inv s → status (doc s) = processing →
  Inv (mkSys (stopExtraction (app s)) (run s)).
Proof.
  intros [[H1 H2 H3 H4 H5 H6 H7] H8 H9 H10 H11] Hp.
  destruct s as [[d e f] [T t0 rs i ph ts]]. simpl in *.
  split; [split|..]; simpl; try done.
  - by left.
  - intros _. apply H6. by rewrite Hp.
  - rewrite Hp in H10.
    destruct ph; try done; destruct H10 as (?&?&?&?&?); repeat split; try done;
      by right.
Qed.

Lemma inv_after_loop now i s :
  LoopPre i s →
  totalPages (run s) ≤ i ∨ isTerminated (app s) = true →
  Inv (after_loop now (mkSys (app s) (with_loop_i i (run s)))).
Proof.
  intros [[H1 H2 H3 H4 H5 H6 H7] Ha Hr Hn Hm Hl] Hend.
  destruct s as [[d e f] [T t0 rs i0 ph ts]]. unfold after_loop in *.
  simpl in *. destruct f.
  - (* terminated: plain return *)
    split; [split|..]; simpl; try done.
    + by apply Forall_take.
    + lia.
    + destruct H5 as [->|E]; [done|]. destruct Hl; congruence.
    + intros E. destruct Hl; congruence.
  - (* completion *)
    destruct Hend as [Hend|?]; [|done].
    destruct (omap_page_of_keys ts 0 H3) as [Hk _]. rewrite <-Hr in Hk.
    rewrite (array_sort_id rs Hk).
    split; [split|..]; simpl; try done.
    + intros p Hp. apply omap_page_of_lookup. by rewrite <-Hr.
    + by apply Forall_take.
    + lia.
    + repeat split; try done. lia.
Qed.

Lemma inv_loop_at now i s : LoopPre i s → Inv (loop_at now i s).
Proof.
  intros Hpre. unfold loop_at. simpl.
  rewrite length_pageNumbers.
  destruct (Nat.ltb_spec i (totalPages (run s))) as [Hlt|Hge];
    [|apply inv_after_loop; auto].
  destruct (isTerminated (app s)) eqn:Hf; [apply inv_after_loop; auto|].
  destruct Hpre as [[H1 H2 H3 H4 H5 H6 H7] Ha Hr Hn Hm Hl].
  destruct s as [[d e f] [T t0 rs i0 ph ts]]. simpl in *.
  subst f.
  assert (length ts = i) as Hlen by lia.
  set (calls := map (processPage_begin false) _).
  assert (length calls = concurrencyLimit `min` (T - i)) as Hcalls.
  { unfold calls. rewrite length_map, length_slice, length_pageNumbers. lia. }
  assert (∀ k p, (ts ++ calls) !! k = Some (Resolved (Some p)) →
                 ts !! k = Some (Resolved (Some p))) as Hold.
  { intros k p Hk. apply lookup_app_Some in Hk as [Hk|[_ Hk]]; [done|].
    unfold calls in Hk. rewrite list_lookup_fmap in Hk.
    destruct (slice _ _ _ !! _); simpl in Hk; done. }
  split; [split|..]; simpl; try done.
  - intros p Hp. destruct (H2 p Hp) as [k Hk]. exists k.
    by apply lookup_app_l_Some.
  - intros k p Hk. apply H3. by apply Hold.
  - rewrite length_app. lia.
  - rewrite take_app_length'; done.
  - rewrite length_app. lia.
  - repeat split; try done.
    + rewrite length_app. unfold concurrencyLimit in *. lia.
    + by rewrite take_app_length'.
  - intros E. destruct Hl; congruence.
Qed.

Lemma inv_advance_task key s k t now ev t' pub :
  Inv s → tasks (run s) !! k = Some t →
  processPage_resume key (isTerminated (app s)) (S k) now t ev = Some (t', pub) →
  Inv (advance_task k t' pub s).
Proof.
  intros HI Hk Hres.
  apply resume_facts in Hres as ((Hun & Hnr) & Hnum & Hpub).
  pose proof (unresolved_not_completed s k t HI Hk Hun) as Hnc.
  destruct HI as [[H1 H2 H3 H4 H5 H6 H7] H8 H9 H10 H11].
  destruct s as [[d e f] [T t0 rs i ph ts]].
  unfold advance_task in *. simpl in *.
  assert (k < length ts) as Hklen by by eapply lookup_lt_Some.
  assert (i ≤ k) as Hik.
  { destruct (decide (i ≤ k)); [done|]. exfalso.
    rewrite Forall_lookup in H8. specialize (H8 k t).
    rewrite lookup_take_lt in H8 by lia. specialize (H8 Hk).
    unfold resolved in H8. congruence. }
  assert (¬ Forall resolved ts) as Hnall.
  { intros Hall. rewrite Forall_lookup in Hall. specialize (Hall k t Hk).
    unfold resolved in Hall. congruence. }
  assert (∀ k' p, ts !! k' = Some (Resolved (Some p)) →
                  <[k:=t']> ts !! k' = Some (Resolved (Some p))) as Hkeep.
  { intros k' p Hk'. rewrite list_lookup_insert_ne; [done|].
    intros ->. rewrite Hk in Hk'. by simplify_eq. }
  assert (DocInv (mkSys (mkApp d e f) (mkRun T t0 rs i ph (<[k:=t']> ts)))) as Hplain.
  { split; simpl; try done.
    - intros p Hp. destruct (H2 p Hp) as [k' Hk']. eauto.
    - intros k' p Hk'. destruct (decide (k' = k)) as [->|Hne].
      + rewrite list_lookup_insert_eq in Hk' by done. simplify_eq. by apply Hnum.
      + rewrite list_lookup_insert_ne in Hk' by done. by apply H3.
    - by rewrite length_insert. }
  split; simpl.
  - destruct pub as [p|]; [|done].
    destruct (Hpub p eq_refl) as [-> ->].
    destruct Hplain as [_ _ G3 G4 _ _ _]. simpl in *.
    split; simpl; try done.
    + apply sort_snoc_strict; [done|]. intros Hin.
      apply list_elem_of_fmap in Hin as (q & Hq & Hin).
      destruct (H2 q Hin) as [k' Hk'].
      pose proof (H3 k' q Hk') as Hqk. rewrite (Hnum p eq_refl) in Hq.
      assert (k' = k) as -> by lia. rewrite Hk in Hk'. by simplify_eq.
    + intros q Hq. rewrite array_sort_perm in Hq.
      apply elem_of_app in Hq as [Hq|Hq%list_elem_of_singleton].
      * destruct (H2 q Hq) as [k' Hk']. eauto.
      * subst q. exists k. by apply list_lookup_insert_eq.
    + by destruct (status d).
  - by rewrite take_insert_ge.
  - by rewrite length_insert.
  - rewrite length_insert, take_insert_ge by done.
    assert (status (docState (match pub with
       | Some newPage => setDocState (add_page T newPage) (mkApp d e f)
       | None => mkApp d e f end)) = status d) as -> by by destruct pub.
    destruct ph; try done.
    + destruct H10 as (-> & _). done.
    + destruct H10 as (-> & _). done.
    + destruct (status d); try done.
  - assert (status (docState (match pub with
       | Some newPage => setDocState (add_page T newPage) (mkApp d e f)
       | None => mkApp d e f end)) = status d) as -> by by destruct pub.
    intros E. destruct (H11 E) as [->|Hex]; [done|]. right.
    apply Exists_exists in Hex as (r & Hin & Hr).
    apply list_elem_of_lookup in Hin as [k' Hk'].
    apply Exists_exists. exists r. split; [|done].
    apply list_elem_of_lookup. exists k'.
    rewrite list_lookup_insert_ne; [done|]. intros ->.
    rewrite Hk in Hk'. by simplify_eq.
Qed.

Lemma looppre_push s :
  Inv s → phase (run s) = AwaitBatch →
  Forall resolved (drop (loop_i (run s)) (tasks (run s))) →
  LoopPre (loop_i (run s) + concurrencyLimit)
    (mkSys (app s)
       (with_results
          (results (run s) ++ omap page_of (drop (loop_i (run s)) (tasks (run s))))
          (run s))).
Proof.
  intros [[H1 H2 H3 H4 H5 H6 H7] H8 H9 H10 H11] Hph Hall.
  destruct s as [[d e f] [T t0 rs i ph ts]]. simpl in *. subst ph.
  destruct H10 as (Hi & Hlen & Hmod & Hrs & Hl).
  split; simpl; try done.
  - rewrite <-(take_drop i ts). by apply Forall_app.
  - rewrite Hrs, <-omap_app. by rewrite take_drop.
  - rewrite <-Nat.Div0.add_mod_idemp_l, Hmod. done.
Qed.

Lemma inv_promise_all now t' s :
  Inv s → (rejected t' → Exists rejected (tasks (run s))) →
  Inv (promise_all now t' s).
Proof.
  intros HI Hrej. unfold promise_all.
  destruct (phase (run s)) eqn:Hph; try done.
  assert (live (status (doc s))) as Hl.
  { destruct HI as [_ _ _ H _]. rewrite Hph in H. by destruct H as (?&?&?&?&?). }
  assert (Inv (if forallb is_resolved (drop (loop_i (run s)) (tasks (run s)))
               then loop_at now (loop_i (run s) + concurrencyLimit)
                      (mkSys (app s)
                         (with_results
                            (results (run s) ++
                             omap page_of (drop (loop_i (run s)) (tasks (run s))))
                            (run s)))
               else s)) as G.
  { destruct (forallb is_resolved _) eqn:Hall; [|done].
    apply inv_loop_at, looppre_push; try done.
    by apply forallb_resolved. }
  destruct t'; try done. apply inv_handle_catch; [done..|].
  right. apply Hrej. by eexists.
Qed.

Section Invariant.

Variable API_KEY : string.

Lemma inv_step s ne : Inv s → Inv (step API_KEY s ne).
Proof.
  intros HI. destruct ne as [now e]. unfold step. simpl.
  assert (phase (run s) ≠ Returned → live (status (doc s))) as Hlive.
  { destruct HI as [_ _ _ H _]. destruct (phase (run s)); try done;
      by destruct H as (?&?&?&?&?). }
  destruct e as [| |err|n|err|n ev].
  - destruct (status (doc s)) eqn:Hs; try done. by apply inv_stop.
  - destruct (phase (run s)) eqn:Hph; try done.
    destruct HI as [[H1 H2 H3 H4 H5 H6 H7] H8 H9 H10 H11].
    destruct s as [[d e f] [T t0 rs i ph ts]]. simpl in *. subst ph.
    split; [split|..]; done.
  - destruct (phase (run s)) eqn:Hph; try done.
    apply inv_handle_catch; [done|by apply Hlive|].
    destruct HI as [_ _ _ H _]. rewrite Hph in H. left. by destruct H.
  - destruct (phase (run s)) eqn:Hph; try done.
    apply inv_loop_at.
    destruct HI as [[H1 H2 H3 H4 H5 H6 H7] H8 H9 H10 H11].
    destruct s as [[d e f] [T t0 rs i ph ts]]. simpl in *. subst ph.
    destruct H10 as (-> & -> & -> & -> & Hl).
    assert (pages d = []) as Hnil.
    { destruct (pages d) as [|p ps]; [done|].
      destruct (H2 p) as [k Hk]; [by left|]. done. }
    split; [split|..]; simpl; try done.
    + lia.
    + rewrite H7, Hnil. simpl.
      destruct f; [done|]. rewrite !round_percent_zero.
      destruct Hl as [->| ->]; done.
  - destruct (phase (run s)) eqn:Hph; try done.
    apply inv_handle_catch; [done|by apply Hlive|].
    destruct HI as [_ _ _ H _]. rewrite Hph in H. left. by destruct H.
  - destruct n as [|k]; [done|].
    destruct (tasks (run s) !! k) as [t|] eqn:Hk; [|done].
    destruct (processPage_resume _ _ _ _ _ _) as [[t' pub]|] eqn:Hres; [|done].
    apply inv_promise_all; [by eapply inv_advance_task|].
    intros Hr. simpl. apply Exists_exists. exists t'. split; [|done].
    apply list_elem_of_lookup. exists k.
    apply list_lookup_insert_eq. by eapply lookup_lt_Some.
Qed.

Lemma inv_exec s evs : Inv s → Inv (exec API_KEY s evs).
Proof.
  revert s. induction evs as [|ne evs IH]; intros s HI; simpl; [done|].
  apply IH. by apply inv_step.
Qed.

Lemma inv_run a name now evs : Inv (run_from API_KEY a name now evs).
Proof. apply inv_exec, inv_start. Qed.

End Invariant.

(** ** What a step leaves alone *)

Lemma after_loop_frame now s :
  isTerminated (app (after_loop now s)) = isTerminated (app s) ∧
  tasks (run (after_loop now s)) = tasks (run s) ∧
  totalPages (run (after_loop now s)) = totalPages (run s).
Proof. destruct s as [[d e []] r]; done. Qed.

Lemma after_loop_phase now s : phase (run (after_loop now s)) = Returned.
Proof. destruct s as [[d e []] r]; done. Qed.

Lemma after_loop_tasks now s :
  tasks (run (after_loop now s)) = tasks (run s).
Proof. destruct s as [[d e []] r]; done. Qed.

(** The loop only ever adds calls, and the calls it adds are fresh. *)
Lemma loop_at_frame now i s :
  isTerminated (app (loop_at now i s)) = isTerminated (app s) ∧
  (∃ calls, tasks (run (loop_at now i s)) = tasks (run s) ++ calls ∧
            Forall (λ t, t = AwaitGetPage) calls) ∧
  totalPages (run (loop_at now i s)) = totalPages (run s).
Proof.
  unfold loop_at. simpl.
  destruct (_ <? _).
  - destruct (isTerminated (app s)) eqn:Hf.
    + destruct (after_loop_frame now (mkSys (app s) (with_loop_i i (run s))))
        as (-> & -> & ->). simpl.
      repeat split; [done|]. exists []. by rewrite app_nil_r.
    + simpl. repeat split; [done|]. eexists. split; [done|].
      apply Forall_fmap, Forall_true. done.
  - destruct (after_loop_frame now (mkSys (app s) (with_loop_i i (run s))))
      as (-> & -> & ->). simpl.
    repeat split. exists []. by rewrite app_nil_r.
Qed.

Lemma promise_all_frame now t' s :
  isTerminated (app (promise_all now t' s)) = isTerminated (app s) ∧
  (∃ calls, tasks (run (promise_all now t' s)) = tasks (run s) ++ calls ∧
            Forall (λ t, t = AwaitGetPage) calls) ∧
  totalPages (run (promise_all now t' s)) = totalPages (run s).
Proof.
  assert (isTerminated (app s) = isTerminated (app s) ∧
          (∃ calls, tasks (run s) = tasks (run s) ++ calls ∧
                    Forall (λ t, t = AwaitGetPage) calls) ∧
          totalPages (run s) = totalPages (run s)) as Hsame.
  { repeat split. exists []. by rewrite app_nil_r. }
  unfold promise_all. destruct (phase (run s)); try done.
  destruct (forallb _ _) eqn:Hall.
  - destruct t'; try done;
      exact (loop_at_frame now _ (mkSys (app s) (with_results _ (run s)))).
  - destruct t'; done.
Qed.

Lemma after_loop_progress now s :
  progress (doc (after_loop now s)) = progress (doc s) ∨
  progress (doc (after_loop now s)) = 100%Z.
Proof. destruct s as [[d e []] r]; [by left|by right]. Qed.

Lemma loop_at_progress now i s :
  progress (doc (loop_at now i s)) = progress (doc s) ∨
  progress (doc (loop_at now i s)) = 100%Z.
Proof.
  unfold loop_at. simpl. destruct (_ <? _).
  - destruct (isTerminated (app s)); [|by left].
    apply (after_loop_progress now (mkSys (app s) (with_loop_i i (run s)))).
  - apply (after_loop_progress now (mkSys (app s) (with_loop_i i (run s)))).
Qed.

Lemma promise_all_progress now t' s :
  progress (doc (promise_all now t' s)) = progress (doc s) ∨
  progress (doc (promise_all now t' s)) = 100%Z.
Proof.
  unfold promise_all. destruct (phase (run s)); try by left.
  destruct (forallb _ _).
  - destruct t'; try (by left);
      exact (loop_at_progress now _ (mkSys (app s) (with_results _ (run s)))).
  - destruct t'; by left.
Qed.

Lemma after_loop_terminated now s :
  isTerminated (app s) = true → app (after_loop now s) = app s.
Proof. destruct s as [[d e []] r]; done. Qed.

Lemma loop_at_terminated now i s :
  isTerminated (app s) = true → app (loop_at now i s) = app s.
Proof.
  intros Hf. unfold loop_at. simpl. rewrite Hf.
  destruct (_ <? _);
    exact (after_loop_terminated now (mkSys (app s) (with_loop_i i (run s))) Hf).
Qed.

Lemma promise_all_terminated now t' s :
  isTerminated (app s) = true → ¬ rejected t' →
  app (promise_all now t' s) = app s.
Proof.
  intros Hf Hr. unfold promise_all. destruct (phase (run s)); try done.
  destruct t'; try (by destruct Hr; eexists);
    (destruct (forallb _ _); [|done]);
    exact (loop_at_terminated now _ (mkSys (app s) (with_results _ (run s))) Hf).
Qed.

(** The loop either makes no call, or makes the calls of the slice at
    [i] and suspends. *)
Lemma loop_at_dispatch now i s :
  tasks (run (loop_at now i s)) = tasks (run s) ∨
  (phase (run (loop_at now i s)) = AwaitBatch ∧
   loop_i (run (loop_at now i s)) = i ∧
   ∃ calls, tasks (run (loop_at now i s)) = tasks (run s) ++ calls ∧
            Forall (λ t, t = AwaitGetPage) calls).
Proof.
  unfold loop_at. simpl. destruct (_ <? _).
  - destruct (isTerminated (app s)) eqn:Hf.
    + left. by rewrite after_loop_tasks.
    + right. simpl. repeat split. eexists. split; [done|].
      apply Forall_fmap, Forall_true. done.
  - left. by rewrite after_loop_tasks.
Qed.

(** ** While a batch is awaited, one of its calls is still unresolved *)

Lemma pending_loop_at now i s : Pending (loop_at now i s).
Proof.
  unfold Pending, loop_at. simpl. rewrite length_pageNumbers.
  destruct (Nat.ltb_spec i (totalPages (run s))) as [Hlt|Hge].
  - destruct (isTerminated (app s)).
    + by rewrite after_loop_phase.
    + simpl. intros _. apply Exists_app. right.
      destruct (slice _ _ _) as [|n l] eqn:Hs.
      * apply (f_equal length) in Hs.
        rewrite length_slice, length_pageNumbers in Hs.
        unfold concurrencyLimit in Hs. simpl in Hs. lia.
      * by left.
  - by rewrite after_loop_phase.
Qed.

Lemma pending_promise_all now t' s : Pending (promise_all now t' s).
Proof.
  unfold promise_all. destruct (phase (run s)) eqn:Hph;
    try (unfold Pending; congruence).
  assert (Pending
    (if forallb is_resolved (drop (loop_i (run s)) (tasks (run s)))
     then loop_at now (loop_i (run s) + concurrencyLimit)
            (mkSys (app s)
               (with_results
                  (results (run s) ++
                   omap page_of (drop (loop_i (run s)) (tasks (run s))))
                  (run s)))
     else s)) as G.
  { destruct (forallb _ _) eqn:Hall; [apply pending_loop_at|].
    intros _. rewrite <-(take_drop (loop_i (run s)) (tasks (run s))).
    apply Exists_app. right. by apply forallb_false_Exists. }
  destruct t'; done.
Qed.

Section Progress.

Variable API_KEY : string.

Lemma pending_step s ne : Pending s → Pending (step API_KEY s ne).
Proof.
  intros HP. destruct ne as [now e]. unfold step. simpl.
  destruct e as [| |err|n|err|n ev].
  - by destruct (status (doc s)).
  - destruct (phase (run s)) eqn:Hph; try done.
  - destruct (phase (run s)) eqn:Hph; try done.
  - destruct (phase (run s)) eqn:Hph; try done. apply pending_loop_at.
  - destruct (phase (run s)) eqn:Hph; try done.
  - destruct n as [|k]; [done|].
    destruct (tasks (run s) !! k) as [t|] eqn:Hk; [|done].
    destruct (processPage_resume _ _ _ _ _ _) as [[t' pub]|] eqn:Hres; [|done].
    apply pending_promise_all.
Qed.

Lemma pending_run a name now evs : Pending (run_from API_KEY a name now evs).
Proof.
  assert (∀ s, Pending s → Pending (exec API_KEY s evs)) as G.
  { induction evs as [|ne evs IH]; intros s Hs; simpl; [done|].
    by apply IH, pending_step. }
  apply G. unfold Pending. done.
Qed.

End Progress.

(** ** Failures *)

Section Failure.

Variable API_KEY : string.

Lemma error_absorbing s ne :
  Inv s → status (doc s) = error → status (doc (step API_KEY s ne)) = error.
Proof.
  intros HI Hs. destruct ne as [now e].
  assert (phase (run s) = Returned) as Hph.
  { apply inv_returned; [done|]. rewrite Hs. intros [?|?]; done. }
  unfold step. simpl. rewrite Hph, Hs.
  destruct e as [| |err|n|err|n ev]; try done.
  destruct n as [|k]; [done|].
  destruct (tasks (run s) !! k) as [t|] eqn:Hk; [|done].
  destruct (processPage_resume _ _ _ _ _ _) as [[t' pub]|] eqn:Hres; [|done].
  unfold promise_all. simpl. rewrite Hph. simpl. by destruct pub.
Qed.

Lemma error_absorbing_exec s later :
  Inv s → status (doc s) = error → status (doc (exec API_KEY s later)) = error.
Proof.
  revert s. induction later as [|ne later IH]; intros s HI Hs; [done|].
  simpl. apply IH; [by apply inv_step|by apply error_absorbing].
Qed.

(** The step in which a page call rejects. *)
Lemma rejection_step s now k t ev err pub :
  Inv s → tasks (run s) !! k = Some t →
  processPage_resume API_KEY (isTerminated (app s)) (S k) now t ev
    = Some (Rejected err, pub) →
  let s' := step API_KEY s (now, TaskEv (S k) ev) in
  status (doc s') = error ∧ pages (doc s') = pages (doc s) ∧
  (phase (run s) = AwaitBatch →
   apiError (app s') =
     Some (or_else err "A critical error occurred during processing.")).
Proof.
  intros HI Hk Hres s'. unfold s', step. simpl. rewrite Hk, Hres.
  pose proof Hres as Hres'.
  apply resume_rejected_fails in Hres' as [_ ->].
  apply resume_facts in Hres as ((Hun & _) & _ & _).
  unfold promise_all, advance_task. simpl.
  destruct (phase (run s)) eqn:Hph; simpl; try done.
  - destruct HI as [_ _ _ H _]. rewrite Hph in H. destruct H as [H _].
    by rewrite H in Hk.
  - destruct HI as [_ _ _ H _]. rewrite Hph in H. destruct H as [H _].
    by rewrite H in Hk.
  - destruct HI as [_ _ _ H _]. rewrite Hph in H.
    assert (¬ Forall resolved (tasks (run s))) as Hnall.
    { intros Hall. rewrite Forall_lookup in Hall. specialize (Hall k t Hk).
      unfold resolved in Hall. congruence. }
    destruct (status (doc s)); try done; by destruct H.
Qed.

End Failure.

(** * The claims *)

(** ** C1: cancellation *)

Section Cancellation.

Variable API_KEY : string.

(** Once the flag is set and the status has left Processing, an event
    that is not a failure changes nothing in the component state. *)
Lemma step_terminated_quiet s now e :
  isTerminated (app s) = true → status (doc s) ≠ processing →
  fails API_KEY e = false →
  app (step API_KEY s (now, e)) = app s.
Proof.
  intros Hf Hst Hfail. unfold step. simpl.
  destruct e as [| |err|n|err|n ev]; try done.
  - by destruct (status (doc s)).
  - by destruct (phase (run s)).
  - destruct (phase (run s)); try done.
    exact (loop_at_terminated now 0 (mkSys (app s) (with_totalPages n (run s))) Hf).
  - destruct n as [|k]; [done|].
    destruct (tasks (run s) !! k) as [t|] eqn:Hk; [|done].
    destruct (processPage_resume _ _ _ _ _ _) as [[t' pub]|] eqn:Hres; [|done].
    assert (¬ rejected t') as Hnr.
    { intros [err ->]. apply resume_rejected_fails in Hres as [? _].
      congruence. }
    assert (pub = None) as ->.
    { apply resume_facts in Hres as (_ & _ & Hpub).
      destruct pub as [p|]; [|done]. destruct (Hpub p eq_refl). congruence. }
    by rewrite promise_all_terminated.
Qed.

Lemma exec_terminated_quiet s later :
  isTerminated (app s) = true → status (doc s) ≠ processing →
  forallb (λ ne, negb (fails API_KEY ne.2)) later = true →
  app (exec API_KEY s later) = app s.
Proof.
  revert s. induction later as [|[now e] later IH]; intros s Hf Hst Hl; [done|].
  simpl in Hl. apply andb_true_iff in Hl as [He Hl]. apply negb_true_iff in He.
  simpl. pose proof (step_terminated_quiet s now e Hf Hst He) as Heq.
  rewrite IH; [done|by rewrite Heq..|done].
Qed.

End Cancellation.

(** C1 as stated fails: a cancellation during Processing leaves the page
    extracted so far in [pages]. *)
Lemma C1_counterexample :
  let s := run_from "key" initialApp "doc.pdf" 0 trace_one_of_two in
  let s1 := step "key" s (25%Z, Stop) in
  status (doc s) = processing ∧ status (doc s1) = idle ∧
  keys (pages (doc s1)) = [1].
Proof. vm_compute. done. Qed.

(** C1 (amended): if [stopExtraction] is invoked while the status is
    Processing, the resulting state has status Idle, progress 0 and an
    empty full text, and keeps the pages extracted before the
    cancellation; afterwards, as long as no page task fails, the
    component state stays as it is: a page task that resolves
    successfully adds no page and does not move the status away from
    Idle. *)
Theorem C1_cancel_is_final key a name t0 evs now later :
  let s := run_from key a name t0 evs in
  let s1 := step key s (now, Stop) in
  status (doc s) = processing →
  forallb (λ ne, negb (fails key ne.2)) later = true →
  status (doc s1) = idle ∧ progress (doc s1) = 0%Z ∧
  fullText (doc s1) = "" ∧ pages (doc s1) = pages (doc s) ∧
  isTerminated (app s1) = true ∧
  app (exec key s1 later) = app s1.
Proof.
  intros s s1 Hs Hl.
  pose proof (inv_run key a name t0 evs) as HI. fold s in HI.
  assert (s1 = mkSys (stopExtraction (app s)) (run s)) as Hs1.
  { unfold s1, step. simpl. by rewrite Hs. }
  rewrite Hs1. simpl. repeat split.
  - apply (inv_text s (inv_doc s HI)). by rewrite Hs.
  - by apply exec_terminated_quiet.
Qed.

Lemma C1_cancel_is_final_witness :
  let s := run_from "key" initialApp "doc.pdf" 0 trace_one_of_two in
  let s1 := step "key" s (25%Z, Stop) in
  let later := [(30%Z, TaskEv 2 (OCRDone (ReplyText (Some "B"))))] in
  status (doc s1) = idle ∧ progress (doc s1) = 0%Z ∧
  fullText (doc s1) = "" ∧ pages (doc s1) = pages (doc s) ∧
  isTerminated (app s1) = true ∧
  app (exec "key" s1 later) = app s1.
Proof.
  apply (C1_cancel_is_final "key" initialApp "doc.pdf" 0 trace_one_of_two 25
           [(30%Z, TaskEv 2 (OCRDone (ReplyText (Some "B"))))]);
    vm_compute; reflexivity.
Defined.

(** ** C2: failure of a page *)




(** After a failure the calls still in flight are not stopped: a sibling
    that resolves later is still merged into [pages], under status
    Error. *)
Example sibling_after_error :
  let s := run_from "key" initialApp "doc.pdf" 0
             [(1%Z, ArrayBufferDone); (2%Z, DocumentDone 2);
              (3%Z, TaskEv 2 (GetPageFail (Some "boom")))] in
  let s' := exec "key" s (page_ok 1 10 "A") in
  status (doc s) = error ∧ pages (doc s) = [] ∧
  status (doc s') = error ∧ keys (pages (doc s')) = [1] ∧
  fullText (doc s') = "".
Proof. vm_compute. done. Qed.

(** ** C3: page order of a completed run *)

Lemma clean_step key s now e :
  Clean s → cancels e = false → lacks_context e = false →
  Clean (step key s (now, e)).
Proof.
  intros [Hf Ht] Hc Hl. unfold step. simpl.
  destruct e as [| |err|n|err|n ev]; try done.
  - destruct (phase (run s)); done.
  - destruct (phase (run s)); done.
  - destruct (phase (run s)); try done.
    destruct (loop_at_frame now 0 (mkSys (app s) (with_totalPages n (run s))))
      as (Hf' & (calls & Ht' & Hcalls) & _).
    split; [by rewrite Hf'|]. rewrite Ht'. simpl.
    apply Forall_app. split; [done|].
    eapply Forall_impl; [exact Hcalls|]. by intros ? ->.
  - destruct (phase (run s)); done.
  - destruct n as [|k]; [done|].
    destruct (tasks (run s) !! k) as [t|] eqn:Hk; [|done].
    rewrite Hf.
    destruct (processPage_resume _ _ _ _ _ _) as [[t' pub]|] eqn:Hres; [|done].
    destruct (promise_all_frame now t' (advance_task k t' pub s))
      as (Hf' & (calls & Ht' & Hcalls) & _).
    split.
    + rewrite Hf'. unfold advance_task. simpl. by destruct pub.
    + rewrite Ht'. simpl. apply Forall_app. split.
      * apply Forall_insert; [done|]. eapply resume_clean; [done|].
        intros ->. done.
      * eapply Forall_impl; [exact Hcalls|]. by intros ? ->.
Qed.

Lemma clean_exec key s evs :
  Clean s →
  forallb (λ ne, negb (cancels ne.2) && negb (lacks_context ne.2)) evs = true →
  Clean (exec key s evs).
Proof.
  revert s. induction evs as [|[now e] evs IH]; intros s Hs Hevs; [done|].
  simpl in Hevs. apply andb_true_iff in Hevs as [He Hevs].
  apply andb_true_iff in He as [He1 He2].
  apply negb_true_iff in He1, He2.
  simpl. apply IH; [|done]. by apply clean_step.
Qed.




(** ** C4: the joined text *)

(** C4 fails on the program.  The termination flag is one ref for all
    uploads and a new upload resets it: after a cancellation followed by
    a new upload, the last call of the cancelled run completes that run
    on the new document (text "A", "B"), and the first page of the new
    document is then added to [pages] under the status Completed: the
    full text is not the join of the pages. *)
Lemma C4_stale_run_text :
  let d := docState (component stale_then_new) in
  status d = completed ∧ fileName d = "new.pdf" ∧
  map extractedText (pages d) = ["A"; "N"; "B"] ∧
  fullText d = ("A" +:+ SEP +:+ "B")%string ∧
  fullText d ≠ String.concat SEP (map extractedText (pages d)).
Proof. vm_compute. repeat split; done. Qed.

(** The example of the specification: texts "A", "B", "C" completing in
    the order C, A, B are joined as A, B, C. *)
Example join_C_A_B :
  status (doc run_C_A_B) = completed ∧
  map extractedText (pages (doc run_C_A_B)) = ["A"; "B"; "C"] ∧
  fullText (doc run_C_A_B) = ("A" +:+ SEP +:+ "B" +:+ SEP +:+ "C")%string.
Proof. vm_compute. done. Qed.

(** ** C5: the batches *)

Lemma loop_indices_concat fuel i total :
  total ≤ i + fuel →
  concat (map (λ j, slice (pageNumbers total) j (j + concurrencyLimit))
              (loop_indices fuel i total))
  = drop i (pageNumbers total).
Proof.
  revert i. induction fuel as [|fuel IH]; intros i Hfuel; simpl.
  - rewrite drop_ge; [done|]. rewrite length_pageNumbers. lia.
  - destruct (Nat.ltb_spec i total) as [Hlt|Hge]; simpl.
    + rewrite IH by (unfold concurrencyLimit; lia).
      unfold slice. replace (i + concurrencyLimit - i) with concurrencyLimit by lia.
      rewrite <-(take_drop concurrencyLimit (drop i (pageNumbers total))) at 2.
      by rewrite drop_drop.
    + rewrite drop_ge; [done|]. rewrite length_pageNumbers. lia.
Qed.

Lemma loop_indices_bound fuel i total :
  Forall (λ j, j < total) (loop_indices fuel i total).
Proof.
  revert i. induction fuel as [|fuel IH]; intros i; simpl; [constructor|].
  destruct (Nat.ltb_spec i total); [|constructor]. constructor; [done|apply IH].
Qed.

Lemma loop_indices_complete fuel i j total :
  total ≤ i + fuel → j < total → (∃ c, j = i + c * concurrencyLimit) →
  j ∈ loop_indices fuel i total.
Proof.
  revert i. induction fuel as [|fuel IH]; intros i Hfuel Hj [c Hc].
  - unfold concurrencyLimit in *. lia.
  - simpl. destruct (Nat.ltb_spec i total) as [Hlt|Hge];
      [|unfold concurrencyLimit in *; lia].
    destruct c as [|c]; [rewrite Hc; simpl; rewrite Nat.add_0_r; by left|].
    right. apply IH; [unfold concurrencyLimit; lia|done|].
    exists c. unfold concurrencyLimit in *. lia.
Qed.

Lemma batches_partition total :
  concat (batches total) = pageNumbers total ∧
  Forall (λ b, 1 ≤ length b ≤ concurrencyLimit) (batches total).
Proof.
  split.
  - unfold batches, batch_starts. rewrite loop_indices_concat by lia. done.
  - unfold batches. apply Forall_fmap.
    eapply Forall_impl; [apply loop_indices_bound|].
    intros i Hi. simpl in *. rewrite length_slice, length_pageNumbers.
    unfold concurrencyLimit. lia.
Qed.

Lemma count_outstanding_le (ts : list Task) i :
  Forall resolved (take i ts) → length ts ≤ i + concurrencyLimit →
  count_outstanding ts ≤ concurrencyLimit.
Proof.
  intros Hres Hlen. unfold count_outstanding.
  rewrite <-(take_drop i ts), List.filter_app, length_app.
  assert (List.filter is_outstanding (take i ts) = []) as ->.
  { induction Hres as [|t l Ht Hl IH]; simpl; [done|].
    unfold resolved in Ht. destruct t; try done. }
  simpl. etransitivity; [apply List.filter_length_le|].
  rewrite length_drop. lia.
Qed.

Section Batches.

Variable API_KEY : string.

(** New calls appear only in a step that starts a batch, and then with
    the loop variable one stride further. *)
Lemma step_dispatch s ne :
  let s' := step API_KEY s ne in
  length (tasks (run s')) = length (tasks (run s)) ∨
  (phase (run s') = AwaitBatch ∧
   (phase (run s) = AwaitDocument ∧ loop_i (run s') = 0 ∨
    phase (run s) = AwaitBatch ∧
    loop_i (run s') = loop_i (run s) + concurrencyLimit) ∧
   ∃ calls, length (tasks (run s)) + length calls = length (tasks (run s')) ∧
            drop (length (tasks (run s))) (tasks (run s')) = calls ∧
            Forall (λ t, t = AwaitGetPage) calls).
Proof.
  destruct ne as [now e]. unfold step. simpl.
  destruct e as [| |err|n|err|n ev].
  - left. by destruct (status (doc s)).
  - left. by destruct (phase (run s)).
  - left. by destruct (phase (run s)).
  - destruct (phase (run s)) eqn:Hph; try by left.
    destruct (loop_at_dispatch now 0 (mkSys (app s) (with_totalPages n (run s))))
      as [H|(Hp & Hi & calls & Ht & Hc)]; simpl in *.
    + left. by rewrite H.
    + right. split; [done|]. split; [by left|].
      exists calls. rewrite Ht, length_app, drop_app_length. done.
  - left. by destruct (phase (run s)).
  - destruct n as [|k]; [by left|].
    destruct (tasks (run s) !! k) as [t|] eqn:Hk; [|by left].
    destruct (processPage_resume _ _ _ _ _ _) as [[t' pub]|] eqn:Hres;
      [|by left].
    unfold promise_all. simpl.
    destruct (phase (run s)) eqn:Hph; simpl;
      try (left; by rewrite length_insert).
    assert (∀ s1, tasks (run s1) = <[k:=t']> (tasks (run s)) →
                  length (tasks (run s1)) = length (tasks (run s))) as Hsame.
    { intros s1 ->. by rewrite length_insert. }
    destruct t'; try (left; by apply Hsame);
      (destruct (forallb _ _); [|left; by apply Hsame]);
      match goal with |- context [loop_at now ?i ?s0] =>
        destruct (loop_at_dispatch now i s0)
          as [H|(Hp & Hi & calls & Ht & Hc)]; simpl in *;
        [left; rewrite H; by rewrite length_insert
        |right; split; [done|]; split; [by right|];
         exists calls; rewrite Ht, length_app, length_insert;
         split; [done|]; split; [|done];
         rewrite <-(length_insert (tasks (run s)) k) at 1;
         by rewrite drop_app_length]
      end.
Qed.

(** The calls of a slice all suspend on their page. *)
Lemma begin_calls (batch : list nat) :
  map (processPage_begin false) batch = replicate (length batch) AwaitGetPage.
Proof. induction batch as [|n batch IH]; simpl; [done|by rewrite IH]. Qed.

(** The first slice is dispatched in the step in which the document
    arrives. *)
Lemma first_batch_dispatched s now total :
  Inv s → phase (run s) = AwaitDocument → isTerminated (app s) = false →
  0 < total →
  let s' := step API_KEY s (now, DocumentDone total) in
  tasks (run s') = replicate (total `min` concurrencyLimit) AwaitGetPage ∧
  phase (run s') = AwaitBatch ∧ loop_i (run s') = 0 ∧
  totalPages (run s') = total.
Proof.
  intros HI Hph Hf HT s'. unfold s', step, loop_at. simpl.
  pose proof (inv_phase s HI) as H. rewrite Hph in H. destruct H as (Hnil & _).
  rewrite Hph. simpl. rewrite length_pageNumbers, Hf, Hnil.
  destruct (Nat.ltb_spec 0 total); [|lia]. simpl.
  rewrite begin_calls, length_slice, length_pageNumbers.
  repeat split. f_equal. lia.
Qed.

(** The next slice is dispatched in the very step in which the last
    call of the awaited slice resolves. *)
Lemma next_batch_dispatched s ne :
  Inv s → Pending s → phase (run s) = AwaitBatch →
  isTerminated (app s) = false →
  let s' := step API_KEY s ne in
  let made := length (tasks (run s)) in
  Forall resolved (take made (tasks (run s'))) →
  made < totalPages (run s) →
  drop made (tasks (run s')) =
    replicate ((totalPages (run s) - made) `min` concurrencyLimit)
              AwaitGetPage ∧
  phase (run s') = AwaitBatch ∧
  loop_i (run s') = loop_i (run s) + concurrencyLimit.
Proof.
  intros HI HP Hph Hf s' made Hall Hmore.
  pose proof (inv_phase s HI) as Hb. rewrite Hph in Hb.
  destruct Hb as (Hi & Hlen & _).
  assert (¬ Forall resolved (tasks (run s))) as Hnot.
  { intros Hr. specialize (HP Hph). apply Exists_exists in HP as (t & Hin & Ht).
    rewrite Forall_forall in Hr. specialize (Hr t Hin).
    unfold resolved in Hr. congruence. }
  assert (tasks (run s') = tasks (run s) → False) as Hsame.
  { intros Heq. rewrite Heq in Hall. unfold made in Hall.
    by rewrite firstn_all in Hall. }
  destruct ne as [now e].
  assert (∃ k t ev t' pub,
            e = TaskEv (S k) ev ∧ tasks (run s) !! k = Some t ∧
            processPage_resume API_KEY (isTerminated (app s)) (S k) now t ev
              = Some (t', pub)) as (k & t & ev & t' & pub & -> & Hk & Hres).
  { destruct e as [| |err|n|err|n ev];
      try (exfalso; apply Hsame; unfold s', step; simpl; by rewrite ?Hph);
      try (exfalso; apply Hsame; unfold s', step; simpl;
           by destruct (status (doc s))).
    destruct n as [|k]; [by exfalso; apply Hsame|].
    destruct (tasks (run s) !! k) as [t|] eqn:Hk;
      [|exfalso; apply Hsame; unfold s', step; simpl; by rewrite Hk].
    destruct (processPage_resume API_KEY (isTerminated (app s)) (S k) now t ev)
      as [[t' pub]|] eqn:Hres;
      [|exfalso; apply Hsame; unfold s', step; simpl; by rewrite Hk, Hres].
    by exists k, t, ev, t', pub. }
  set (ts1 := <[k:=t']> (tasks (run s))).
  assert (length ts1 = made) as Hlen1 by apply length_insert.
  assert (s' = promise_all now t' (advance_task k t' pub s)) as Hs'
    by (unfold s', step; simpl; by rewrite Hk, Hres).
  destruct (promise_all_frame now t' (advance_task k t' pub s))
    as (_ & (calls & Ht & _) & _).
  rewrite <-Hs' in Ht. simpl in Ht. fold ts1 in Ht.
  assert (Forall resolved ts1) as Hr.
  { rewrite Ht, <-Hlen1, take_app_length in Hall. done. }
  assert (∃ r, t' = Resolved r) as [r ->].
  { rewrite Forall_lookup in Hr.
    specialize (Hr k t' (list_lookup_insert_eq _ _ _ (lookup_lt_Some _ _ _ Hk))).
    destruct t'; try done. by eexists. }
  assert (isTerminated (app (advance_task k (Resolved r) pub s)) = false)
    as Hf1 by by destruct pub.
  apply (Forall_drop _ (loop_i (run s))), forallb_resolved in Hr.
  unfold s', step, promise_all, loop_at. simpl. rewrite Hk, Hres. simpl.
  rewrite Hph. fold ts1. rewrite Hr. simpl. simpl in Hf1.
  rewrite length_pageNumbers, Hf1.
  destruct (Nat.ltb_spec (loop_i (run s) + concurrencyLimit)
                         (totalPages (run s))) as [Hlt|Hge];
    [|unfold made in Hmore; lia].
  simpl. rewrite <-Hlen1, drop_app_length.
  rewrite begin_calls, length_slice, length_pageNumbers.
  repeat split. f_equal. unfold made in *. lia.
Qed.

End Batches.

(** C5 as stated fails on the number of outstanding tasks: the calls of
    a cancelled upload are not aborted, and they are still in flight when
    the next upload starts its own first slice. *)
Lemma C5_counterexample :
  let sh := two_uploads_of_25 in
  status (docState (component sh)) = processing ∧
  count_outstanding (tasks (first_run sh)) = 12 ∧
  count_outstanding (tasks (second_run sh)) = 12 ∧
  concurrencyLimit <
    count_outstanding (tasks (first_run sh) ++ tasks (second_run sh)).
Proof. vm_compute. repeat split; lia. Qed.

(** C5 (amended): for every page count the loop of an upload cuts
    [1..T] into consecutive slices of 1 to 12 pages.  The calls of the
    first slice are all started in the step in which the document
    arrives, and those of the next slice in the very step in which the
    last call of the awaited slice resolves (unless the run is cancelled),
    all together and not before: so at any moment at most 12 calls of
    that upload are outstanding (calls of an earlier, cancelled upload
    may be in flight besides), the calls made so far are exactly those up
    to the end of the awaited slice and every call of the earlier slices
    has resolved.  For 25 pages a run in which every page goes through
    starts three groups of calls, of 12, 12 and 1. *)
Theorem C5_batches key a name t0 evs ne :
  let s := run_from key a name t0 evs in
  let s' := step key s ne in
  let made := length (tasks (run s)) in
  let current :=
    slice (pageNumbers (totalPages (run s)))
          (loop_i (run s)) (loop_i (run s) + concurrencyLimit) in
  (∀ total, concat (batches total) = pageNumbers total ∧
            Forall (λ b, 1 ≤ length b ≤ concurrencyLimit) (batches total)) ∧
  (∀ total,
     ne.2 = DocumentDone total → phase (run s) = AwaitDocument →
     isTerminated (app s) = false → 0 < total →
     tasks (run s') = replicate (total `min` concurrencyLimit) AwaitGetPage ∧
     phase (run s') = AwaitBatch ∧ totalPages (run s') = total) ∧
  (phase (run s) = AwaitBatch → isTerminated (app s) = false →
   Forall resolved (take made (tasks (run s'))) →
   made < totalPages (run s) →
   drop made (tasks (run s')) =
     replicate ((totalPages (run s) - made) `min` concurrencyLimit)
               AwaitGetPage ∧
   phase (run s') = AwaitBatch) ∧
  count_outstanding (tasks (run s)) ≤ concurrencyLimit ∧
  (phase (run s) = AwaitBatch →
   current ∈ batches (totalPages (run s)) ∧
   made = loop_i (run s) + length current ∧
   Forall resolved (take (loop_i (run s)) (tasks (run s)))) ∧
  (made < length (tasks (run s')) →
   Forall resolved (take made (tasks (run s'))) ∧
   Forall (λ t, t = AwaitGetPage) (drop made (tasks (run s')))) ∧
  (key ≠ "" →
   ∀ t1 t2,
     dispatches key (start a name t0)
       ([(t1, ArrayBufferDone); (t2, DocumentDone 25)] ++ pages_ok 1 25)
     = [12; 12; 1]) ∧
  map length (batches 25) = [12; 12; 1].
Proof.
  intros s s' made current.
  pose proof (inv_run key a name t0 evs) as HI. fold s in HI.
  pose proof (pending_run key a name t0 evs) as HP. fold s in HP.
  assert (Inv s') as HI' by by apply inv_step.
  split; [apply batches_partition|].
  split.
  { intros total He Hph Hf HT. destruct ne as [now e]. simpl in He. subst e.
    destruct (first_batch_dispatched key s now total HI Hph Hf HT)
      as (? & ? & _ & ?). done. }
  split.
  { intros Hph Hf Hall Hmore.
    destruct (next_batch_dispatched key s ne HI HP Hph Hf Hall Hmore)
      as (? & ? & _). done. }
  split; [apply (count_outstanding_le _ (loop_i (run s)));
          [apply (inv_prefix s HI)|apply (inv_window s HI)]|].
  split; [|split; [|split; [|done]]].
  - intros Hph. pose proof (inv_phase s HI) as H. rewrite Hph in H.
    destruct H as (Hi & Hlen & Hmod & _). split; [|split].
    + unfold batches. apply list_elem_of_fmap.
      exists (loop_i (run s)). split; [done|].
      apply loop_indices_complete; [lia|done|].
      exists (loop_i (run s) `div` concurrencyLimit).
      pose proof (Nat.div_mod_eq (loop_i (run s)) concurrencyLimit). lia.
    + unfold current, made. rewrite length_slice, length_pageNumbers. lia.
    + apply (inv_prefix s HI).
  - intros Hgrow.
    pose proof (step_dispatch key s ne) as Hdis. simpl in Hdis. fold s' in Hdis.
    destruct Hdis as [Heq|(Hph & Hfrom & calls & _ & Hd & Hc)];
      [unfold made in Hgrow; lia|].
    split; [|unfold made; by rewrite Hd].
    pose proof (inv_prefix s' HI') as Hpre.
    destruct Hfrom as [[Hdoc _]|[Hb Hi]].
    + pose proof (inv_phase s HI) as H. rewrite Hdoc in H.
      destruct H as (Hnil & _). unfold made. rewrite Hnil. simpl. constructor.
    + pose proof (inv_window s HI) as Hw. rewrite Hi in Hpre. unfold made.
      replace (length (tasks (run s)))
        with (length (tasks (run s)) `min` (loop_i (run s) + concurrencyLimit))
        by lia.
      rewrite <-take_take. by apply Forall_take.
  - intros Hkey t1 t2. destruct key as [|c key']; [done|].
    vm_compute. reflexivity.
Qed.

Lemma C5_batches_witness :
  let s := run_from "key" initialApp "doc.pdf" 0 trace_25_first_batch in
  let s' := step "key" s page_12_extracted in
  drop 12 (tasks (run s')) = replicate 12 AwaitGetPage ∧
  phase (run s') = AwaitBatch ∧
  count_outstanding (tasks (run s)) ≤ concurrencyLimit ∧
  dispatches "key" (start initialApp "doc.pdf" 0)
    ([(1%Z, ArrayBufferDone); (2%Z, DocumentDone 25)] ++ pages_ok 1 25)
  = [12; 12; 1].
Proof.
  pose proof (C5_batches "key" initialApp "doc.pdf" 0 trace_25_first_batch
                page_12_extracted) as H.
  destruct H as (_ & _ & H3 & H4 & _ & _ & H7 & _).
  destruct H3 as [H3a H3b]; [done|done| |vm_compute; lia|].
  { vm_compute. repeat constructor. }
  split; [exact H3a|]. split; [exact H3b|]. split; [exact H4|].
  apply H7. done.
Defined.

(** The same run, in numbers: the second batch starts in the step in
    which page 12 resolves, and a full run makes three batches. *)
Example second_batch_starts :
  let s := run_from "key" initialApp "doc.pdf" 0 trace_25_first_batch in
  let s' := step "key" s page_12_extracted in
  length (tasks (run s)) = 12 ∧ count_outstanding (tasks (run s)) = 1 ∧
  length (tasks (run s')) = 24 ∧ count_outstanding (tasks (run s')) = 12 ∧
  loop_i (run s') = 12.
Proof. vm_compute. done. Qed.

Example run_of_25_pages :
  let s := run_from "key" initialApp "doc.pdf" 0
             ([(1%Z, ArrayBufferDone); (2%Z, DocumentDone 25)] ++ pages_ok 1 25) in
  status (doc s) = completed ∧ keys (pages (doc s)) = seq 1 25 ∧
  batch_starts 25 = [0; 12; 24].
Proof. vm_compute. done. Qed.

(** ** C6: progress *)

(** A call that has not resolved with a page keeps its page out of the
    document state, so the pages are fewer than the calls. *)
Lemma missing_page_bound s k t :
  DocInv s → tasks (run s) !! k = Some t →
  (∀ p, t ≠ Resolved (Some p)) →
  length (pages (doc s)) < length (tasks (run s)).
Proof.
  intros [Hs Hp Ht _ _ _ _] Hk Hno.
  assert (length (S k :: keys (pages (doc s))) ≤ length (tasks (run s))) as G.
  { apply nodup_bounded_length.
    - constructor; [|by apply strict_nodup].
      intros Hin. apply list_elem_of_fmap in Hin as (q & Hq & Hin).
      destruct (Hp q Hin) as [k' Hk'].
      pose proof (Ht k' q Hk') as Hqk.
      assert (k' = k) as -> by lia. rewrite Hk in Hk'. simplify_eq.
      by eapply Hno.
    - constructor; [apply lookup_lt_Some in Hk; lia|].
      apply Forall_forall. intros n Hn.
      apply list_elem_of_fmap in Hn as (q & -> & Hin).
      destruct (Hp q Hin) as [k' Hk']. rewrite (Ht k' q Hk').
      apply lookup_lt_Some in Hk'. lia. }
  simpl in G. unfold keys in G. rewrite length_map in G. lia.
Qed.

Lemma pages_lt_total s :
  Inv s → Pending s → isTerminated (app s) = false →
  status (doc s) ≠ completed → 0 < totalPages (run s) →
  length (pages (doc s)) < totalPages (run s).
Proof.
  intros [HD _ _ Hph Hfail] HP Hf Hnc HT.
  pose proof (inv_total s HD) as Hlen.
  pose proof (inv_flag s HD) as Hflag. rewrite Hf in Hflag.
  assert (tasks (run s) = [] ∨
          ∃ k t, tasks (run s) !! k = Some t ∧ ∀ p, t ≠ Resolved (Some p))
    as [Hnil|(k & t & Hk & Hno)].
  { destruct (status (doc s)) eqn:Hst; try done.
    - destruct (phase (run s)) eqn:Hp; try done.
      + left. by destruct Hph.
      + left. by destruct Hph.
      + right. pose proof (HP Hp) as Hex.
        apply Exists_exists in Hex as (t & Hin & Ht).
        apply list_elem_of_lookup in Hin as [k Hk].
        exists k, t. split; [done|]. by intros p ->.
    - destruct (Hfail eq_refl) as [?|Hex]; [by left|right].
      apply Exists_exists in Hex as (t & Hin & [err ->]).
      apply list_elem_of_lookup in Hin as [k Hk]. by exists k, (Rejected err). }
  - pose proof (docinv_pages_bound s HD) as Hb. rewrite Hnil in Hb. simpl in Hb.
    lia.
  - pose proof (missing_page_bound s k t HD Hk Hno). lia.
Qed.

Section ProgressSteps.

Variable API_KEY : string.

Lemma step_progress_mono s ne :
  Inv s → ne.2 ≠ Stop →
  (progress (doc s) ≤ progress (doc (step API_KEY s ne)))%Z.
Proof.
  intros HI Hne. destruct ne as [now e]. simpl in Hne.
  pose proof (inv_progress_range s (inv_doc s HI)) as Hrange.
  unfold step. simpl.
  destruct e as [| |err|n|err|n ev]; try done.
  - destruct (phase (run s)); simpl; lia.
  - destruct (phase (run s)); simpl; lia.
  - destruct (phase (run s)); try lia.
    destruct (loop_at_progress now 0 (mkSys (app s) (with_totalPages n (run s))))
      as [-> | ->]; simpl; lia.
  - destruct (phase (run s)); simpl; lia.
  - destruct n as [|k]; [lia|].
    destruct (tasks (run s) !! k) as [t|] eqn:Hk; [|lia].
    destruct (processPage_resume _ _ _ _ _ _) as [[t' pub]|] eqn:Hres; [|lia].
    pose proof (inv_advance_task _ _ _ _ _ _ _ _ HI Hk Hres) as HI1.
    pose proof (inv_progress_range _ (inv_doc _ HI1)) as Hrange1.
    assert (progress (doc s) ≤ progress (doc (advance_task k t' pub s)))%Z as H1.
    { apply resume_facts in Hres as ((Hun & _) & _ & Hpub).
      destruct pub as [p|]; [|simpl; lia].
      destruct (Hpub p eq_refl) as [_ Hf].
      pose proof (unresolved_not_completed s k t HI Hk Hun) as Hnc.
      rewrite (inv_progress s (inv_doc s HI)), Hf. simpl.
      rewrite array_sort_length, length_app. simpl.
      assert (round_percent (length (pages (doc s))) (totalPages (run s))
              ≤ round_percent (length (pages (doc s)) + 1) (totalPages (run s)))%Z
        by (apply round_percent_mono; lia).
      by destruct (status (doc s)). }
    destruct (promise_all_progress now t' (advance_task k t' pub s))
      as [-> | ->]; lia.
Qed.

End ProgressSteps.

(** C6 as stated fails: with 249 of 250 pages in, progress is 100 while
    the status is still Processing; when the last page then fails the run
    ends in Error, still at 100, and was never Completed. *)
Lemma C6_counterexample :
  let s := run_from "key" initialApp "doc.pdf" 0 trace_249_of_250 in
  let s' := step "key" s (301%Z, TaskEv 250 (OCRDone (ReplyThrow (Some "429")))) in
  status (doc s) = processing ∧ length (pages (doc s)) = 249 ∧
  totalPages (run s) = 250 ∧ progress (doc s) = 100%Z ∧
  status (doc s') = error ∧ progress (doc s') = 100%Z.
Proof. vm_compute. done. Qed.

(** The percentage is computed in double precision: with 23 of 40 pages
    the quotient 0.575 is not a double, the product is just below 57.5
    and the progress is 57, not 58; with 29 of 200 it is 14, not 15. *)
Example round_percent_in_doubles :
  round_percent 23 40 = 57%Z ∧ round_percent 29 200 = 14%Z ∧
  round_percent 1 2 = 50%Z ∧ round_percent 249 250 = 100%Z.
Proof. vm_compute. done. Qed.

(** C6 (amended): throughout a run of an upload taken alone (no call of
    an earlier, cancelled upload is still in flight and no further upload
    is started), while the status is Processing the progress is
    [Math.round((|pages| / totalPages) * 100)] as computed in double
    precision; it never decreases except when a cancellation resets it to
    0; it is exactly 100 whenever the run is Completed; and for a
    document of fewer than 200 pages it is 100 only if the run is
    Completed (with 249 of 250 pages it is 100 while a page is still
    missing). *)
Theorem C6_progress key a name now evs :
  let s := run_from key a name now evs in
  (status (doc s) = processing →
   progress (doc s) =
     round_percent (length (pages (doc s))) (totalPages (run s))) ∧
  (∀ ne, ne.2 ≠ Stop →
         (progress (doc s) ≤ progress (doc (step key s ne)))%Z) ∧
  (status (doc s) = completed → progress (doc s) = 100%Z) ∧
  (totalPages (run s) < 200 → progress (doc s) = 100%Z →
   status (doc s) = completed).
Proof.
  intros s.
  pose proof (inv_run key a name now evs) as HI. fold s in HI.
  pose proof (pending_run key a name now evs) as HP. fold s in HP.
  pose proof (inv_progress s (inv_doc s HI)) as Hpr.
  pose proof (inv_flag s (inv_doc s HI)) as Hfl.
  split; [|split; [|split]].
  - intros Hs. rewrite Hpr, Hs. rewrite Hs in Hfl.
    destruct (isTerminated (app s)); [|done]. destruct Hfl; done.
  - intros ne Hne. by apply step_progress_mono.
  - intros Hs. rewrite Hpr, Hs. rewrite Hs in Hfl.
    destruct (isTerminated (app s)); [|done]. destruct Hfl; done.
  - intros HT H100.
    destruct (decide (status (doc s) = completed)) as [|Hnc]; [done|].
    exfalso. rewrite Hpr in H100.
    destruct (isTerminated (app s)) eqn:Hf; [done|].
    assert (round_percent (length (pages (doc s))) (totalPages (run s)) = 100%Z)
      as Hr by (by destruct (status (doc s))).
    destruct (totalPages (run s)) as [|T] eqn:HTe.
    + by rewrite round_percent_no_total in Hr.
    + assert (length (pages (doc s)) < S T) as Hlt.
      { rewrite <-HTe. apply pages_lt_total; try done. lia. }
      pose proof (round_percent_lt_100 _ _ Hlt HT). lia.
Qed.

Lemma C6_progress_witness :
  (status (doc run_C_A_B) = completed → progress (doc run_C_A_B) = 100%Z) ∧
  (totalPages (run run_C_A_B) < 200 → progress (doc run_C_A_B) = 100%Z →
   status (doc run_C_A_B) = completed).
Proof.
  pose proof (C6_progress "key" initialApp "doc.pdf" 0
    ([(1%Z, ArrayBufferDone); (2%Z, DocumentDone 3)]
       ++ page_ok 3 10 "C" ++ page_ok 1 20 "A" ++ page_ok 2 30 "B")) as H.
  exact (proj2 (proj2 H)).
Defined.

(** ** C7: order of the pages in every state *)

(** C7 fails on the program, by the same reset of the shared flag: in
    the state above the page numbers are 1, 1, 2. *)
Lemma C7_stale_call_duplicates :
  let d := docState (component stale_then_new) in
  status d = completed ∧ keys (pages d) = [1; 1; 2] ∧
  ¬ NoDup (keys (pages d)).
Proof.
  vm_compute. repeat split. intros H.
  apply NoDup_cons in H as [H _]. apply H. by left.
Qed.

(** ** C8: a new upload *)

(** C8: an upload, from any state of the component (Completed and Error
    included), leaves the document state with no pages, an empty full text,
    progress 0 and status Processing, clears the termination flag and the
    error banner, and does so before any page task exists. *)
Theorem C8_upload_resets_state a name now :
  let s := start a name now in
  pages (doc s) = [] ∧ fullText (doc s) = "" ∧ progress (doc s) = 0%Z ∧
  status (doc s) = processing ∧ isTerminated (app s) = false ∧
  apiError (app s) = None ∧ tasks (run s) = [] ∧ results (run s) = [].
Proof. repeat split. Qed.

(** ** C9: the duration of a page *)

Section Duration.

Variable API_KEY : string.

(** A call suspended on [performOCR] stays so, with the same start stamp,
    until the extraction of its own page settles. *)
Lemma extraction_in_flight s ne k imageData pStart :
  tasks (run s) !! k = Some (AwaitOCR imageData pStart) →
  awaited_extraction k ne.2 = false →
  tasks (run (step API_KEY s ne)) !! k = Some (AwaitOCR imageData pStart).
Proof.
  intros Hk He. destruct ne as [now e]. simpl in He. unfold step. simpl.
  destruct e as [| |err|n|err|n ev].
  - by destruct (status (doc s)).
  - by destruct (phase (run s)).
  - by destruct (phase (run s)).
  - destruct (phase (run s)); try done.
    destruct (loop_at_frame now 0 (mkSys (app s) (with_totalPages n (run s))))
      as (_ & (calls & -> & _) & _). simpl. by apply lookup_app_l_Some.
  - by destruct (phase (run s)).
  - destruct n as [|j]; [done|].
    destruct (tasks (run s) !! j) as [t|] eqn:Hj; [|done].
    destruct (processPage_resume _ _ _ _ _ _) as [[t' pub]|] eqn:Hres; [|done].
    destruct (promise_all_frame now t' (advance_task j t' pub s))
      as (_ & (calls & -> & _) & _). simpl. apply lookup_app_l_Some.
    destruct (decide (j = k)) as [->|Hne].
    + rewrite Hk in Hj. simplify_eq. unfold processPage_resume in Hres.
      destruct ev; try done. simpl in He.
      by rewrite bool_decide_eq_false in He.
    + by rewrite list_lookup_insert_ne.
Qed.

Lemma extraction_in_flight_exec s between k imageData pStart :
  tasks (run s) !! k = Some (AwaitOCR imageData pStart) →
  forallb (λ ne, negb (awaited_extraction k ne.2)) between = true →
  tasks (run (exec API_KEY s between)) !! k = Some (AwaitOCR imageData pStart).
Proof.
  revert s. induction between as [|ne between IH]; intros s Hk Hb; [done|].
  simpl in Hb. apply andb_true_iff in Hb as [He Hb]. apply negb_true_iff in He.
  simpl. apply IH; [|done]. by apply extraction_in_flight.
Qed.

Lemma task_after_step s now k t ev t' pub :
  tasks (run s) !! k = Some t →
  processPage_resume API_KEY (isTerminated (app s)) (S k) now t ev
    = Some (t', pub) →
  tasks (run (step API_KEY s (now, TaskEv (S k) ev))) !! k = Some t'.
Proof.
  intros Hk Hres. unfold step. simpl. rewrite Hk, Hres.
  destruct (promise_all_frame now t' (advance_task k t' pub s))
    as (_ & (calls & -> & _) & _). simpl. apply lookup_app_l_Some.
  apply list_lookup_insert_eq. by eapply lookup_lt_Some.
Qed.

End Duration.

(** C9: the [durationMs] of a page result is the time between the clock
    reading taken when the rendering of the page has finished, just before
    [performOCR] is called, and the reading taken when [performOCR] has
    returned; the time at which the page was fetched or its rendering
    started plays no part, and nothing that happens in between changes
    it. *)
Theorem C9_duration_spans_extraction
    key s k t_render imageData between t_done reply text :
  let s1 := step key s (t_render, TaskEv (S k) (RenderDone imageData)) in
  let s2 := exec key s1 between in
  let s3 := step key s2 (t_done, TaskEv (S k) (OCRDone reply)) in
  tasks (run s) !! k = Some AwaitRender →
  isTerminated (app s) = false →
  forallb (λ ne, negb (awaited_extraction k ne.2)) between = true →
  fst (performOCR key reply) = Returns text →
  tasks (run s1) !! k = Some (AwaitOCR imageData t_render) ∧
  tasks (run s3) !! k =
    Some (Resolved (Some (mkPage (S k) text imageData (t_done - t_render)))).
Proof.
  intros s1 s2 s3 Hk Hf Hb Hocr.
  assert (tasks (run s1) !! k = Some (AwaitOCR imageData t_render)) as H1.
  { eapply task_after_step; [done|]. by rewrite Hf. }
  split; [done|].
  assert (tasks (run s2) !! k = Some (AwaitOCR imageData t_render)) as H2
    by by apply extraction_in_flight_exec.
  eapply task_after_step; [done|]. simpl. rewrite Hocr. done.
Qed.

(** Page 1 of a one-page document is fetched at 10 and rendered from 10 to
    250; its extraction runs from 250 to 1000. *)
Lemma C9_duration_spans_extraction_witness :
  let s := run_from "key" initialApp "doc.pdf" 0
             [(1%Z, ArrayBufferDone); (2%Z, DocumentDone 1);
              (10%Z, TaskEv 1 (GetPageDone true))] in
  let s1 := step "key" s (250%Z, TaskEv 1 (RenderDone "img")) in
  let s3 := step "key" (exec "key" s1 [(600%Z, ArrayBufferDone)])
                 (1000%Z, TaskEv 1 (OCRDone (ReplyText (Some "A")))) in
  tasks (run s1) !! 0 = Some (AwaitOCR "img" 250) ∧
  tasks (run s3) !! 0 = Some (Resolved (Some (mkPage 1 "A" "img" 750))).
Proof.
  apply (C9_duration_spans_extraction "key"
           (run_from "key" initialApp "doc.pdf" 0
              [(1%Z, ArrayBufferDone); (2%Z, DocumentDone 1);
               (10%Z, TaskEv 1 (GetPageDone true))])
           0 250 "img" [(600%Z, ArrayBufferDone)] 1000
           (ReplyText (Some "A")) "A");
    vm_compute; reflexivity.
Defined.

(** ** C10: empty answers and the missing key *)

Lemma performOCR_empty key text :
  key ≠ "" → or_else text "" = "" →
  performOCR key (ReplyText text) = (Throws (Some msg_empty_response), 1).
Proof.
  intros Hkey Htext. unfold performOCR.
  apply String.eqb_neq in Hkey. rewrite Hkey, Htext. simpl. done.
Qed.

Lemma performOCR_missing_key reply :
  performOCR "" reply = (Throws (Some msg_missing_key), 0).
Proof. done. Qed.

(** C10 as stated fails on the message: the error that leaves
    [performOCR] for an empty answer is not "Empty response from AI
    model." but that message re-wrapped by the function's own [catch]. *)
Lemma C10_counterexample :
  performOCR "key" (ReplyText None) =
    (Throws (Some "OCR Processing Failed: Empty response from AI model."), 1) ∧
  performOCR "key" (ReplyText (Some "")) =
    (Throws (Some "OCR Processing Failed: Empty response from AI model."), 1) ∧
  fst (performOCR "key" (ReplyText None))
    ≠ Throws (Some "Empty response from AI model.").
Proof. vm_compute. repeat split; done. Qed.

(** C10 (amended): if the extraction service returns an empty or absent
    text for a page, [performOCR] throws an error whose message is "OCR
    Processing Failed: Empty response from AI model." (the inner "Empty
    response from AI model." error re-wrapped by its own catch); the error
    is a true failure: the run is in status Error after that step and
    remains so, and when the handler was still awaiting the batch the
    message is the one shown.  If the API key is absent, [performOCR]
    throws without sending any request. *)
Theorem C10_empty_text_aborts_run
    key a name t0 evs now k imageData pStart text later :
  let s := run_from key a name t0 evs in
  let s' := step key s (now, TaskEv (S k) (OCRDone (ReplyText text))) in
  key ≠ "" → or_else text "" = "" →
  tasks (run s) !! k = Some (AwaitOCR imageData pStart) →
  performOCR key (ReplyText text) = (Throws (Some msg_empty_response), 1) ∧
  status (doc s') = error ∧
  status (doc (exec key s' later)) = error ∧
  (phase (run s) = AwaitBatch → apiError (app s') = Some msg_empty_response) ∧
  (∀ reply, performOCR "" reply = (Throws (Some msg_missing_key), 0)).
Proof.
  intros s s' Hkey Htext Hk.
  pose proof (performOCR_empty key text Hkey Htext) as Hocr.
  pose proof (inv_run key a name t0 evs) as HI. fold s in HI.
  assert (processPage_resume key (isTerminated (app s)) (S k) now
            (AwaitOCR imageData pStart) (OCRDone (ReplyText text))
          = Some (Rejected (Some msg_empty_response), None)) as Hres.
  { simpl. rewrite Hocr. done. }
  destruct (rejection_step key s now k _ _ _ _ HI Hk Hres) as (Hs & _ & Hmsg).
  fold s' in Hs, Hmsg.
  repeat split; try done.
  apply error_absorbing_exec; [by apply inv_step|done].
Qed.

Lemma C10_empty_text_aborts_run_witness :
  let s := run_from "key" initialApp "doc.pdf" 0 trace_one_of_two in
  let s' := step "key" s (30%Z, TaskEv 2 (OCRDone (ReplyText None))) in
  performOCR "key" (ReplyText None) = (Throws (Some msg_empty_response), 1) ∧
  status (doc s') = error ∧
  status (doc (exec "key" s' [(31%Z, Stop)])) = error ∧
  (phase (run s) = AwaitBatch → apiError (app s') = Some msg_empty_response) ∧
  (∀ reply, performOCR "" reply = (Throws (Some msg_missing_key), 0)).
Proof.
  apply (C10_empty_text_aborts_run "key" initialApp "doc.pdf" 0
           trace_one_of_two 30 1 "img" 20 None [(31%Z, Stop)]);
    vm_compute; first [reflexivity | discriminate].
Defined.

(** * Further properties *)

(** ** How a step changes the component state *)

Lemma after_loop_app now s :
  app (after_loop now s) = app s ∨
  (isTerminated (app s) = false ∧
   app (after_loop now s) =
     complete_app (array_sort compare_pages (results (run s)))
                  (now - fileStartTime (run s)) (app s)).
Proof. destruct s as [[d e []] r]; [by left|by right]. Qed.

Lemma loop_at_app now i s :
  app (loop_at now i s) = app s ∨
  (isTerminated (app s) = false ∧
   ∃ sorted duration, app (loop_at now i s) = complete_app sorted duration (app s)).
Proof.
  unfold loop_at. simpl. destruct (_ <? _).
  - destruct (isTerminated (app s)) eqn:Hf; [|by left].
    left. exact (after_loop_terminated now (mkSys (app s) (with_loop_i i (run s))) Hf).
  - destruct (after_loop_app now (mkSys (app s) (with_loop_i i (run s))))
      as [H|[Hf H]]; [by left|right]. split; [done|]. eauto.
Qed.

Lemma promise_all_app now t' s :
  app (promise_all now t' s) = app s ∨
  (∃ err, t' = Rejected err ∧ phase (run s) = AwaitBatch ∧
          app (promise_all now t' s) = catch_app err (app s)) ∨
  (¬ rejected t' ∧ phase (run s) = AwaitBatch ∧ isTerminated (app s) = false ∧
   ∃ sorted duration,
     app (promise_all now t' s) = complete_app sorted duration (app s)).
Proof.
  unfold promise_all. destruct (phase (run s)) eqn:Hph; try by left.
  destruct t' as [| | | r |err];
    try (destruct (forallb _ _); [|by left];
         match goal with |- context [loop_at now ?i ?s0] =>
           destruct (loop_at_app now i s0) as [H|[Hf H]]; [by left|];
           right; right; split; [by intros [? ?]|]; done
         end).
  right. left. by exists err.
Qed.

Section AppSteps.

Variable API_KEY : string.

Lemma step_app s ne :
  Inv s →
  AppStep API_KEY (totalPages (run s)) ne.2 (app s) (app (step API_KEY s ne)).
Proof.
  intros HI. destruct ne as [now e]. unfold step. simpl.
  pose proof (inv_flag s (inv_doc s HI)) as Hflag.
  assert (phase (run s) ≠ Returned → live (status (doc s))) as Hlive.
  { intros Hph. destruct (decide (status (doc s) = processing)) as [|Hn1];
      [by left|]. destruct (decide (status (doc s) = idle)) as [|Hn2];
      [by right|]. exfalso. apply Hph, inv_returned; [done|].
    intros [?|?]; done. }
  assert (∀ s0, app s0 = app s → phase (run s0) ≠ Returned →
                phase (run s0) = phase (run s) →
                AppStep API_KEY (totalPages (run s)) e (app s)
                        (app (loop_at now 0 s0))) as Hloop.
  { intros s0 Ha Hp Hp'. rewrite Hp' in Hp.
    destruct (loop_at_app now 0 s0) as [H|(Hf & sorted & dur & H)];
      rewrite H, Ha; [apply as_same|].
    rewrite Ha in Hf. rewrite Hf in Hflag.
    apply as_complete; [done|]. destruct (Hlive Hp); done. }
  destruct e as [| |err|n|err|n ev].
  - destruct (status (doc s)) eqn:Hs; try apply as_same. by apply as_stop.
  - destruct (phase (run s)); apply as_same.
  - destruct (phase (run s)) eqn:Hph; try apply as_same.
    apply (as_catch _ _ _ _ err); [done|]. by apply Hlive.
  - destruct (phase (run s)) eqn:Hph; try apply as_same.
    apply Hloop; simpl; by rewrite ?Hph.
  - destruct (phase (run s)) eqn:Hph; try apply as_same.
    apply (as_catch _ _ _ _ err); [done|]. by apply Hlive.
  - destruct n as [|k]; [apply as_same|].
    destruct (tasks (run s) !! k) as [t|] eqn:Hk; [|apply as_same].
    destruct (processPage_resume _ _ _ _ _ _) as [[t' pub]|] eqn:Hres;
      [|apply as_same].
    pose proof (inv_advance_task _ _ _ _ _ _ _ _ HI Hk Hres) as HI1.
    pose proof Hres as Hfacts.
    apply resume_facts in Hfacts as ((Hun & _) & _ & Hpub).
    pose proof (unresolved_not_completed s k t HI Hk Hun) as Hnc.
    set (s1 := advance_task k t' pub s) in *.
    assert (status (doc s1) = status (doc s)) as Hst by by destruct pub.
    assert (isTerminated (app s1) = isTerminated (app s)) as Hfl by by destruct pub.
    assert (phase (run s1) = phase (run s)) as Hph1 by done.
    assert (AppStep API_KEY (totalPages (run s)) (TaskEv (S k) ev) (app s) (app s1))
      as Hfirst.
    { destruct pub as [p|]; [|apply as_same].
      destruct (Hpub p eq_refl) as [_ Hf]. by apply as_page. }
    destruct (promise_all_app now t' s1)
      as [H|[(err & -> & Hph & H)|(Hnr & Hph & Hf & sorted & dur & H)]];
      rewrite H; [done| |].
    + apply resume_rejected_fails in Hres as [Hfails ->].
      apply (as_catch _ _ _ _ err); [done|].
      apply Hlive. rewrite <-Hph1, Hph. done.
    + assert (status (doc s) = processing) as Hproc.
      { rewrite Hfl in Hf. rewrite Hf in Hflag.
        destruct Hlive as [?|?]; [by rewrite <-Hph1, Hph|done..]. }
      rewrite Hfl in Hf.
      destruct pub as [p|]; [by apply as_page_complete|by apply as_complete].
Qed.

End AppSteps.

Lemma or_else_nonempty m d : d ≠ "" → or_else m d ≠ "".
Proof.
  intros Hd. unfold or_else. destruct m as [s|]; [|done].
  destruct (String.eqb_spec s ""); done.
Qed.

Lemma banner_step key total e a a' :
  Banner a → AppStep key total e a a' → Banner a'.
Proof.
  intros HB Hstep. unfold Banner in *.
  destruct Hstep as [|_ Hs|err _ Hl|p Hf Hs|sorted dur Hf Hs|p sorted dur Hf Hs];
    simpl; try done.
  - eexists. split; [done|]. by apply or_else_nonempty.
  - by rewrite Hs in HB.
  - by rewrite Hs in HB.
Qed.

Lemma meta_step key total e a a' name t0 :
  Meta name t0 (docState a) → AppStep key total e a a' →
  Meta name t0 (docState a').
Proof.
  intros (Hn & Ht & Hd) Hstep. unfold Meta.
  destruct Hstep as [|_ Hs|err _ Hl|p Hf Hs|sorted dur Hf Hs|p sorted dur Hf Hs];
    simpl; try done.
  - repeat split; try done. rewrite <-Hd, Hs. done.
  - repeat split; try done. rewrite <-Hd. destruct Hl as [-> | ->]; done.
Qed.

Section StateShape.

Variable API_KEY : string.

Lemma banner_exec s evs :
  Inv s → Banner (app s) → Banner (app (exec API_KEY s evs)).
Proof.
  revert s. induction evs as [|ne evs IH]; intros s HI HB; [done|].
  simpl. apply IH; [by apply inv_step|].
  eapply banner_step; [done|]. by apply step_app.
Qed.

Lemma meta_exec s evs name t0 :
  Inv s → Meta name t0 (doc s) → Meta name t0 (doc (exec API_KEY s evs)).
Proof.
  revert s. induction evs as [|ne evs IH]; intros s HI HM; [done|].
  simpl. apply IH; [by apply inv_step|].
  eapply meta_step; [done|]. by apply step_app.
Qed.

(** A resolved call is not waiting for anything. *)
Lemma completed_step s ne :
  Inv s → status (doc s) = completed → step API_KEY s ne = s.
Proof.
  intros HI Hc. destruct ne as [now e].
  destruct (inv_completed s HI Hc) as [Hall _].
  assert (phase (run s) = Returned) as Hph.
  { apply inv_returned; [done|]. rewrite Hc. intros [?|?]; done. }
  unfold step. simpl. rewrite Hph, Hc.
  destruct e as [| |err|n|err|n ev]; try done.
  destruct n as [|k]; [done|].
  destruct (tasks (run s) !! k) as [t|] eqn:Hk; [|done].
  rewrite Forall_lookup in Hall. specialize (Hall k t Hk).
  destruct t; done.
Qed.

(** With the flag set, a step can only turn the status into Error. *)
Lemma terminated_step s ne :
  Inv s → isTerminated (app s) = true →
  let s' := step API_KEY s ne in
  isTerminated (app s') = true ∧ pages (doc s') = pages (doc s) ∧
  (app s' = app s ∨ fails API_KEY ne.2 = true ∧ status (doc s') = error).
Proof.
  intros HI Hf s'. pose proof (step_app API_KEY s ne HI) as Hstep.
  fold s' in Hstep.
  pose proof (inv_flag s (inv_doc s HI)) as Hflag. rewrite Hf in Hflag.
  destruct Hstep as [|_ Hs|err Hfa Hl|p Hf' Hs|sorted dur Hf' Hs|p sorted dur Hf' Hs];
    simpl; try congruence.
  - repeat split; try done. by left.
  - destruct Hflag; congruence.
  - repeat split; try done. by right.
Qed.

Lemma terminated_exec s later :
  Inv s → isTerminated (app s) = true →
  isTerminated (app (exec API_KEY s later)) = true ∧
  pages (doc (exec API_KEY s later)) = pages (doc s).
Proof.
  revert s. induction later as [|ne later IH]; intros s HI Hf; [done|].
  simpl. destruct (terminated_step s ne HI Hf) as (Hf1 & Hp1 & _).
  destruct (IH _ (inv_step API_KEY s ne HI) Hf1) as [? Hp2].
  split; [done|]. by rewrite Hp2.
Qed.

End StateShape.

(** ** X1: a completed document is final *)

(** X1: once a run is Completed, no event of that run changes anything:
    neither the document state nor the handler's variables. *)
Theorem completed_is_final key a name t0 evs later :
  let s := run_from key a name t0 evs in
  status (doc s) = completed → exec key s later = s.
Proof.
  intros s Hc. pose proof (inv_run key a name t0 evs) as HI. fold s in HI.
  induction later as [|ne later IH]; [done|].
  simpl. by rewrite completed_step.
Qed.

Lemma completed_is_final_witness :
  exec "key" run_C_A_B
    [(50%Z, Stop); (51%Z, TaskEv 2 (OCRDone (ReplyText (Some "Z"))));
     (52%Z, DocumentFail None)]
  = run_C_A_B.
Proof.
  apply (completed_is_final "key" initialApp "doc.pdf" 0
           ([(1%Z, ArrayBufferDone); (2%Z, DocumentDone 3)]
              ++ page_ok 3 10 "C" ++ page_ok 1 20 "A" ++ page_ok 2 30 "B")).
  vm_compute. reflexivity.
Defined.

(** ** X2: a cancelled run never completes *)

(** X2: once the termination flag is set in a run, whatever happens later
    in that run (failures included) the flag stays set, the pages, the
    progress (0) and the empty full text stay as they are, and the status
    is Idle or Error: the run never becomes Processing or Completed
    again. *)
Theorem cancelled_run_never_completes key a name t0 evs later :
  let s := run_from key a name t0 evs in
  let s' := exec key s later in
  isTerminated (app s) = true →
  isTerminated (app s') = true ∧
  pages (doc s') = pages (doc s) ∧
  progress (doc s') = 0%Z ∧ fullText (doc s') = "" ∧
  (status (doc s') = idle ∨ status (doc s') = error).
Proof.
  intros s s' Hf.
  pose proof (inv_run key a name t0 evs) as HI. fold s in HI.
  destruct (terminated_exec key s later HI Hf) as [Hf' Hp].
  fold s' in Hf', Hp.
  pose proof (inv_exec key s later HI) as HI'. fold s' in HI'.
  pose proof (inv_flag s' (inv_doc s' HI')) as Hflag. rewrite Hf' in Hflag.
  pose proof (inv_progress s' (inv_doc s' HI')) as Hpr. rewrite Hf' in Hpr.
  repeat split; try done.
  apply (inv_text s' (inv_doc s' HI')). destruct Hflag; congruence.
Qed.

Lemma cancelled_run_never_completes_witness :
  let s := run_from "key" initialApp "doc.pdf" 0
             (trace_one_of_two ++ [(25%Z, Stop)]) in
  let s' := exec "key" s [page_2_refused] in
  isTerminated (app s') = true ∧
  pages (doc s') = pages (doc s) ∧
  progress (doc s') = 0%Z ∧ fullText (doc s') = "" ∧
  (status (doc s') = idle ∨ status (doc s') = error).
Proof.
  apply (cancelled_run_never_completes "key" initialApp "doc.pdf" 0
           (trace_one_of_two ++ [(25%Z, Stop)]) [page_2_refused]).
  vm_compute. reflexivity.
Defined.

(** ** X3: the banner goes with the status *)

Lemma inv_dismiss s : Inv s → Inv (dismiss s).
Proof. intros [[] ? ? ? ?]. split; [split|..]; done. Qed.

Lemma banner_weaken a : Banner a → BannerOrDismissed a.
Proof.
  unfold Banner, BannerOrDismissed, shows.
  destruct (status (docState a)); try done; [by left|].
  intros (m & ? & ?). exists m. split; [by left|done].
Qed.

Lemma banner_dismissed_step key total e a a' :
  BannerOrDismissed a → AppStep key total e a a' → BannerOrDismissed a'.
Proof.
  intros HB Hstep. unfold BannerOrDismissed, shows in *.
  destruct Hstep as [|_ Hs|err _ Hl|p Hf Hs|sorted dur Hf Hs|p sorted dur Hf Hs];
    simpl; try done.
  - by left.
  - eexists. split; [by left|]. by apply or_else_nonempty.
  - by rewrite Hs in HB.
  - by rewrite Hs in HB.
Qed.

Lemma banner_dismiss s :
  BannerOrDismissed (app s) → BannerOrDismissed (app (dismiss s)).
Proof.
  unfold BannerOrDismissed, shows. simpl.
  destruct (status (doc s)); try done; [by right|].
  intros _. exists "-". split; [by right|done].
Qed.

Section Sessions.

Variable API_KEY : string.

Lemma inv_act s x : Inv s → Inv (act API_KEY s x).
Proof. destruct x; [apply inv_step|apply inv_dismiss]. Qed.



Lemma banner_acts s xs :
  Inv s → BannerOrDismissed (app s) →
  BannerOrDismissed (app (foldl (act API_KEY) s xs)).
Proof.
  revert s. induction xs as [|x xs IH]; intros s HI HB; [done|].
  simpl. apply IH; [by apply inv_act|]. destruct x as [ne|].
  - eapply banner_dismissed_step; [done|]. by apply step_app.
  - by apply banner_dismiss.
Qed.

Lemma acts_deliver s xs :
  existsb is_dismiss xs = false →
  ∃ evs, foldl (act API_KEY) s xs = exec API_KEY s evs.
Proof.
  revert s. induction xs as [|[ne|] xs IH]; intros s Hx; [by exists []| |done].
  destruct (IH (step API_KEY s ne) Hx) as [evs Hevs].
  exists (ne :: evs). done.
Qed.

End Sessions.

(** X3: for an upload taken alone (no call of an earlier, cancelled
    upload is still in flight and no further upload is started), in every
    state of its run, dismissals of the banner included, the error banner
    goes with the status: there is none while Processing or Completed;
    when Idle it reads "Processing terminated by user." or has been
    dismissed; when Error it carries a non-empty message or has been
    dismissed.  As long as the banner is not dismissed it is there in the
    states Idle and Error. *)
Theorem banner_follows_status key a name t0 xs :
  let s := session key a name t0 xs in
  BannerOrDismissed (app s) ∧
  (existsb is_dismiss xs = false → Banner (app s)).
Proof.
  split.
  - apply banner_acts; [apply inv_start|done].
  - intros Hx. unfold session.
    destruct (acts_deliver key (start a name t0) xs Hx) as [evs ->].
    apply banner_exec; [apply inv_start|done].
Qed.

(** ** X4: the upload's metadata *)

(** X4: for an upload taken alone (no call of an earlier, cancelled
    upload is still in flight and no further upload is started), in every
    state of its run the document state carries the name of the uploaded
    file and the time of the upload, and [totalDurationMs] is defined
    exactly when the status is Completed. *)
Theorem metadata_of_the_upload key a name t0 evs :
  Meta name t0 (doc (run_from key a name t0 evs)).
Proof. apply meta_exec; [apply inv_start|]. repeat split; done. Qed.

(** ** What [performOCR] returns *)

Lemma performOCR_returns key reply text :
  fst (performOCR key reply) = Returns text →
  key ≠ "" ∧ text ≠ "" ∧ reply = ReplyText (Some text) ∧
  snd (performOCR key reply) = 1.
Proof.
  unfold performOCR. destruct (String.eqb_spec key "") as [|Hkey]; [done|].
  destruct reply as [[t|]|err]; simpl; try done.
  destruct (String.eqb_spec t "") as [|Ht]; simpl; [done|].
  destruct (String.eqb_spec t ""); [done|]. simpl. intros [= <-]. done.
Qed.

Lemma resume_filled key f n now t ev t' pub p :
  processPage_resume key f n now t ev = Some (t', pub) →
  t' = Resolved (Some p) → extractedText p ≠ "".
Proof.
  unfold processPage_resume. intros H ->.
  destruct t, ev; try done; simplify_eq.
  - destruct context; simplify_eq.
  - destruct f; simplify_eq.
  - destruct (performOCR key reply).1 eqn:Hocr; simplify_eq. simpl.
    by apply performOCR_returns in Hocr as (_ & ? & _).
Qed.

Lemma promise_all_phase_from now t' s :
  phase (run (promise_all now t' s)) = AwaitBatch →
  phase (run s) = AwaitBatch ∧ ¬ rejected t'.
Proof.
  unfold promise_all. destruct (phase (run s)) eqn:Hph; try congruence.
  destruct t'; try (intros _; split; [done|by intros [? ?]]). done.
Qed.

Section Calls.

Variable API_KEY : string.

(** The calls after a step on a page: the one that moved, the others
    untouched, and possibly fresh ones behind. *)
Lemma step_tasks s now k t ev t' pub :
  tasks (run s) !! k = Some t →
  processPage_resume API_KEY (isTerminated (app s)) (S k) now t ev
    = Some (t', pub) →
  ∃ calls, tasks (run (step API_KEY s (now, TaskEv (S k) ev)))
             = <[k:=t']> (tasks (run s)) ++ calls ∧
           Forall (λ c, c = AwaitGetPage) calls.
Proof.
  intros Hk Hres. unfold step. simpl. rewrite Hk, Hres.
  destruct (promise_all_frame now t' (advance_task k t' pub s))
    as (_ & (calls & Ht & Hc) & _).
  exists calls. by rewrite Ht.
Qed.

(** A property of the calls that fresh calls have and that the moved call
    gets is kept by every step. *)
Lemma tasks_forall_step (P : Task → Prop) s ne :
  P AwaitGetPage →
  (∀ k t t' pub ev,
     tasks (run s) !! k = Some t →
     processPage_resume API_KEY (isTerminated (app s)) (S k) ne.1 t ev
       = Some (t', pub) → P t') →
  Forall P (tasks (run s)) → Forall P (tasks (run (step API_KEY s ne))).
Proof.
  intros Hfresh Hmoved Hall. destruct ne as [now e].
  assert (∀ calls, Forall (λ c, c = AwaitGetPage) calls → Forall P calls)
    as Hcalls.
  { intros calls Hc. eapply Forall_impl; [exact Hc|]. by intros ? ->. }
  destruct e as [| |err|n|err|n ev]; unfold step; simpl.
  - by destruct (status (doc s)).
  - by destruct (phase (run s)).
  - by destruct (phase (run s)).
  - destruct (phase (run s)); try done.
    destruct (loop_at_frame now 0 (mkSys (app s) (with_totalPages n (run s))))
      as (_ & (calls & -> & Hc) & _). simpl.
    apply Forall_app. split; [done|by apply Hcalls].
  - by destruct (phase (run s)).
  - destruct n as [|k]; [done|].
    destruct (tasks (run s) !! k) as [t|] eqn:Hk; [|done].
    destruct (processPage_resume _ _ _ _ _ _) as [[t' pub]|] eqn:Hres; [|done].
    destruct (promise_all_frame now t' (advance_task k t' pub s))
      as (_ & (calls & -> & Hc) & _). simpl.
    apply Forall_app. split; [|by apply Hcalls].
    apply Forall_insert; [done|]. by eapply Hmoved.
Qed.

Lemma filled_exec s evs : Filled s → Filled (exec API_KEY s evs).
Proof.
  revert s. induction evs as [|ne evs IH]; intros s Hs; [done|].
  simpl. apply IH. unfold Filled. apply tasks_forall_step; [done| |done].
  intros k t t' pub ev _ Hres p Hp. by eapply resume_filled.
Qed.

Lemma unrejected_step s ne :
  Inv s → Unrejected s → Unrejected (step API_KEY s ne).
Proof.
  intros HI HU Hph. destruct ne as [now e].
  destruct e as [| |err|n|err|n ev]; unfold step in *; simpl in *.
  - destruct (status (doc s)); by apply HU.
  - destruct (phase (run s)); by apply HU.
  - destruct (phase (run s)); by apply HU.
  - destruct (phase (run s)) eqn:Hp; try by apply HU.
    pose proof (inv_phase s HI) as H. rewrite Hp in H. destruct H as [Hnil _].
    destruct (loop_at_frame now 0 (mkSys (app s) (with_totalPages n (run s))))
      as (_ & (calls & -> & Hc) & _). simpl. rewrite Hnil. simpl.
    eapply Forall_impl; [exact Hc|]. intros ? -> [? ?]. done.
  - destruct (phase (run s)); by apply HU.
  - destruct n as [|k]; [by apply HU|].
    destruct (tasks (run s) !! k) as [t|] eqn:Hk; [|by apply HU].
    destruct (processPage_resume _ _ _ _ _ _) as [[t' pub]|] eqn:Hres;
      [|by apply HU].
    apply promise_all_phase_from in Hph as Hfrom. destruct Hfrom as [Hp Hnr].
    destruct (promise_all_frame now t' (advance_task k t' pub s))
      as (_ & (calls & -> & Hc) & _). simpl.
    apply Forall_app. split.
    + apply Forall_insert; [by apply HU|done].
    + eapply Forall_impl; [exact Hc|]. intros ? -> [? ?]. done.
Qed.

Lemma unrejected_run a name now evs :
  Unrejected (run_from API_KEY a name now evs).
Proof.
  assert (∀ s, Inv s → Unrejected s → Unrejected (exec API_KEY s evs)) as G.
  { induction evs as [|ne evs IH]; intros s HI Hs; simpl; [done|].
    apply IH; [by apply inv_step|by apply unrejected_step]. }
  apply G; [apply inv_start|]. unfold Unrejected. done.
Qed.

End Calls.

Lemma count_outstanding_pos (ts : list Task) :
  Exists (λ t, is_resolved t = false) ts → Forall (λ t, ¬ rejected t) ts →
  1 ≤ count_outstanding ts.
Proof.
  unfold count_outstanding.
  induction 1 as [t ts Ht|t ts Hex IH]; intros Hnr; simpl.
  - apply Forall_cons in Hnr as [Hnr _].
    destruct t; simpl; try lia; [done|]. destruct Hnr. by eexists.
  - apply Forall_cons in Hnr as [_ Hnr]. specialize (IH Hnr).
    destruct (is_outstanding t); simpl; lia.
Qed.

(** ** X5: the pages shown belong to the document *)

(** X5: for an upload taken alone (no call of an earlier, cancelled
    upload is still in flight and no further upload is started), in every
    state of its run every page in [pages] has a page number between 1
    and the number of pages of the document and a non-empty text, and
    there are at most as many pages as the document has. *)
Theorem pages_belong_to_document key a name t0 evs :
  let s := run_from key a name t0 evs in
  Forall (λ p, 1 ≤ pageNumber p ≤ totalPages (run s) ∧ extractedText p ≠ "")
         (pages (doc s)) ∧
  length (pages (doc s)) ≤ totalPages (run s).
Proof.
  intros s. pose proof (inv_run key a name t0 evs) as HI. fold s in HI.
  assert (Filled s) as HF by (apply filled_exec; constructor).
  pose proof (inv_total s (inv_doc s HI)) as Hlen. split.
  - apply Forall_forall. intros p Hp.
    destruct (inv_pages s (inv_doc s HI) p Hp) as [k Hk].
    rewrite (inv_tasks s (inv_doc s HI) k p Hk).
    pose proof (lookup_lt_Some _ _ _ Hk). split; [lia|].
    unfold Filled in HF. rewrite Forall_lookup in HF. by eapply HF.
  - pose proof (docinv_pages_bound s (inv_doc s HI)). lia.
Qed.

(** ** X6: a run in Processing has something in flight *)

(** X6: while the status is Processing the handler is waiting for the
    file, for the document, or for a batch of which between 1 and 12
    calls are still outstanding: the run cannot be stuck with nothing in
    flight. *)
Theorem processing_has_work_in_flight key a name t0 evs :
  let s := run_from key a name t0 evs in
  status (doc s) = processing →
  phase (run s) = AwaitArrayBuffer ∨ phase (run s) = AwaitDocument ∨
  (phase (run s) = AwaitBatch ∧
   1 ≤ count_outstanding (tasks (run s)) ≤ concurrencyLimit).
Proof.
  intros s Hs. pose proof (inv_run key a name t0 evs) as HI. fold s in HI.
  pose proof (pending_run key a name t0 evs) as HP. fold s in HP.
  pose proof (unrejected_run key a name t0 evs) as HU. fold s in HU.
  pose proof (inv_phase s HI) as Hph. rewrite Hs in Hph.
  destruct (phase (run s)) eqn:Hp; try done; [by left|by right; left|].
  right. right. split; [done|]. split.
  - apply count_outstanding_pos; [by apply HP|by apply HU].
  - apply (count_outstanding_le _ (loop_i (run s)));
      [apply (inv_prefix s HI)|apply (inv_window s HI)].
Qed.

Lemma processing_has_work_in_flight_witness :
  let s := run_from "key" initialApp "doc.pdf" 0 trace_25_first_batch in
  phase (run s) = AwaitArrayBuffer ∨ phase (run s) = AwaitDocument ∨
  (phase (run s) = AwaitBatch ∧
   1 ≤ count_outstanding (tasks (run s)) ≤ concurrencyLimit).
Proof.
  apply (processing_has_work_in_flight "key" initialApp "doc.pdf" 0
           trace_25_first_batch).
  vm_compute. reflexivity.
Defined.

(** ** X7: durations are not negative when the clock does not go back *)

Lemma after_loop_total now s :
  totalDurationMs (doc (after_loop now s)) = totalDurationMs (doc s) ∨
  totalDurationMs (doc (after_loop now s)) = Some (now - fileStartTime (run s))%Z.
Proof. destruct s as [[d e []] r]; [by left|by right]. Qed.

Lemma after_loop_start now s :
  fileStartTime (run (after_loop now s)) = fileStartTime (run s).
Proof. destruct s as [[d e []] r]; done. Qed.

Lemma loop_at_total now i s :
  fileStartTime (run (loop_at now i s)) = fileStartTime (run s) ∧
  (totalDurationMs (doc (loop_at now i s)) = totalDurationMs (doc s) ∨
   totalDurationMs (doc (loop_at now i s)) = Some (now - fileStartTime (run s))%Z).
Proof.
  unfold loop_at. simpl. destruct (_ <? _).
  - destruct (isTerminated (app s)); [|by split; [|left]].
    split; [apply (after_loop_start now (mkSys (app s) (with_loop_i i (run s))))
           |apply (after_loop_total now (mkSys (app s) (with_loop_i i (run s))))].
  - split; [apply (after_loop_start now (mkSys (app s) (with_loop_i i (run s))))
           |apply (after_loop_total now (mkSys (app s) (with_loop_i i (run s))))].
Qed.

Lemma promise_all_total now t' s :
  fileStartTime (run (promise_all now t' s)) = fileStartTime (run s) ∧
  (totalDurationMs (doc (promise_all now t' s)) = totalDurationMs (doc s) ∨
   totalDurationMs (doc (promise_all now t' s)) = Some (now - fileStartTime (run s))%Z).
Proof.
  unfold promise_all. destruct (phase (run s)); try by split; [|left].
  destruct (forallb _ _).
  - destruct t'; try (by split; [|left]);
      exact (loop_at_total now _ (mkSys (app s) (with_results _ (run s)))).
  - destruct t'; by split; [|left].
Qed.

Lemma timed_task_mono c c' t : (c ≤ c')%Z → timed_task c t → timed_task c' t.
Proof. intros Hc. destruct t as [| | | [p|] |]; simpl; try done. lia. Qed.

Section Clock.

Variable API_KEY : string.

Lemma step_total s now e :
  fileStartTime (run (step API_KEY s (now, e))) = fileStartTime (run s) ∧
  (totalDurationMs (doc (step API_KEY s (now, e))) = totalDurationMs (doc s) ∨
   totalDurationMs (doc (step API_KEY s (now, e)))
     = Some (now - fileStartTime (run s))%Z).
Proof.
  unfold step. simpl. destruct e as [| |err|n|err|n ev].
  - destruct (status (doc s)); by split; [|left].
  - destruct (phase (run s)); by split; [|left].
  - destruct (phase (run s)); by split; [|left].
  - destruct (phase (run s)); try by split; [|left].
    exact (loop_at_total now 0 (mkSys (app s) (with_totalPages n (run s)))).
  - destruct (phase (run s)); by split; [|left].
  - destruct n as [|k]; [by split; [|left]|].
    destruct (tasks (run s) !! k) as [t|]; [|by split; [|left]].
    destruct (processPage_resume _ _ _ _ _ _) as [[t' pub]|];
      [|by split; [|left]].
    destruct (promise_all_total now t' (advance_task k t' pub s)) as [-> H].
    split; [done|]. by destruct pub.
Qed.

Lemma timed_step c s ne :
  Timed c s → (c ≤ ne.1)%Z → Timed ne.1 (step API_KEY s ne).
Proof.
  intros [Hstart Htasks Htotal] Hc. destruct ne as [now e]. simpl in *.
  destruct (step_total s now e) as [Hst Htot].
  split.
  - rewrite Hst. lia.
  - apply (tasks_forall_step API_KEY (timed_task now) s (now, e)); [done| |].
    + intros k t t' pub ev Hk Hres. simpl in Hres.
      rewrite Forall_lookup in Htasks. specialize (Htasks k t Hk).
      unfold processPage_resume in Hres.
      destruct t, ev; try done; simplify_eq; simpl; try done.
      * destruct context; simplify_eq; done.
      * destruct (isTerminated (app s)); simplify_eq; simpl; [done|lia].
      * destruct (performOCR API_KEY reply).1; simplify_eq; simpl in *;
          [lia|done].
    + eapply Forall_impl; [exact Htasks|]. intros t. by apply timed_task_mono.
  - intros d Hd. destruct Htot as [Heq|Heq]; rewrite Heq in Hd.
    + by apply Htotal.
    + simplify_eq. lia.
Qed.

Lemma timed_exec c s evs :
  Timed c s → clock_advances c evs = true →
  ∃ c', Timed c' (exec API_KEY s evs).
Proof.
  revert c s. induction evs as [|ne evs IH]; intros c s HT Hevs; [by exists c|].
  simpl in Hevs. apply andb_true_iff in Hevs as [Hc Hevs].
  apply Z.leb_le in Hc. simpl. apply (IH ne.1); [|done].
  by apply (timed_step c).
Qed.

End Clock.

(** X7: if the clock readings never go back, from the upload on, then
    in every state of the run the [durationMs] of every page shown is at
    least 0, and so is [totalDurationMs] when it is defined. *)
Theorem durations_are_not_negative key a name t0 evs :
  let s := run_from key a name t0 evs in
  clock_advances t0 evs = true →
  Forall (λ p, (0 ≤ durationMs p)%Z) (pages (doc s)) ∧
  (∀ d, totalDurationMs (doc s) = Some d → (0 ≤ d)%Z).
Proof.
  intros s Hclock.
  pose proof (inv_run key a name t0 evs) as HI. fold s in HI.
  destruct (timed_exec key t0 (start a name t0) evs) as [c [_ Ht Htot]];
    [|done|].
  { split; simpl; [lia|constructor|done]. }
  fold (run_from key a name t0 evs) in Ht, Htot. fold s in Ht, Htot.
  split; [|done]. apply Forall_forall. intros p Hp.
  destruct (inv_pages s (inv_doc s HI) p Hp) as [k Hk].
  rewrite Forall_lookup in Ht. apply (Ht k _ Hk).
Qed.

Lemma durations_are_not_negative_witness :
  Forall (λ p, (0 ≤ durationMs p)%Z) (pages (doc run_C_A_B)) ∧
  (∀ d, totalDurationMs (doc run_C_A_B) = Some d → (0 ≤ d)%Z).
Proof.
  apply (durations_are_not_negative "key" initialApp "doc.pdf" 0
           ([(1%Z, ArrayBufferDone); (2%Z, DocumentDone 3)]
              ++ page_ok 3 10 "C" ++ page_ok 1 20 "A" ++ page_ok 2 30 "B")).
  vm_compute. reflexivity.
Defined.

(** ** X8: the results are pushed in page order *)

Lemma looppre_results_sorted i s :
  LoopPre i s → StronglySorted lt (keys (results (run s))).
Proof.
  intros [HD _ Hr _ _ _]. rewrite Hr.
  apply (omap_page_of_keys _ 0), (inv_tasks s HD).
Qed.

Lemma pushed_loop_at now i s : LoopPre i s → Pushed (loop_at now i s).
Proof.
  intros Hpre. pose proof (looppre_results_sorted i s Hpre) as Hsorted.
  destruct Hpre as [_ _ Hr Hlen _ _].
  assert (take i (tasks (run s)) = tasks (run s)) as Htake
    by (apply take_ge; lia).
  assert (Pushed (after_loop now (mkSys (app s) (with_loop_i i (run s)))))
    as Hafter.
  { unfold Pushed, after_loop. simpl.
    destruct (isTerminated (app s)); simpl; rewrite Htake; [done|].
    by rewrite array_sort_id. }
  unfold loop_at. simpl. rewrite length_pageNumbers.
  destruct (Nat.ltb_spec i (totalPages (run s))) as [Hlt|]; [|done].
  destruct (isTerminated (app s)); [done|].
  unfold Pushed. simpl. rewrite take_app_length' by lia. done.
Qed.

Section Results.

Variable API_KEY : string.

Lemma pushed_step s ne : Inv s → Pushed s → Pushed (step API_KEY s ne).
Proof.
  intros HI HP. destruct ne as [now e]. unfold step. simpl.
  destruct e as [| |err|n|err|n ev].
  - by destruct (status (doc s)).
  - by destruct (phase (run s)).
  - by destruct (phase (run s)).
  - destruct (phase (run s)) eqn:Hph; try done.
    apply pushed_loop_at.
    pose proof (inv_phase s HI) as H. rewrite Hph in H.
    destruct H as (Hnil & Hres & HT & Hi & Hl).
    destruct HI as [[H1 H2 H3 H4 H5 H6 H7] _ _ _ _].
    destruct s as [[d e f] [T t0 rs i ph ts]]. simpl in *. subst.
    split; [split|..]; simpl; try done.
    + lia.
    + assert (pages d = []) as Hnil.
      { destruct (pages d) as [|p ps]; [done|].
        destruct (H2 p) as [k Hk]; [by left|]. done. }
      rewrite H7, Hnil. destruct f; [done|]. simpl.
      rewrite !round_percent_zero. destruct Hl as [-> | ->]; done.
  - by destruct (phase (run s)).
  - destruct n as [|k]; [done|].
    destruct (tasks (run s) !! k) as [t|] eqn:Hk; [|done].
    destruct (processPage_resume _ _ _ _ _ _) as [[t' pub]|] eqn:Hres; [|done].
    pose proof (inv_advance_task _ _ _ _ _ _ _ _ HI Hk Hres) as HI1.
    apply resume_facts in Hres as ((Hun & _) & _ & _).
    assert (loop_i (run s) ≤ k) as Hik.
    { destruct (decide (loop_i (run s) ≤ k)); [done|]. exfalso.
      pose proof (inv_prefix s HI) as Hpre.
      rewrite Forall_lookup in Hpre. specialize (Hpre k t).
      rewrite lookup_take_lt in Hpre by lia. specialize (Hpre Hk).
      unfold resolved in Hpre. congruence. }
    assert (Pushed (advance_task k t' pub s)) as HP1.
    { unfold Pushed, advance_task. simpl. by rewrite take_insert_ge. }
    set (s1 := advance_task k t' pub s) in *.
    unfold promise_all. destruct (phase (run s1)) eqn:Hph; try done.
    assert (Pushed
      (if forallb is_resolved (drop (loop_i (run s1)) (tasks (run s1)))
       then loop_at now (loop_i (run s1) + concurrencyLimit)
              (mkSys (app s1)
                 (with_results
                    (results (run s1) ++
                     omap page_of (drop (loop_i (run s1)) (tasks (run s1))))
                    (run s1)))
       else s1)) as G.
    { destruct (forallb _ _) eqn:Hall; [|done].
      apply pushed_loop_at, looppre_push; try done.
      by apply forallb_resolved. }
    destruct t'; done.
Qed.

Lemma pushed_run a name now evs : Pushed (run_from API_KEY a name now evs).
Proof.
  assert (∀ s, Inv s → Pushed s → Pushed (exec API_KEY s evs)) as G.
  { induction evs as [|ne evs IH]; intros s HI Hs; simpl; [done|].
    apply IH; [by apply inv_step|by apply pushed_step]. }
  apply G; [apply inv_start|done].
Qed.

End Results.

(** X8: in every state of a run the results pushed by the handler are in
    strictly ascending order of page number, whatever the order in which
    the calls completed, so that sorting them, as the handler does before
    it completes, changes nothing. *)
Theorem results_are_in_page_order key a name t0 evs :
  let s := run_from key a name t0 evs in
  StronglySorted lt (keys (results (run s))) ∧
  array_sort compare_pages (results (run s)) = results (run s).
Proof.
  intros s. pose proof (inv_run key a name t0 evs) as HI. fold s in HI.
  pose proof (pushed_run key a name t0 evs) as HP. fold s in HP.
  assert (StronglySorted lt (keys (results (run s)))) as Hs.
  { rewrite HP. apply (omap_page_of_keys _ 0). intros k p Hk.
    apply lookup_take_Some in Hk as [Hk _].
    apply (inv_tasks s (inv_doc s HI) k p Hk). }
  split; [done|]. by apply array_sort_id.
Qed.

(** ** X9: a run in which every page goes through completes *)

Lemma performOCR_text key text :
  key ≠ "" → text ≠ "" →
  performOCR key (ReplyText (Some text)) = (Returns text, 1).
Proof.
  intros Hkey Htext. unfold performOCR.
  apply String.eqb_neq in Hkey, Htext. rewrite Hkey. unfold or_else.
  rewrite Htext. cbv iota. by rewrite Htext.
Qed.

Lemma omap_page_of_all (g : nat → OCRPage) (ts : list Task) off :
  (∀ j, j < length ts → ts !! j = Some (Resolved (Some (g (off + j))))) →
  omap page_of ts = map g (seq off (length ts)).
Proof.
  revert off. induction ts as [|t ts IH]; intros off H; simpl; [done|].
  pose proof (H 0 ltac:(simpl; lia)) as H0. simpl in H0. simplify_eq.
  simpl. rewrite Nat.add_0_r. f_equal. apply IH.
  intros j Hj. specialize (H (S j) ltac:(simpl; lia)). simpl in H.
  rewrite H. by replace (off + S j) with (S off + j) by lia.
Qed.

Section Liveness.

Variable API_KEY : string.

Lemma step_no_new_error s ne :
  Inv s → fails API_KEY ne.2 = false → status (doc s) ≠ error →
  status (doc (step API_KEY s ne)) ≠ error.
Proof.
  intros HI Hfails Hs. pose proof (step_app API_KEY s ne HI) as Hstep.
  destruct Hstep as [|_ _|err Hfa _|p _ _|sorted dur _ _|p sorted dur _ _];
    simpl; try done. congruence.
Qed.

Lemma step_totalPages s now k ev :
  totalPages (run (step API_KEY s (now, TaskEv k ev))) = totalPages (run s).
Proof.
  unfold step. simpl. destruct k as [|k]; [done|].
  destruct (tasks (run s) !! k) as [t|]; [|done].
  destruct (processPage_resume _ _ _ _ _ _) as [[t' pub]|]; [|done].
  by destruct (promise_all_frame now t' (advance_task k t' pub s))
    as (_ & _ & ->).
Qed.

Lemma served_step f k s now ev c c' pub :
  Served f k s → tasks (run s) !! k = Some c →
  processPage_resume API_KEY false (S k) now c ev = Some (c', pub) →
  fails API_KEY (TaskEv (S k) ev) = false →
  lacks_context (TaskEv (S k) ev) = false →
  let s' := step API_KEY s (now, TaskEv (S k) ev) in
  Served f k s' ∧ tasks (run s') !! k = Some c' ∧
  totalPages (run s') = totalPages (run s).
Proof.
  intros [HI HP HC Hok Hdone Hrest] Hk Hres Hfails Hlacks s'.
  pose proof (clean_flag s HC) as Hf. rewrite <-Hf in Hres.
  destruct (step_tasks API_KEY s now k c ev c' pub Hk Hres)
    as (calls & Ht & Hcalls). fold s' in Ht.
  pose proof (lookup_lt_Some _ _ _ Hk) as Hlen.
  split; [split|split].
  - by apply inv_step.
  - by apply pending_step.
  - by apply clean_step.
  - by apply step_no_new_error.
  - intros j Hj. rewrite Ht. apply lookup_app_l_Some.
    rewrite list_lookup_insert_ne by lia. by apply Hdone.
  - intros j t Hj Hjt. rewrite Ht in Hjt.
    apply lookup_app_Some in Hjt as [Hjt|[_ Hjt]].
    + rewrite list_lookup_insert_ne in Hjt by lia. by eapply Hrest.
    + rewrite Forall_lookup in Hcalls. by eapply Hcalls.
  - rewrite Ht. apply lookup_app_l_Some. by apply list_lookup_insert_eq.
  - apply step_totalPages.
Qed.

(** The call for the next page has been made. *)
Lemma next_call_exists f k s :
  Served f k s → k < totalPages (run s) → is_Some (tasks (run s) !! k).
Proof.
  intros [HI HP HC Hok Hdone Hrest] Hk.
  destruct (tasks (run s) !! k) as [t|] eqn:Hlook; [by eexists|]. exfalso.
  apply lookup_ge_None in Hlook.
  assert (Forall resolved (tasks (run s))) as Hall.
  { apply Forall_lookup. intros j t Hj.
    pose proof (lookup_lt_Some _ _ _ Hj).
    rewrite Hdone in Hj by lia. by simplify_eq. }
  pose proof (inv_phase s HI) as Hph.
  pose proof (inv_flag s (inv_doc s HI)) as Hflag.
  rewrite (clean_flag s HC) in Hflag.
  destruct (phase (run s)) eqn:Hp.
  - destruct Hph as (_ & _ & HT & _). lia.
  - destruct Hph as (_ & _ & HT & _). lia.
  - specialize (HP Hp). apply Exists_exists in HP as (t & Hin & Ht).
    rewrite Forall_forall in Hall. specialize (Hall t Hin).
    unfold resolved in Hall. congruence.
  - destruct (status (doc s)); try done. destruct Hph as (_ & HT & _). lia.
Qed.

Lemma serve_page f k s t :
  API_KEY ≠ "" → f (S k) ≠ "" →
  Served f k s → k < totalPages (run s) →
  (∀ c, tasks (run s) !! k = Some c → c = AwaitGetPage) →
  let s' := exec API_KEY s (page_ok (S k) t (f (S k))) in
  Served f (S k) s' ∧ totalPages (run s') = totalPages (run s) ∧
  (∀ c, tasks (run s') !! S k = Some c → c = AwaitGetPage).
Proof.
  intros Hkey Htext HS Hk Hcur s'.
  destruct (next_call_exists f k s HS Hk) as [c Hc].
  pose proof (Hcur c Hc) as ->.
  destruct (served_step f k s t (GetPageDone true) _ _ _ HS Hc eq_refl)
    as (HS1 & Hc1 & HT1); [done..|].
  destruct (served_step f k _ t (RenderDone "img") _ _ _ HS1 Hc1 eq_refl)
    as (HS2 & Hc2 & HT2); [done..|].
  assert (processPage_resume API_KEY false (S k) (t + 5) (AwaitOCR "img" t)
            (OCRDone (ReplyText (Some (f (S k)))))
          = Some (Resolved (Some (page_of_run f (S k))),
                  Some (page_of_run f (S k)))) as Hres.
  { simpl. rewrite performOCR_text by done. simpl. unfold page_of_run.
    by replace (t + 5 - t)%Z with 5%Z by lia. }
  destruct (served_step f k _ (t + 5)
              (OCRDone (ReplyText (Some (f (S k))))) _ _ _ HS2 Hc2 Hres)
    as (HS3 & Hc3 & HT3).
  { simpl. by rewrite performOCR_text. }
  { done. }
  destruct HS3 as [HI HP HC Hok Hdone Hrest].
  split; [|split; [unfold s'; simpl; congruence|]].
  - split; try done.
    + intros j Hj. destruct (decide (j = k)) as [->|]; [done|].
      apply Hdone. lia.
    + intros j c Hj. apply Hrest. lia.
  - intros c. apply Hrest. lia.
Qed.

Lemma serve_pages f s k n :
  API_KEY ≠ "" → (∀ j, f j ≠ "") →
  Served f k s → k + n = totalPages (run s) →
  (∀ c, tasks (run s) !! k = Some c → c = AwaitGetPage) →
  let s' := exec API_KEY s
              (flat_map (λ j, page_ok j (Z.of_nat j) (f j)) (seq (S k) n)) in
  Served f (k + n) s' ∧ totalPages (run s') = totalPages (run s).
Proof.
  intros Hkey Htext. revert s k.
  induction n as [|n IH]; intros s k HS HT Hcur.
  - simpl. rewrite Nat.add_0_r. done.
  - cbn [seq flat_map]. unfold exec. rewrite foldl_app. fold (exec API_KEY).
    destruct (serve_page f k s (Z.of_nat (S k)) Hkey (Htext _) HS)
      as (HS1 & HT1 & Hnext); [lia|done|].
    destruct (IH _ (S k) HS1) as [HS2 HT2]; [lia|done|].
    replace (k + S n) with (S k + n) by lia.
    split; [exact HS2|]. etrans; [exact HT2|exact HT1].
Qed.

Lemma served_all_completed f s :
  Served f (totalPages (run s)) s → 0 < totalPages (run s) →
  status (doc s) = completed ∧
  pages (doc s) = map (page_of_run f) (seq 1 (totalPages (run s))).
Proof.
  intros [HI HP HC Hok Hdone Hrest] HT.
  pose proof (inv_total s (inv_doc s HI)) as Hle.
  assert (length (tasks (run s)) = totalPages (run s)) as Hlen.
  { pose proof (Hdone (totalPages (run s) - 1) ltac:(lia)) as H.
    apply lookup_lt_Some in H. lia. }
  assert (Forall resolved (tasks (run s))) as Hall.
  { apply Forall_lookup. intros j t Hj.
    pose proof (lookup_lt_Some _ _ _ Hj).
    rewrite Hdone in Hj by lia. by simplify_eq. }
  assert (status (doc s) = completed) as Hc.
  { pose proof (inv_phase s HI) as Hph.
    pose proof (inv_flag s (inv_doc s HI)) as Hflag.
    rewrite (clean_flag s HC) in Hflag.
    destruct (phase (run s)) eqn:Hp.
    - destruct Hph as (_ & _ & ? & _). lia.
    - destruct Hph as (_ & _ & ? & _). lia.
    - specialize (HP Hp). apply Exists_exists in HP as (t & Hin & Ht).
      rewrite Forall_forall in Hall. specialize (Hall t Hin).
      unfold resolved in Hall. congruence.
    - by destruct (status (doc s)). }
  split; [done|].
  destruct (inv_completed s HI Hc) as (_ & _ & Hres & Hpages & _).
  rewrite Hpages, Hres.
  rewrite (omap_page_of_all (λ j, page_of_run f (S j)) _ 0).
  - rewrite Hlen, <-fmap_S_seq. by rewrite <-list_fmap_compose.
  - intros j Hj. apply Hdone. lia.
Qed.

End Liveness.

(** X9: for every page count and every non-empty text per page, when the
    key is set and every page is fetched, rendered and extracted without
    incident, one page after the other, the run ends Completed with
    exactly the pages 1..T in order, each with its text, the joined full
    text and progress 100. *)
Theorem undisturbed_run_completes key a name t0 t1 t2 total (f : nat → string) :
  let s := run_from key a name t0
             ([(t1, ArrayBufferDone); (t2, DocumentDone total)]
                ++ all_pages_ok f total) in
  key ≠ "" → (∀ n, f n ≠ "") →
  status (doc s) = completed ∧
  pages (doc s) = map (page_of_run f) (seq 1 total) ∧
  fullText (doc s) = String.concat SEP (map f (seq 1 total)) ∧
  progress (doc s) = 100%Z.
Proof.
  intros s Hkey Htext.
  pose proof (inv_run key a name t0
                ([(t1, ArrayBufferDone); (t2, DocumentDone total)]
                   ++ all_pages_ok f total)) as HI. fold s in HI.
  assert (status (doc s) = completed ∧
          pages (doc s) = map (page_of_run f) (seq 1 total)) as [Hc Hp].
  { destruct total as [|total]; [done|].
    set (s0 := run_from key a name t0
                 [(t1, ArrayBufferDone); (t2, DocumentDone (S total))]).
    assert (s = exec key s0 (all_pages_ok f (S total))) as Hs.
    { unfold s, s0, run_from, exec. by rewrite foldl_app. }
    assert (totalPages (run s0) = S total) as HT0 by done.
    assert (Served f 0 s0) as HS0.
    { split.
      - apply inv_run.
      - apply pending_run.
      - apply clean_exec; [split; [done|constructor]|done].
      - done.
      - intros j Hj. lia.
      - intros j t _ Hj. unfold s0 in Hj. simpl in Hj.
        apply list_elem_of_lookup_2, elem_of_cons in Hj as [->|Hj]; [done|].
        apply list_elem_of_In, in_map_iff in Hj as (x & <- & _). done. }
    destruct (serve_pages key f s0 0 (S total) Hkey Htext HS0) as [HS HT];
      [by rewrite HT0| |].
    { intros c Hc. unfold s0 in Hc. simpl in Hc. by simplify_eq. }
    change (flat_map _ (seq 1 (S total))) with (all_pages_ok f (S total))
      in HS, HT.
    rewrite <-Hs in HS, HT. rewrite HT0 in HT.
    change (0 + S total) with (S total) in HS.
    rewrite <-HT in HS at 1. rewrite <-HT.
    apply (served_all_completed f s HS). lia. }
  split; [done|]. split; [done|].
  destruct (inv_completed s HI Hc) as (_ & _ & _ & _ & Htext').
  split.
  - rewrite Htext', Hp. f_equal. rewrite map_map. done.
  - pose proof (inv_progress s (inv_doc s HI)) as Hpr.
    pose proof (inv_flag s (inv_doc s HI)) as Hfl.
    rewrite Hc in Hpr, Hfl.
    destruct (isTerminated (app s)); [destruct Hfl; done|done].
Qed.

Lemma undisturbed_run_completes_witness :
  let f := λ n : nat, if Nat.even n then "even" else "odd" in
  let s := run_from "key" initialApp "doc.pdf" 0
             ([(1%Z, ArrayBufferDone); (2%Z, DocumentDone 30)]
                ++ all_pages_ok f 30) in
  status (doc s) = completed ∧
  pages (doc s) = map (page_of_run f) (seq 1 30) ∧
  fullText (doc s) = String.concat SEP (map f (seq 1 30)) ∧
  progress (doc s) = 100%Z.
Proof.
  apply (undisturbed_run_completes "key" initialApp "doc.pdf" 0 1 2 30
           (λ n : nat, if Nat.even n then "even" else "odd")).
  - discriminate.
  - intros n. destruct (Nat.even n); discriminate.
Defined.

(** ** X10: when [performOCR] returns *)

(** X10: [performOCR] returns a text exactly when the key is configured
    and the service answered with a non-empty text; it then returns that
    very text, after one request. *)
Theorem extraction_returns_the_answer key reply text n :
  performOCR key reply = (Returns text, n) ↔
  key ≠ "" ∧ text ≠ "" ∧ reply = ReplyText (Some text) ∧ n = 1.
Proof.
  split.
  - intros H.
    destruct (performOCR_returns key reply text) as (? & ? & ? & Hn);
      [by rewrite H|]. rewrite H in Hn. done.
  - intros (Hkey & Htext & -> & ->). by apply performOCR_text.
Qed.

(** ** X11: what [performOCR] throws *)

Lemma classify_classified cause : cause ≠ "" → classified (classify cause).
Proof.
  intros Hc. unfold classify, classified.
  destruct (_ || _); [by left|].
  destruct (includes "429" cause); [by right; left|].
  destruct (includes "fetch" cause); [by right; right; left|].
  right; right; right. by exists cause.
Qed.

Lemma classified_nonempty m : classified m → m ≠ "".
Proof. intros [->|[->|[->|(c & _ & ->)]]]; done. Qed.

(** X11: an error thrown by [performOCR] always carries a non-empty
    message.  Without a key it is the missing-key message and no request
    has been sent; with a key one request has been sent and the message
    is one of the three fixed ones (invalid key, rate limit, network) or
    "OCR Processing Failed: " followed by a non-empty cause.  (The
    construction of the client, which precedes the [try], is taken not
    to throw, as everywhere in this model.) *)
Theorem extraction_errors_are_classified key reply err :
  fst (performOCR key reply) = Throws err →
  ∃ m, err = Some m ∧ m ≠ "" ∧
       (key = "" ∧ m = msg_missing_key ∧ snd (performOCR key reply) = 0 ∨
        key ≠ "" ∧ classified m ∧ snd (performOCR key reply) = 1).
Proof.
  unfold performOCR. destruct (String.eqb_spec key "") as [->|Hkey].
  - intros [= <-]. eexists. split; [done|]. split; [done|]. by left.
  - assert (∀ cause, cause ≠ "" →
              ∃ m, Some (classify cause) = Some m ∧ m ≠ "" ∧
                   (key = "" ∧ m = msg_missing_key ∧ 1 = 0 ∨
                    key ≠ "" ∧ classified m ∧ 1 = 1)) as Hcl.
    { intros cause Hc. pose proof (classify_classified cause Hc) as H.
      eexists. split; [done|]. split; [by apply classified_nonempty|].
      by right. }
    destruct reply as [text|e]; simpl.
    + destruct (String.eqb (or_else text "") ""); simpl; [|done].
      intros [= <-]. by apply Hcl.
    + intros [= <-]. by apply Hcl, or_else_nonempty.
Qed.

Lemma extraction_errors_are_classified_witness :
  ∃ m, Some "Rate limit exceeded. Please wait a moment." = Some m ∧ m ≠ "" ∧
       ("key" = "" ∧ m = msg_missing_key ∧
        snd (performOCR "key" (ReplyThrow (Some "code 429"))) = 0 ∨
        "key" ≠ "" ∧ classified m ∧
        snd (performOCR "key" (ReplyThrow (Some "code 429"))) = 1).
Proof.
  apply (extraction_errors_are_classified "key" (ReplyThrow (Some "code 429"))
           (Some "Rate limit exceeded. Please wait a moment.")).
  vm_compute. reflexivity.
Defined.

(** ** X12: the first failure is the one reported *)


Section Reports.

Variable API_KEY : string.



End Reports.



(** ** X13, X14: a cancelled run and the next upload *)

Lemma loop_at_app_exact now i s :
  isTerminated (app s) = false →
  (i < totalPages (run s) ∧ app (loop_at now i s) = app s) ∨
  (totalPages (run s) ≤ i ∧
   app (loop_at now i s) =
     complete_app (array_sort compare_pages (results (run s)))
                  (now - fileStartTime (run s)) (app s)).
Proof.
  intros Hf. unfold loop_at. simpl. rewrite Hf, length_pageNumbers.
  destruct (Nat.ltb_spec i (totalPages (run s))); [by left|].
  right. split; [done|]. unfold after_loop. simpl. by rewrite Hf.
Qed.

Section Reupload.

Variable API_KEY : string.
Hypothesis key_set : API_KEY ≠ "".

(** The answer of the service reaches a call of the first run after the
    next upload has begun. *)
Lemma stale_call_step s name' t1 k img p0 now text :
  Inv s → status (doc s) = idle →
  tasks (run s) !! k = Some (AwaitOCR img p0) → text ≠ "" →
  let p := mkPage (S k) text img (now - p0) in
  let ts' := <[k := Resolved (Some p)]> (tasks (run s)) in
  let a1 := setDocState (add_page (totalPages (run s)) p)
                        (app (start (app s) name' t1)) in
  let sh' := step_first API_KEY (upload_again name' t1 s)
               (now, TaskEv (S k) (OCRDone (ReplyText (Some text)))) in
  (¬ (Forall resolved ts' ∧ length ts' = totalPages (run s)) ∧
   component sh' = a1) ∨
  (Forall resolved ts' ∧ length ts' = totalPages (run s) ∧
   component sh' =
     complete_app (array_sort compare_pages (omap page_of ts'))
                  (now - fileStartTime (run s)) a1).
Proof.
  intros HI Hs Hk Htext p ts' a1 sh'.
  assert (phase (run s) = AwaitBatch) as Hph.
  { pose proof (inv_phase s HI) as H. rewrite Hs in H.
    destruct (phase (run s)); try done.
    - destruct H as [H _]. by rewrite H in Hk.
    - destruct H as [H _]. by rewrite H in Hk.
    - rewrite Forall_lookup in H. by specialize (H k _ Hk). }
  pose proof (inv_phase s HI) as Hb. rewrite Hph in Hb.
  destruct Hb as (Hlt & Hlen & _ & Hres & _).
  assert (loop_i (run s) ≤ k) as Hik.
  { destruct (decide (loop_i (run s) ≤ k)) as [|Hn]; [done|].
    pose proof (inv_prefix s HI) as Hpre. rewrite Forall_lookup in Hpre.
    specialize (Hpre k (AwaitOCR img p0)).
    rewrite lookup_take_lt in Hpre by lia. by specialize (Hpre Hk). }
  assert (Forall resolved (take (loop_i (run s)) ts')) as Hpre.
  { unfold ts'. rewrite take_insert_ge by lia. apply (inv_prefix s HI). }
  assert (length ts' = length (tasks (run s))) as Hlen' by apply length_insert.
  unfold sh', step_first, upload_again, step. simpl. rewrite Hk. simpl.
  rewrite (performOCR_text API_KEY text key_set Htext). simpl.
  unfold promise_all. simpl. rewrite Hph. fold p. fold ts'.
  destruct (forallb is_resolved (drop (loop_i (run s)) ts')) eqn:Hall.
  - apply forallb_resolved in Hall.
    assert (Forall resolved ts') as Hall'.
    { rewrite <-(take_drop (loop_i (run s)) ts'). by apply Forall_app. }
    assert (results (run s) ++ omap page_of (drop (loop_i (run s)) ts')
            = omap page_of ts') as Hr.
    { rewrite Hres.
      rewrite <-(take_insert_ge (tasks (run s)) (loop_i (run s)) k
                   (Resolved (Some p))) by lia.
      fold ts'. by rewrite <-omap_app, take_drop. }
    match goal with |- context [loop_at now ?i ?s0] =>
      destruct (loop_at_app_exact now i s0) as [[Hi H]|[Hi H]]; [done|..];
      rewrite H; simpl in Hi
    end.
    + left. split; [|done]. intros [_ Hl]. lia.
    + right. split; [done|]. split; [lia|]. simpl. by rewrite Hr.
  - left. split; [|done]. intros [Hall' _].
    apply (Forall_drop _ (loop_i (run s))) in Hall'.
    apply forallb_resolved in Hall'. congruence.
Qed.

End Reupload.

Lemma start_time_exec key s evs :
  fileStartTime (run (exec key s evs)) = fileStartTime (run s).
Proof.
  revert s. induction evs as [|[now e] evs IH]; intros s; [done|].
  simpl. rewrite IH. apply step_total.
Qed.

(** X13: the upload control is back as soon as a run is cancelled.  When
    a new file is then chosen while a call of the cancelled run is still
    waiting for the service, and the answer arrives, the page of the old
    document is put among the pages of the new one: the new upload has
    reset the termination flag that the old call checks. *)
Theorem cancelled_call_reaches_next_document
    key a name t0 evs name' t1 k img p0 now text :
  let s := run_from key a name t0 evs in
  let sh' := step_first key (upload_again name' t1 s)
               (now, TaskEv (S k) (OCRDone (ReplyText (Some text)))) in
  let d := docState (component sh') in
  status (doc s) = idle →
  tasks (run s) !! k = Some (AwaitOCR img p0) →
  key ≠ "" → text ≠ "" →
  fileName d = name' ∧
  mkPage (S k) text img (now - p0) ∈ pages d ∧
  isTerminated (component sh') = false ∧
  (status d = processing ∨ status d = completed).
Proof.
  intros s sh' d Hs Hk Hkey Htext.
  pose proof (inv_run key a name t0 evs) as HI. fold s in HI.
  destruct (stale_call_step key Hkey s name' t1 k img p0 now text HI Hs Hk Htext)
    as [[_ H]|(_ & _ & H)]; unfold d, sh'; rewrite H; simpl.
  - repeat split; [apply list_elem_of_singleton; done|by left].
  - repeat split; [|by right].
    rewrite array_sort_perm. apply omap_page_of_lookup. exists k.
    apply list_lookup_insert_eq. by apply lookup_lt_Some in Hk.
Qed.

Lemma cancelled_call_reaches_next_document_witness :
  let s := run_from "key" initialApp "old.pdf" 0
             (trace_one_of_two ++ [(25%Z, Stop)]) in
  let sh' := step_first "key" (upload_again "new.pdf" 26 s)
               (30%Z, TaskEv 2 (OCRDone (ReplyText (Some "B")))) in
  let d := docState (component sh') in
  fileName d = "new.pdf" ∧
  mkPage 2 "B" "img" (30 - 20) ∈ pages d ∧
  isTerminated (component sh') = false ∧
  (status d = processing ∨ status d = completed).
Proof.
  apply (cancelled_call_reaches_next_document "key" initialApp "old.pdf" 0
           (trace_one_of_two ++ [(25%Z, Stop)]) "new.pdf" 26 1 "img" 20 30 "B");
    vm_compute; (reflexivity || discriminate).
Defined.

(** X14: if that call was the last one the cancelled run was waiting for,
    and the run had dispatched all its pages, the cancelled run goes on
    to its end: the new document is shown Completed, under its own name
    and upload time, with the pages and the joined text of the old
    document and a duration counted from the old upload, while the
    handler of the new upload has not yet read the file. *)
Theorem cancelled_run_completes_next_document
    key a name t0 evs name' t1 k img p0 now text :
  let s := run_from key a name t0 evs in
  let sh' := step_first key (upload_again name' t1 s)
               (now, TaskEv (S k) (OCRDone (ReplyText (Some text)))) in
  let d := docState (component sh') in
  status (doc s) = idle →
  tasks (run s) !! k = Some (AwaitOCR img p0) →
  key ≠ "" → text ≠ "" →
  (∀ j t, j ≠ k → tasks (run s) !! j = Some t → resolved t) →
  length (tasks (run s)) = totalPages (run s) →
  status d = completed ∧ fileName d = name' ∧ startTime d = Some t1 ∧
  totalDurationMs d = Some (now - t0)%Z ∧
  (∀ q, q ∈ pages d ↔
        q = mkPage (S k) text img (now - p0) ∨
        ∃ j, tasks (run s) !! j = Some (Resolved (Some q))) ∧
  fullText d = String.concat SEP (map extractedText (pages d)) ∧
  phase (second_run sh') = AwaitArrayBuffer.
Proof.
  intros s sh' d Hs Hk Hkey Htext Hothers Hlen.
  pose proof (inv_run key a name t0 evs) as HI. fold s in HI.
  pose proof (lookup_lt_Some _ _ _ Hk) as Hlt.
  destruct (stale_call_step key Hkey s name' t1 k img p0 now text HI Hs Hk Htext)
    as [[Hn _]|(_ & _ & H)].
  { exfalso. apply Hn. split; [|by rewrite length_insert].
    apply Forall_lookup. intros j t Hj.
    destruct (decide (j = k)) as [->|Hjk].
    - rewrite list_lookup_insert_eq in Hj by done. by simplify_eq.
    - rewrite list_lookup_insert_ne in Hj by done. by eapply Hothers. }
  unfold d, sh'. rewrite H. simpl. repeat split; try done.
  - unfold s, run_from. by rewrite start_time_exec.
  - rewrite array_sort_perm. intros Hq.
    apply omap_page_of_lookup in Hq as [j Hj].
    destruct (decide (j = k)) as [->|Hjk].
    + rewrite list_lookup_insert_eq in Hj by done. left. by simplify_eq.
    + rewrite list_lookup_insert_ne in Hj by done. right. by exists j.
  - rewrite array_sort_perm. intros [->|[j Hj]]; apply omap_page_of_lookup.
    + exists k. by apply list_lookup_insert_eq.
    + exists j. rewrite list_lookup_insert_ne; [done|].
      intros ->. by simplify_eq.
Qed.

Lemma cancelled_run_completes_next_document_witness :
  let s := run_from "key" initialApp "old.pdf" 0
             (trace_one_of_two ++ [(25%Z, Stop)]) in
  let sh' := step_first "key" (upload_again "new.pdf" 26 s)
               (30%Z, TaskEv 2 (OCRDone (ReplyText (Some "B")))) in
  let d := docState (component sh') in
  status d = completed ∧ fileName d = "new.pdf" ∧ startTime d = Some 26%Z ∧
  totalDurationMs d = Some (30 - 0)%Z ∧
  (∀ q, q ∈ pages d ↔
        q = mkPage 2 "B" "img" (30 - 20) ∨
        ∃ j, tasks (run s) !! j = Some (Resolved (Some q))) ∧
  fullText d = String.concat SEP (map extractedText (pages d)) ∧
  phase (second_run sh') = AwaitArrayBuffer.
Proof.
  apply (cancelled_run_completes_next_document "key" initialApp "old.pdf" 0
           (trace_one_of_two ++ [(25%Z, Stop)]) "new.pdf" 26 1 "img" 20 30 "B");
    try (vm_compute; (reflexivity || discriminate)).
  intros [|[|j]] t Hj; vm_compute; try done. by intros [= <-].
Defined.

(** ** X15: the text download of a completed document *)

Lemma append_nil_l s : ("" +:+ s)%string = s.
Proof. done. Qed.

Lemma append_cons c s t : (String c s +:+ t)%string = String c (s +:+ t).
Proof. done. Qed.

Lemma prefix_nil s : String.prefix "" s = true.
Proof. by destruct s. Qed.

Lemma prefix_pdf_app c x rest :
  String.prefix ".pdf" (String c x) = false →
  String.prefix ".pdf" (String c x +:+ ".pdf" +:+ rest) = false.
Proof.
  destruct x as [|c2 [|c3 [|c4 x]]];
    cbv beta iota delta [String.append]; cbn [String.prefix];
    repeat match goal with
    | |- context [Ascii.ascii_dec ?a ?b] =>
        destruct (Ascii.ascii_dec a b) as [E|E]; try discriminate E
    end; rewrite ?prefix_nil; done.
Qed.

Lemma replace_first_pdf base rest :
  includes ".pdf" base = false →
  replace_first ".pdf" "" (base +:+ ".pdf" +:+ rest) = (base +:+ rest)%string.
Proof.
  induction base as [|c base IH].
  { intros _.
    rewrite append_nil_l, !append_cons, append_nil_l.
    cbn [replace_first String.prefix].
    repeat match goal with
    | |- context [Ascii.ascii_dec ?a ?b] =>
        destruct (Ascii.ascii_dec a b) as [E|E]; [|done]
    end.
    by rewrite prefix_nil. }
  intros H. cbn [includes] in H. apply orb_false_elim in H as [Hp Hi].
  apply (prefix_pdf_app c base rest) in Hp.
  change (String c base +:+ ".pdf" +:+ rest)%string
    with (String c (base +:+ ".pdf" +:+ rest)) in *.
  cbn [replace_first]. rewrite Hp, (append_cons c base rest). f_equal.
  by apply IH.
Qed.

(** X15: for an upload taken alone (no call of an earlier, cancelled
    upload is still in flight and no further upload is started) that has
    reached Completed, the TXT button downloads a "text/plain" file whose
    content is the text of the pages shown, in their order, joined by the
    separator.  Its name is the name of the uploaded file without its
    first ".pdf", followed by "_OCR.txt": for [base.pdf] it is
    [base_OCR.txt]. *)
Theorem text_download_of_completed_run key a base rest t0 evs :
  let d := doc (run_from key a (base +:+ ".pdf" +:+ rest) t0 evs) in
  includes ".pdf" base = false → status d = completed →
  downloadAsText (fileName d) (fullText d) =
    mkDownload "text/plain"
               (String.concat SEP (map extractedText (pages d)))
               ((base +:+ rest) +:+ "_OCR.txt").
Proof.
  intros d Hbase Hc. unfold d in *.
  pose proof (inv_run key a (base +:+ ".pdf" +:+ rest) t0 evs) as HI.
  destruct (inv_completed _ HI Hc) as (_ & _ & _ & _ & ->).
  destruct (meta_exec key (start a (base +:+ ".pdf" +:+ rest) t0) evs
              (base +:+ ".pdf" +:+ rest) t0 (inv_start _ _ _)) as [Hn _];
    [repeat split; done|].
  fold (run_from key a (base +:+ ".pdf" +:+ rest) t0 evs) in Hn.
  unfold downloadAsText. by rewrite Hn, replace_first_pdf.
Qed.

Lemma text_download_of_completed_run_witness :
  let d := doc (run_from "key" initialApp ("scan" +:+ ".pdf" +:+ "") 0
                  ([(1%Z, ArrayBufferDone); (2%Z, DocumentDone 3)]
                     ++ page_ok 3 10 "C" ++ page_ok 1 20 "A"
                     ++ page_ok 2 30 "B")) in
  downloadAsText (fileName d) (fullText d) =
    mkDownload "text/plain"
               (String.concat SEP (map extractedText (pages d)))
               (("scan" +:+ "") +:+ "_OCR.txt").
Proof.
  apply (text_download_of_completed_run "key" initialApp "scan" "" 0
           ([(1%Z, ArrayBufferDone); (2%Z, DocumentDone 3)]
              ++ page_ok 3 10 "C" ++ page_ok 1 20 "A" ++ page_ok 2 30 "B"));
    vm_compute; reflexivity.
Defined.

(** ** X16: the chat *)

Section ChatSteps.

Variable blank : string → bool.
Hypothesis blank_empty : blank "" = true.

Lemma chat_inv_step c e :
  Chat.ChatInv c → Chat.ChatInv (Chat.chat_step blank c e).
Proof.
  intros HI. pose proof HI as [Hcontent Hawaited].
  destruct e as [d text|d t1 t2|i t1 t2 reply].
  - simpl. destruct (_ && _); by split.
  - unfold Chat.chat_step, Chat.handleSendMessage.
    destruct (blank (Chat.userInput c)) eqn:Hb; [done|].
    destruct (Chat.isChatLoading c) eqn:Hl; [done|].
    destruct (bool_decide _); simpl; [|done].
    split; simpl.
    + apply Forall_app. split; [done|]. constructor; [|done].
      simpl. intros He. rewrite He in Hb. congruence.
    + rewrite Hawaited. eexists. split; [done|]. simpl.
      by rewrite map_app.
  - unfold Chat.chat_step, Chat.handleSendMessage_resume.
    destruct (Chat.awaited c !! i) as [r|] eqn:Hi; [|done].
    destruct (Chat.isChatLoading c); [|by rewrite Hawaited in Hi].
    destruct Hawaited as (r' & Hr & _). rewrite Hr in Hi |- *.
    destruct i as [|i]; [|done]. split; simpl; [|done].
    destruct reply as [text|err]; simpl; [|done].
    apply Forall_app. split; [done|]. constructor; [|done].
    simpl. by apply or_else_nonempty.
Qed.

End ChatSteps.

(** X16: in every state of the chat, whatever is typed, submitted and
    answered: no message of the conversation is empty; while the loading
    flag is set exactly one call of [chatWithDocument] is awaited, and
    the contents of its request are the conversation on screen, ending
    with the user's question; while the flag is clear, none is awaited. *)
Theorem chat_request_is_the_conversation blank evs :
  blank "" = true → Chat.ChatInv (Chat.chat_exec blank evs).
Proof.
  intros Hb. unfold Chat.chat_exec.
  assert (Chat.ChatInv Chat.initial) as H0 by (split; [constructor|done]).
  revert H0. generalize Chat.initial.
  induction evs as [|e evs IH]; intros c Hc; [done|].
  simpl. by apply IH, chat_inv_step.
Qed.

Lemma chat_request_is_the_conversation_witness :
  let d := mkDoc "doc.pdf" [] "text" completed 100 (Some 9%Z) (Some 0%Z) in
  Chat.ChatInv
    (Chat.chat_exec Chat.ascii_blank
       [Chat.Typed d "what is it?"; Chat.Submitted d 10 10;
        Chat.Submitted d 11 11; Chat.Replied 0 20 20 (ReplyText None)]).
Proof.
  apply (chat_request_is_the_conversation Chat.ascii_blank). reflexivity.
Defined.

(** ** X17: the order of the pages of an upload taken alone *)

(** X17: for an upload taken alone (no call of an earlier, cancelled
    upload is still in flight and no further upload is started), in every
    state the run goes through the pages of the document state are in
    strictly ascending order of page number: earlier entries have smaller
    page numbers and no page number occurs twice, whatever the order in
    which the page tasks complete. *)
Theorem pages_ascending_in_single_run key a name now evs :
  let ps := pages (doc (run_from key a name now evs)) in
  (∀ i j p q, i < j → ps !! i = Some p → ps !! j = Some q →
              pageNumber p < pageNumber q) ∧
  NoDup (keys ps).
Proof.
  intros ps.
  destruct (inv_run key a name now evs) as [[Hs _ _ _ _ _ _] _ _ _ _].
  fold ps in Hs. split; [|by apply strict_nodup].
  intros i j p q Hij Hi Hj.
  apply (strict_lookup (keys ps) i j); try done;
    unfold keys; by rewrite list_lookup_fmap, ?Hi, ?Hj.
Qed.

(** ** X18: the text of a completed upload taken alone *)

Lemma answered_more key evs ne n text :
  answered key evs n text → answered key (evs ++ [ne]) n text.
Proof.
  intros (t & reply & Hin & Hr). exists t, reply. split; [|done].
  apply elem_of_app. by left.
Qed.

Lemma without_context_more evs ne n :
  without_context evs n → without_context (evs ++ [ne]) n.
Proof. intros (t & Hin). exists t. apply elem_of_app. by left. Qed.

(** Where the result of a call that resolves comes from. *)
Lemma resume_resolved key f n now t ev r pub :
  processPage_resume key f n now t ev = Some (Resolved r, pub) →
  match r with
  | Some p => ∃ reply, ev = OCRDone reply ∧
                       fst (performOCR key reply) = Returns (extractedText p)
  | None => f = true ∨ ev = GetPageDone false
  end.
Proof.
  unfold processPage_resume. intros H.
  destruct t, ev; try done; simplify_eq.
  - destruct context; simplify_eq. by right.
  - destruct f; simplify_eq. by left.
  - destruct (performOCR key reply).1 as [text|err] eqn:Hp; simplify_eq.
    by exists reply.
Qed.

Section Traces.

Variable API_KEY : string.

Lemma step_tasks_shape s ne :
  ∃ calls, Forall (λ c, c = AwaitGetPage) calls ∧
    (tasks (run (step API_KEY s ne)) = tasks (run s) ++ calls ∨
     ∃ k t ev t' pub,
       ne.2 = TaskEv (S k) ev ∧ tasks (run s) !! k = Some t ∧
       processPage_resume API_KEY (isTerminated (app s)) (S k) ne.1 t ev
         = Some (t', pub) ∧
       tasks (run (step API_KEY s ne)) = <[k:=t']> (tasks (run s)) ++ calls).
Proof.
  assert (∃ calls : list Task, Forall (λ c, c = AwaitGetPage) calls ∧
            (tasks (run s) = tasks (run s) ++ calls ∨
             ∃ k t ev t' pub,
               ne.2 = TaskEv (S k) ev ∧ tasks (run s) !! k = Some t ∧
               processPage_resume API_KEY (isTerminated (app s)) (S k) ne.1 t ev
                 = Some (t', pub) ∧
               tasks (run s) = <[k:=t']> (tasks (run s)) ++ calls)) as Hsame.
  { exists []. split; [constructor|]. left. by rewrite app_nil_r. }
  destruct ne as [now e].
  destruct e as [| |err|n|err|n ev]; unfold step; simpl.
  - by destruct (status (doc s)).
  - by destruct (phase (run s)).
  - by destruct (phase (run s)).
  - destruct (phase (run s)); try done.
    destruct (loop_at_frame now 0 (mkSys (app s) (with_totalPages n (run s))))
      as (_ & (calls & Ht & Hc) & _).
    exists calls. split; [done|]. by left.
  - by destruct (phase (run s)).
  - destruct n as [|k]; [done|].
    destruct (tasks (run s) !! k) as [t|] eqn:Hk; [|done].
    destruct (processPage_resume _ _ _ _ _ _) as [[t' pub]|] eqn:Hres; [|done].
    destruct (promise_all_frame now t' (advance_task k t' pub s))
      as (_ & (calls & Ht & Hc) & _).
    exists calls. split; [done|]. right. by exists k, t, ev, t', pub.
Qed.

Lemma traced_step evs s ne :
  Inv s → Traced API_KEY evs s →
  Traced API_KEY (evs ++ [ne]) (step API_KEY s ne).
Proof.
  intros HI HT.
  assert (∀ k r, tasks (run s) !! k = Some (Resolved r) →
            match r with
            | Some p => answered API_KEY (evs ++ [ne]) (S k) (extractedText p)
            | None => isTerminated (app (step API_KEY s ne)) = true ∨
                      without_context (evs ++ [ne]) (S k)
            end) as Hold.
  { intros k r Hk. specialize (HT k r Hk). destruct r as [p|].
    - by apply answered_more.
    - destruct HT as [Hf|Hw]; [left|right; by apply without_context_more].
      by apply (terminated_step API_KEY s ne HI Hf). }
  assert (∀ calls k r, Forall (λ c, c = AwaitGetPage) calls →
            calls !! k = Some (Resolved r) → False) as Hfresh.
  { intros calls k r Hc Hk. rewrite Forall_lookup in Hc.
    by specialize (Hc k _ Hk). }
  intros k r Hk.
  destruct (step_tasks_shape s ne)
    as (calls & Hc & [Ht|(k0 & t & ev & t' & pub & He & Hk0 & Hres & Ht)]);
    rewrite Ht in Hk; apply lookup_app_Some in Hk as [Hk|[_ Hk]];
    try (exfalso; by eapply Hfresh); [by apply Hold|].
  destruct (decide (k = k0)) as [->|Hne].
  - rewrite list_lookup_insert_eq in Hk by by apply lookup_lt_Some in Hk0.
    simplify_eq. apply resume_resolved in Hres.
    destruct ne as [now e]. simpl in He. subst e.
    destruct r as [p|].
    + destruct Hres as (reply & -> & Hr). exists now, reply. split; [|done].
      apply elem_of_app. right. by apply list_elem_of_singleton.
    + destruct Hres as [Hf| ->].
      * left. by apply (terminated_step API_KEY s _ HI Hf).
      * right. exists now. apply elem_of_app. right.
        by apply list_elem_of_singleton.
  - rewrite list_lookup_insert_ne in Hk by done. by apply Hold.
Qed.

Lemma traced_run a name now evs :
  Traced API_KEY evs (run_from API_KEY a name now evs).
Proof.
  induction evs as [|ne evs IH] using rev_ind; [by intros k r Hk|].
  unfold run_from, exec. rewrite foldl_app. simpl.
  apply traced_step; [apply inv_run|done].
Qed.

End Traces.

(** X18: for an upload taken alone (no call of an earlier, cancelled
    upload is still in flight and no further upload is started) that
    reaches Completed: the full text is the texts of the pages shown,
    joined by the separator; the pages are in strictly ascending order;
    the text of each page shown is a text that the service answered for
    that page; and every page of the document is shown, except those that
    got no 2D context from their canvas.  The order in which the answers
    arrive plays no part. *)
Theorem completed_text_is_join_of_answers key a name t0 evs :
  let s := run_from key a name t0 evs in
  status (doc s) = completed →
  fullText (doc s) = String.concat SEP (map extractedText (pages (doc s))) ∧
  StronglySorted lt (keys (pages (doc s))) ∧
  (∀ p, p ∈ pages (doc s) →
        answered key evs (pageNumber p) (extractedText p)) ∧
  (∀ n, 1 ≤ n ≤ totalPages (run s) →
        n ∈ keys (pages (doc s)) ∨ without_context evs n).
Proof.
  intros s Hc.
  pose proof (inv_run key a name t0 evs) as HI. fold s in HI.
  pose proof (traced_run key a name t0 evs) as HT. fold s in HT.
  destruct (inv_completed s HI Hc) as (Hall & Hlen & Hres & Hpages & Htext).
  pose proof (inv_flag s (inv_doc s HI)) as Hflag. rewrite Hc in Hflag.
  assert (isTerminated (app s) = false) as Hf.
  { destruct (isTerminated (app s)); [by destruct Hflag|done]. }
  split; [done|]. split; [apply (inv_sorted s (inv_doc s HI))|]. split.
  - intros p Hp. destruct (inv_pages s (inv_doc s HI) p Hp) as [k Hk].
    rewrite (inv_tasks s (inv_doc s HI) k p Hk). apply (HT k (Some p) Hk).
  - intros n Hn. destruct n as [|k]; [lia|].
    destruct (lookup_lt_is_Some_2 (tasks (run s)) k) as [t Hk]; [lia|].
    rewrite Forall_lookup in Hall. pose proof (Hall k t Hk) as Hr.
    destruct t as [| | |[p|]|]; try done.
    + left. apply list_elem_of_fmap. exists p. split.
      * symmetry. apply (inv_tasks s (inv_doc s HI) k p Hk).
      * rewrite Hpages, Hres. apply omap_page_of_lookup. by exists k.
    + right. destruct (HT k None Hk) as [Hf'|Hw]; [congruence|done].
Qed.

Lemma completed_text_is_join_of_answers_witness :
  let evs := [(1%Z, ArrayBufferDone); (2%Z, DocumentDone 3)]
               ++ page_ok 3 10 "C" ++ page_ok 1 20 "A" ++ page_ok 2 30 "B" in
  let s := run_from "key" initialApp "doc.pdf" 0 evs in
  fullText (doc s) = String.concat SEP (map extractedText (pages (doc s))) ∧
  StronglySorted lt (keys (pages (doc s))) ∧
  (∀ p, p ∈ pages (doc s) →
        answered "key" evs (pageNumber p) (extractedText p)) ∧
  (∀ n, 1 ≤ n ≤ totalPages (run s) →
        n ∈ keys (pages (doc s)) ∨ without_context evs n).
Proof.
  apply (completed_text_is_join_of_answers "key" initialApp "doc.pdf" 0).
  vm_compute. reflexivity.
Defined.
